(** * SunCalc-WASM: the astronomical core of the AssemblyScript module

    The module computes on [f64] values.  They are modelled by Rocq's
    primitive binary64 floats: [+], [-], [*], [/] and [sqrt] are the IEEE 754
    round-to-nearest-even operations of the WebAssembly instructions
    [f64.add], [f64.sub], [f64.mul], [f64.div] and [f64.sqrt], and their
    meaning is the one [Prim2SF] and the [SpecFloat] operations give them.

    The transcendental functions of [Math] are not part of the repository.
    They are a parameter ([MathLib]) constrained by the special cases
    ECMAScript fixes and by the ranges of the functions ([MathLaws]);
    [Coarse.math] is one implementation meeting the constraints. *)

From Stdlib Require Import ZArith Lia Bool List Floats Rbase Rfunctions Lra.
Import ListNotations.

Set Warnings "-inexact-float".

Local Open Scope float_scope.

(** ** The f64 primitives of the language *)

Module F64.

(** [f64.ceil]: the least integral value not below [x]; a zero result has
    the sign of [x]. *)
Definition ceil (x : float) : float :=
  match Prim2SF x with
  | S754_finite s m e =>
      if (0 <=? e)%Z then x
      else
        let q := Z.shiftl (Zpos m) e in
        let up := if (Z.shiftl q (- e) =? Zpos m)%Z then q else (q + 1)%Z in
        SF2Prim (binary_normalize prec emax (if s then (- q)%Z else up) 0 s)
  | _ => x
  end.

(** [Math.round]: the nearest integer, a tie going to the larger one; written
    as the AssemblyScript standard library computes it from [ceil]. *)
Definition round (x : float) : float :=
  let roundUp := ceil x in
  if roundUp - 0.5 <=? x then roundUp else roundUp - 1.0.

Definition i64_min : Z := (- 2 ^ 63)%Z.
Definition i64_max : Z := (2 ^ 63 - 1)%Z.

(** [x as i64] on an [f64], the instruction [i64.trunc_sat_f64_s]:
    truncation toward zero; NaN gives 0 and values out of range saturate. *)
Definition to_i64 (x : float) : Z :=
  match Prim2SF x with
  | S754_nan => 0%Z
  | S754_zero _ => 0%Z
  | S754_infinity s => if s then i64_min else i64_max
  | S754_finite s m e =>
      let mag := Z.shiftl (Zpos m) e in
      Z.max i64_min (Z.min i64_max (if s then (- mag)%Z else mag))
  end.

(** An [i64] where a [u64] is expected keeps its 64 bits. *)
Definition to_u64 (v : Z) : Z := (v mod 2 ^ 64)%Z.

(** The signed reading of the same 64 bits. *)
Definition as_signed (u : Z) : Z :=
  if (u <? 2 ^ 63)%Z then u else (u - 2 ^ 64)%Z.

(** Conversion of an integer to [f64] (round to nearest even), as for a
    number literal or an integer argument. *)
Definition of_Z (n : Z) : float := SF2Prim (binary_normalize prec emax n 0 false).

(** Truthiness of an [f64]: zeros and NaN are falsy. *)
Definition truthy (x : float) : bool := negb (is_nan x || is_zero x).

(** [x || 0] *)
Definition or_zero (x : float) : float := if truthy x then x else 0.

End F64.

(** ** The [Math] functions the module imports *)

Record MathLib : Type := {
  m_sin : float -> float;
  m_cos : float -> float;
  m_tan : float -> float;
  m_atan2 : float -> float -> float;
  m_asin : float -> float;
  m_acos : float -> float
}.

(** ** Data model *)

(** [type Timestamp = u64]: an integer in [0, 2^64). *)
Definition Timestamp : Type := Z.

Record Position : Type := {
  azimuth_ : float;
  altitude_ : float;
  pos_distance : float;
  parallacticAngle : float
}.

Record SunTimes : Type := {
  solarNoon : Timestamp;
  nadir : Timestamp;
  sunrise : Timestamp;
  sunset : Timestamp;
  sunrise_end : Timestamp;
  sunsetStart : Timestamp;
  dawn : Timestamp;
  dusk : Timestamp;
  nauticalDawn : Timestamp;
  nauticalDusk : Timestamp;
  nightEnd : Timestamp;
  night : Timestamp;
  goldenHourEnd : Timestamp;
  goldenHour : Timestamp
}.

Record Coords : Type := {
  rightAscension_ : float;
  declination_ : float;
  distance : float
}.

Record Illumination : Type := {
  fraction : float;
  phase : float;
  angle : float
}.

(** ** Constants and time conversion *)

Definition MILLISECONDS_PER_DAY : float := 86400000.
Definition J1970 : float := 2440588.
Definition J2000 : float := 2451545.
Definition PI : float := 0x1.921fb54442d18p+1.
Definition TO_RAD : float := PI / 180.0.
Definition OBLIQUITY_OF_EARTH : float := 23.4397 * TO_RAD.
Definition PERIHELION_OF_EARTH : float := 102.9372 * TO_RAD.

Definition toJulian (timestamp : float) : float :=
  timestamp / MILLISECONDS_PER_DAY - 0.5 + J1970.

(** [fromJulian] in its three steps: the scaled value, its rounding, the cast
    to [i64], and the [u64] the declared return type makes of it. *)
Definition fromJulian_scaled (j : float) : float :=
  (j + 0.5 - J1970) * MILLISECONDS_PER_DAY.

Definition fromJulian_f64 (j : float) : float := F64.round (fromJulian_scaled j).

Definition fromJulian_i64 (j : float) : Z := F64.to_i64 (fromJulian_f64 j).

Definition fromJulian (j : float) : Timestamp := F64.to_u64 (fromJulian_i64 j).

Definition toDays (timestamp : float) : float := toJulian timestamp - J2000.

(** ** Calculations that use no [Math] function *)

Definition siderealTime (d lw : float) : float :=
  ((280.16 + 360.9856235 * d) * TO_RAD) - lw.

Definition solar_mean_anomaly (d : float) : float :=
  (357.5291 + 0.98560028 * d) * TO_RAD.

Definition J0 : float := 0.0009.

Definition julianCycle (d lw : float) : float :=
  F64.round (d - J0 - lw / (2.0 * PI)).

Definition approxTransit (h_t lw n : float) : float :=
  J0 + (h_t + lw) / (2.0 * PI) + n.

Definition observerAngle (height : float) : float :=
  -2.076 * sqrt height / 60.0.

Definition lunarMeanAnomaly (d : float) : float := (134.963 + 13.064993 * d) * TO_RAD.

Definition lunarEclipticLongitude (d : float) : float := (218.316 + 13.176396 * d) * TO_RAD.

Definition lunarMeanDistance (d : float) : float := (93.272 + 13.229350 * d) * TO_RAD.

(** *** class SunTime: the threshold altitudes, in degrees *)

Record SunTime : Type := { value : float }.

Definition SUNRISE_SUNSET : SunTime := {| value := -0.833 |}.
Definition SUNRISE_END_SUNSET_START : SunTime := {| value := -0.3 |}.
Definition DAWN_DUSK : SunTime := {| value := -6.0 |}.
Definition NAUTICAL_DAWN_NAUTICAL_DUSK : SunTime := {| value := -12.0 |}.
Definition NIGHT_END_NIGHT : SunTime := {| value := -18.0 |}.
Definition GOLDEN_HOUR_END_GOLDEN_HOUR : SunTime := {| value := 6.0 |}.

(** The local [h0] of [SunTime.calc]. *)
Definition calc_h0 (this : SunTime) (dh : float) : float :=
  (value this + dh) * PI / 180.0.

(** Element access on the two-element array [calc] returns. *)
Definition at_ (a : list Timestamp) (i : nat) : Timestamp := nth i a 0%Z.

(** ** The functions of the module, over the imported [Math] *)

Section Core.

Variable M : MathLib.

Local Abbreviation sin := (m_sin M).
Local Abbreviation cos := (m_cos M).
Local Abbreviation tan := (m_tan M).
Local Abbreviation atan2 := (m_atan2 M).
Local Abbreviation asin := (m_asin M).
Local Abbreviation acos := (m_acos M).

(** *** General calculations for position *)

Definition rightAscension (l b : float) : float :=
  atan2 (sin l * cos OBLIQUITY_OF_EARTH - tan b * sin OBLIQUITY_OF_EARTH) (cos l).

Definition declination (l b : float) : float :=
  asin (sin b * cos OBLIQUITY_OF_EARTH + cos b * sin OBLIQUITY_OF_EARTH * sin l).

Definition azimuth (h phi dec : float) : float :=
  atan2 (sin h) (cos h * sin phi - tan dec * cos phi).

Definition altitude (h phi dec : float) : float :=
  asin (sin phi * sin dec + cos phi * cos dec * cos h).

Definition astro_refraction (h : float) : float :=
  let hh := if h <? 0.0 then 0.0 else h in
  tan (0.0002967 / (hh + 0.00312536 / (hh + 0.08901179))).

(** *** General sun calculations *)

Definition equationOfCenter (m : float) : float :=
  (1.9148 * sin (1.0 * m) + 0.02 * sin (2.0 * m) + 0.0003 * sin (3.0 * m)) * TO_RAD.

Definition eclipticLongitude (m : float) : float :=
  m + equationOfCenter m + PERIHELION_OF_EARTH + PI.

(** *** Calculations for sun times *)

Definition solarTransitJ (ds m l : float) : float :=
  J2000 + ds + 0.0053 * sin m - 0.0069 * sin (2.0 * l).

(** The argument [hourAngle] hands to [acos]. *)
Definition hourAngle_arg (h phi dec : float) : float :=
  (sin h - sin phi * sin dec) / (cos phi * cos dec).

Definition hourAngle (h phi dec : float) : float :=
  acos ((sin h - sin phi * sin dec) / (cos phi * cos dec)).

Definition get_set_j (h lw phi dec n m l : float) : float :=
  let w := hourAngle h phi dec in
  let a := approxTransit w lw n in
  solarTransitJ a m l.

Definition sunCoords (d : float) : Coords :=
  let m := solar_mean_anomaly d in
  let l := eclipticLongitude m in
  {| rightAscension_ := rightAscension l 0.0;
     declination_ := declination l 0.0;
     distance := 0 |}.

Definition getPosition (timestamp lat lon : float) : Position :=
  let lw := - lon * TO_RAD in
  let phi := lat * TO_RAD in
  let d := toDays timestamp in
  let m := solar_mean_anomaly d in
  let l := eclipticLongitude m in
  let dec := declination l 0.0 in
  let ra := rightAscension l 0.0 in
  let h := siderealTime d lw - ra in
  {| azimuth_ := azimuth h phi dec;
     altitude_ := altitude h phi dec;
     pos_distance := 0;
     parallacticAngle := 0 |}.

(** The locals [j_set] and [j_rise] of [SunTime.calc]. *)
Definition calc_j_set (this : SunTime) (dh lw phi dec n m l : float) : float :=
  get_set_j (calc_h0 this dh) lw phi dec n m l.

Definition calc_j_rise (this : SunTime) (j_noon dh lw phi dec n m l : float) : float :=
  j_noon - (calc_j_set this dh lw phi dec n m l - j_noon).

Definition calc (this : SunTime) (j_noon dh lw phi dec n m l : float) : list Timestamp :=
  let h0 := (value this + dh) * PI / 180.0 in
  let j_set := get_set_j h0 lw phi dec n m l in
  let j_rise := j_noon - (j_set - j_noon) in
  [fromJulian j_rise; fromJulian j_set].

Definition getTimes (timestamp lat lon h : float) : SunTimes :=
  let height := h in
  let lw := - lon * TO_RAD in
  let phi := lat * TO_RAD in
  let dh := observerAngle height in
  let d := toDays timestamp in
  let n := julianCycle d lw in
  let ds := approxTransit 0.0 lw n in
  let m := solar_mean_anomaly ds in
  let l := eclipticLongitude m in
  let dec := declination l 0.0 in
  let j_noon := solarTransitJ ds m l in
  let time := calc SUNRISE_SUNSET j_noon dh lw phi dec n m l in
  let timeStart := calc SUNRISE_END_SUNSET_START j_noon dh lw phi dec n m l in
  let dawnDusk := calc DAWN_DUSK j_noon dh lw phi dec n m l in
  let nautical := calc NAUTICAL_DAWN_NAUTICAL_DUSK j_noon dh lw phi dec n m l in
  let nightTime := calc NIGHT_END_NIGHT j_noon dh lw phi dec n m l in
  let golden := calc GOLDEN_HOUR_END_GOLDEN_HOUR j_noon dh lw phi dec n m l in
  {| solarNoon := fromJulian j_noon;
     nadir := fromJulian (j_noon - 0.5);
     sunrise := at_ time 0;
     sunset := at_ time 1;
     sunrise_end := at_ timeStart 0;
     sunsetStart := at_ timeStart 1;
     dawn := at_ dawnDusk 0;
     dusk := at_ dawnDusk 1;
     nauticalDawn := at_ nautical 0;
     nauticalDusk := at_ nautical 1;
     nightEnd := at_ nightTime 0;
     night := at_ nightTime 1;
     goldenHourEnd := at_ golden 0;
     goldenHour := at_ golden 1 |}.

(** The locals of [getTimes] every [calc] receives. *)
Definition getTimes_lw (lon : float) : float := - lon * TO_RAD.

Definition getTimes_n (timestamp lon : float) : float :=
  julianCycle (toDays timestamp) (getTimes_lw lon).

Definition getTimes_m (timestamp lon : float) : float :=
  solar_mean_anomaly (approxTransit 0.0 (getTimes_lw lon) (getTimes_n timestamp lon)).

Definition getTimes_l (timestamp lon : float) : float :=
  eclipticLongitude (getTimes_m timestamp lon).

Definition getTimes_dec (timestamp lon : float) : float :=
  declination (getTimes_l timestamp lon) 0.0.

Definition getTimes_j_noon (timestamp lon : float) : float :=
  solarTransitJ (approxTransit 0.0 (getTimes_lw lon) (getTimes_n timestamp lon))
    (getTimes_m timestamp lon) (getTimes_l timestamp lon).

(** *** General moon calculations *)

(** The local [distance] of [moonCoords], before [|| 0]. *)
Definition moon_distance (d : float) : float :=
  385001.0 - 20905.0 * cos (lunarMeanAnomaly d).

Definition moonCoords (d : float) : Coords :=
  let l := lunarEclipticLongitude d in
  let m := lunarMeanAnomaly d in
  let f := lunarMeanDistance d in
  let lng := l + TO_RAD * 6.289 * sin m in
  let lat := TO_RAD * 5.128 * sin f in
  let distance := 385001.0 - 20905.0 * cos m in
  {| rightAscension_ := rightAscension lng lat;
     declination_ := declination lng lat;
     distance := F64.or_zero distance |}.

(** The local [pa] of [getMoonPosition], before [|| 0]. *)
Definition moon_pa (timestamp lat lon : float) : float :=
  let lw := TO_RAD * - lon in
  let phi := TO_RAD * lat in
  let d := toDays timestamp in
  let c := moonCoords d in
  let h := siderealTime d lw - rightAscension_ c in
  atan2 (sin h) (tan phi * cos (declination_ c) - sin (declination_ c) * cos h).

Definition getMoonPosition (timestamp lat lon : float) : Position :=
  let lw := TO_RAD * - lon in
  let phi := TO_RAD * lat in
  let d := toDays timestamp in
  let c := moonCoords d in
  let h := siderealTime d lw - rightAscension_ c in
  let alt := altitude h phi (declination_ c) in
  let alt := alt + astro_refraction alt in
  let pa := atan2 (sin h) (tan phi * cos (declination_ c) - sin (declination_ c) * cos h) in
  {| azimuth_ := azimuth h phi (declination_ c);
     altitude_ := alt;
     pos_distance := F64.or_zero (distance c);
     parallacticAngle := F64.or_zero pa |}.

(** The locals [phi], [inc] and [angle] of [getMoonIllumination], and the
    expression stored in [fraction]. *)
Definition illum_phi (timestamp : float) : float :=
  let d := toDays timestamp in
  let s := sunCoords d in
  let m := moonCoords d in
  acos (sin (declination_ s) * sin (declination_ m)
        + cos (declination_ s) * cos (declination_ m)
          * cos (rightAscension_ s - rightAscension_ m)).

Definition illum_inc (timestamp : float) : float :=
  let m := moonCoords (toDays timestamp) in
  let sdist := 149598000 in
  let phi := illum_phi timestamp in
  atan2 (sdist * sin phi) (distance m - sdist * cos phi).

Definition illum_angle (timestamp : float) : float :=
  let d := toDays timestamp in
  let s := sunCoords d in
  let m := moonCoords d in
  atan2 (cos (declination_ s) * sin (rightAscension_ s - rightAscension_ m))
        (sin (declination_ s) * cos (declination_ m)
         - cos (declination_ s) * sin (declination_ m)
           * cos (rightAscension_ s - rightAscension_ m)).

Definition illum_fraction (timestamp : float) : float :=
  (1.0 + cos (illum_inc timestamp)) / 2.0.

Definition getMoonIllumination (timestamp : float) : Illumination :=
  let d := toDays timestamp in
  let s := sunCoords d in
  let m := moonCoords d in
  let a := lunarMeanAnomaly d in
  let sdist := 149598000 in
  let phi := acos (sin (declination_ s) * sin (declination_ m)
                   + cos (declination_ s) * cos (declination_ m)
                     * cos (rightAscension_ s - rightAscension_ m)) in
  let inc := atan2 (sdist * sin phi) (distance m - sdist * cos phi) in
  let angle := atan2 (cos (declination_ s) * sin (rightAscension_ s - rightAscension_ m))
                     (sin (declination_ s) * cos (declination_ m)
                      - cos (declination_ s) * sin (declination_ m)
                        * cos (rightAscension_ s - rightAscension_ m)) in
  let sign := if angle <? 0.0 then -1.0 else 1.0 in
  {| fraction := (1.0 + cos inc) / 2.0;
     phase := 0.5 + 0.5 * inc * sign / PI;
     angle := angle |}.

End Core.

(** ** The six threshold pairs of [getTimes] *)

Inductive Pair : Type :=
  | PSunrise | PSunriseEnd | PDawn | PNautical | PNight | PGolden.

Definition threshold (p : Pair) : SunTime :=
  match p with
  | PSunrise => SUNRISE_SUNSET
  | PSunriseEnd => SUNRISE_END_SUNSET_START
  | PDawn => DAWN_DUSK
  | PNautical => NAUTICAL_DAWN_NAUTICAL_DUSK
  | PNight => NIGHT_END_NIGHT
  | PGolden => GOLDEN_HOUR_END_GOLDEN_HOUR
  end.

(** The field holding the morning time of a pair, and the evening one. *)
Definition rise_field (p : Pair) (t : SunTimes) : Timestamp :=
  match p with
  | PSunrise => sunrise t
  | PSunriseEnd => sunrise_end t
  | PDawn => dawn t
  | PNautical => nauticalDawn t
  | PNight => nightEnd t
  | PGolden => goldenHourEnd t
  end.

Definition set_field (p : Pair) (t : SunTimes) : Timestamp :=
  match p with
  | PSunrise => sunset t
  | PSunriseEnd => sunsetStart t
  | PDawn => dusk t
  | PNautical => nauticalDusk t
  | PNight => night t
  | PGolden => goldenHour t
  end.

(** The fourteen fields of a [SunTimes]. *)
Definition SunTimes_fields (t : SunTimes) : list Timestamp :=
  [solarNoon t; nadir t; sunrise t; sunset t; sunrise_end t; sunsetStart t; dawn t; dusk t;
   nauticalDawn t; nauticalDusk t; nightEnd t; night t; goldenHourEnd t; goldenHour t].

(** The [acos] argument of the hour angle [getTimes] computes for a pair. *)
Definition getTimes_hourAngle_arg (M : MathLib) (p : Pair) (timestamp lat lon h : float) : float :=
  hourAngle_arg M (calc_h0 (threshold p) (observerAngle h)) (lat * TO_RAD)
    (getTimes_dec M timestamp lon).

(** The Julian moment of the evening time of a pair, and of the morning one. *)
Definition getTimes_j_set (M : MathLib) (p : Pair) (timestamp lat lon h : float) : float :=
  calc_j_set M (threshold p) (observerAngle h) (getTimes_lw lon) (lat * TO_RAD)
    (getTimes_dec M timestamp lon) (getTimes_n timestamp lon)
    (getTimes_m timestamp lon) (getTimes_l M timestamp lon).

Definition getTimes_j_rise (M : MathLib) (p : Pair) (timestamp lat lon h : float) : float :=
  calc_j_rise M (threshold p) (getTimes_j_noon M timestamp lon) (observerAngle h)
    (getTimes_lw lon) (lat * TO_RAD)
    (getTimes_dec M timestamp lon) (getTimes_n timestamp lon)
    (getTimes_m timestamp lon) (getTimes_l M timestamp lon).

(** ** What is assumed of [Math] *)

(** [acos] has no value at [x]: [x] is NaN or outside [-1, 1]. *)
Definition acos_undefined (x : float) : bool :=
  (x <? -1.0) || (1.0 <? x) || is_nan x.

(** The special cases ECMAScript fixes for NaN, infinities and arguments out
    of the domain, and the ranges of [cos] and [atan2]. *)
Record MathLaws (M : MathLib) : Prop := {
  sin_nan : m_sin M nan = nan;
  cos_nan : m_cos M nan = nan;
  asin_nan : m_asin M nan = nan;
  acos_domain : forall x, acos_undefined x = true -> m_acos M x = nan;
  atan2_nan_l : forall x, m_atan2 M nan x = nan;
  atan2_nan_r : forall y, m_atan2 M y nan = nan;
  cos_inf : forall x, is_infinity x = true -> m_cos M x = nan;
  cos_finite : forall x, is_finite x = true -> is_nan (m_cos M x) = false;
  cos_range : forall x, is_nan (m_cos M x) = false ->
    (-1.0 <=? m_cos M x) = true /\ (m_cos M x <=? 1.0) = true;
  atan2_range : forall y x, is_nan (m_atan2 M y x) = false ->
    (- PI <=? m_atan2 M y x) = true /\ (m_atan2 M y x <=? PI) = true
}.

(** ** A coarse implementation of [Math]

    Truncated power series after argument reduction, with the special cases
    of ECMAScript for NaN and for arguments out of the domain.  It is
    accurate to about nine digits on the arguments the module meets; it
    shows that [MathLaws] can be met and lets the functions be evaluated. *)

Module Coarse.

Definition TWO_PI : float := 2.0 * PI.
Definition HALF_PI : float := 0x1.921fb54442d18p+0.

(** [x] minus the nearest multiple of 2π. *)
Definition reduce (x : float) : float := x - TWO_PI * F64.round (x / TWO_PI).

(** [1 - z/d1 (1 - z/d2 (1 - ...))] *)
Definition series (ds : list float) (z : float) : float :=
  fold_right (fun d acc => 1.0 - z / d * acc) 1.0 ds.

Definition sin_poly (r : float) : float :=
  r * series [6.0; 20.0; 42.0; 72.0; 110.0; 156.0; 210.0; 272.0; 342.0; 420.0; 506.0] (r * r).

Definition cos_poly (r : float) : float :=
  series [2.0; 12.0; 30.0; 56.0; 90.0; 132.0; 182.0; 240.0; 306.0; 380.0; 462.0; 552.0] (r * r).

(** Into [-1, 1]; never NaN. *)
Definition clamp1 (z : float) : float :=
  if z <? -1.0 then -1.0 else if z <=? 1.0 then z else 1.0.

Definition sin (x : float) : float :=
  if is_finite x then (if is_zero x then x else clamp1 (sin_poly (reduce x))) else nan.

Definition cos (x : float) : float :=
  if is_finite x then clamp1 (cos_poly (reduce x)) else nan.

Definition tan (x : float) : float := sin x / cos x.

(** [z - z^3/3 + z^5/5 - ...] for small [z]. *)
Definition atan_poly (z : float) : float :=
  z * fold_right (fun d acc => 1.0 / d - z * z * acc) 0.0
        [1.0; 3.0; 5.0; 7.0; 9.0; 11.0; 13.0; 15.0; 17.0; 19.0; 21.0; 23.0; 25.0; 27.0; 29.0].

Definition atan_unit (x : float) : float :=
  2.0 * atan_poly (x / (1.0 + sqrt (1.0 + x * x))).

Definition atan_pos (t : float) : float :=
  if t <=? 1.0 then atan_unit t else HALF_PI - atan_unit (1.0 / t).

Definition atan_any (t : float) : float :=
  if t <? 0.0 then - atan_pos (- t) else atan_pos t.

(** Into [-PI, PI]; NaN stays NaN. *)
Definition clampPI (z : float) : float :=
  if z <? - PI then - PI else if PI <? z then PI else z.

Definition atan2 (y x : float) : float :=
  if is_nan y || is_nan x then nan
  else clampPI
    (if 0.0 <? x then atan_any (y / x)
     else if x <? 0.0 then
       (if y <? 0.0 then atan_any (y / x) - PI else atan_any (y / x) + PI)
     else if 0.0 <? y then HALF_PI
     else if y <? 0.0 then - HALF_PI
     else if get_sign x then (if get_sign y then - PI else PI)
     else y).

Definition asin (x : float) : float :=
  if acos_undefined x then nan else atan2 x (sqrt (1.0 - x * x)).

Definition acos (x : float) : float :=
  if acos_undefined x then nan else atan2 (sqrt (1.0 - x * x)) x.

Definition math : MathLib :=
  {| m_sin := sin; m_cos := cos; m_tan := tan;
     m_atan2 := atan2; m_asin := asin; m_acos := acos |}.

End Coarse.

(** ** The real value of a float, and faithful rounding *)

(** [2^e] *)
Definition bpow (e : Z) : R := powerRZ 2 e.

(** [m * 2^e] *)
Definition F2R (m e : Z) : R := (IZR m * bpow e)%R.

Arguments bpow e : simpl never.
Arguments F2R m e : simpl never.

(** The real number a finite float denotes (0 for the others). *)
Definition SF2R (f : spec_float) : R :=
  match f with
  | S754_finite s m e => F2R (cond_Zopp s (Zpos m)) e
  | _ => 0%R
  end.

Definition B2R (x : float) : R := SF2R (Prim2SF x).

Definition SFfinite (f : spec_float) : bool :=
  match f with S754_zero _ | S754_finite _ _ _ => true | _ => false end.

(** No bit was shifted out. *)
Definition rec_exact (mrs : shr_record) : bool := negb (shr_r mrs || shr_s mrs).

Definition loc_exact (l : location) : bool :=
  match l with loc_Exact => true | _ => false end.

Definition cmp_R (c : option comparison) (x y : R) : Prop :=
  match c with
  | Some Lt => (x < y)%R
  | Some Eq => x = y
  | Some Gt => (y < x)%R
  | None => False
  end.

(** [x] is the value of a finite binary64 number. *)
Definition representable (x : R) : Prop :=
  exists B, valid_binary B = true /\ SFfinite B = true /\ SF2R B = x.

(** [r <= x] and [x <= r] for a float [r] that may be infinite. *)
Definition SFle_R (r : spec_float) (x : R) : Prop :=
  match r with
  | S754_nan => False
  | S754_infinity s => s = true
  | _ => (SF2R r <= x)%R
  end.

Definition SFge_R (r : spec_float) (x : R) : Prop :=
  match r with
  | S754_nan => False
  | S754_infinity s => s = false
  | _ => (x <= SF2R r)%R
  end.

(** [r] is a rounding of the real [v]: no representable number lies
    strictly between [v] and [r]. *)
Definition faithful (v : R) (r : spec_float) : Prop :=
  forall x, representable x -> ((v <= x)%R -> SFle_R r x) /\ ((x <= v)%R -> SFge_R r x).

(** The position of a real [a] of [[lo, hi)] that a location records: at
    [lo], below, at or above the middle. *)
(** Where a real [a] lies in the interval from [lo] to [hi], as a
    [location] tells it: on [lo], or before, on or after the middle. *)
Definition loc_at (l : location) (lo hi a : R) : Prop :=
  match l with
  | loc_Exact => a = lo
  | loc_Inexact Lt => (lo < a < (lo + hi) / 2)%R
  | loc_Inexact Eq => a = ((lo + hi) / 2)%R
  | loc_Inexact Gt => ((lo + hi) / 2 < a < hi)%R
  end.

(** [r] is a rounding of the real [v] to nearest: when finite, it is within
    half a unit in the last place of [v]. *)
(** [r] is within half a unit in the last place of the real [v], the unit
    being that of the numbers of magnitude below [2^k]. *)
Definition nearest (v : R) (r : spec_float) : Prop :=
  forall k, (-1074 <= k - 53)%Z -> (Rabs v < bpow k)%R -> SFfinite r = true ->
            (Rabs (SF2R r - v) <= bpow (k - 54))%R.

(** [x] stands for the exact value [v] on the grid of step [2^g]: either it
    is [v], a multiple of the step, or it is a multiple of the double step
    within one step of [v]. *)
Definition grid_near (g : Z) (x v : R) : Prop :=
  (x = v /\ exists n, v = F2R n g) \/
  ((Rabs (x - v) <= bpow g)%R /\ exists n, x = F2R n (g + 1)).

(** * Properties *)

(** ** Powers of two *)


Lemma bpow_pos e : (0 < bpow e)%R.
Proof. unfold bpow. apply powerRZ_lt. lra. Qed.

Lemma bpow_add a b : bpow (a + b) = (bpow a * bpow b)%R.
Proof. unfold bpow. apply powerRZ_add. lra. Qed.

Lemma bpow_IZR n : (0 <= n)%Z -> bpow n = IZR (2 ^ n).
Proof.
  intros H. unfold bpow. rewrite <- (Z2Nat.id n H).
  rewrite <- pow_powerRZ, pow_IZR. reflexivity.
Qed.

Lemma bpow_le a b : (a <= b)%Z -> (bpow a <= bpow b)%R.
Proof.
  intros H. replace b with (a + (b - a))%Z by lia.
  rewrite bpow_add, (bpow_IZR (b - a)) by lia.
  assert (0 < 2 ^ (b - a))%Z by (apply Z.pow_pos_nonneg; lia).
  assert (1 <= IZR (2 ^ (b - a)))%R by (apply IZR_le; lia).
  pose proof (bpow_pos a). nra.
Qed.

Lemma bpow_lt a b : (a < b)%Z -> (bpow a < bpow b)%R.
Proof.
  intros H. replace b with (a + (b - a))%Z by lia.
  rewrite bpow_add, (bpow_IZR (b - a)) by lia.
  assert (2 ^ 1 <= 2 ^ (b - a))%Z by (apply Z.pow_le_mono_r; lia).
  assert (2 <= IZR (2 ^ (b - a)))%R by (apply IZR_le; lia).
  pose proof (bpow_pos a). nra.
Qed.

Lemma F2R_shift m e k : (0 <= k)%Z -> F2R (m * 2 ^ k) e = F2R m (e + k).
Proof.
  intros H. unfold F2R. rewrite mult_IZR, bpow_add, (bpow_IZR k H). ring.
Qed.

Lemma F2R_le m1 m2 e : (m1 <= m2)%Z -> (F2R m1 e <= F2R m2 e)%R.
Proof.
  intros H. unfold F2R. apply IZR_le in H. pose proof (bpow_pos e). nra.
Qed.

Lemma F2R_lt m1 m2 e : (m1 < m2)%Z -> (F2R m1 e < F2R m2 e)%R.
Proof.
  intros H. unfold F2R. apply IZR_lt in H. pose proof (bpow_pos e). nra.
Qed.

Lemma F2R_lt_inv m1 m2 e : (F2R m1 e < F2R m2 e)%R -> (m1 < m2)%Z.
Proof.
  intros H. destruct (Z_lt_le_dec m1 m2) as [L|L]; [exact L|].
  apply (F2R_le _ _ e) in L. lra.
Qed.

Lemma F2R_le_inv m1 m2 e : (F2R m1 e <= F2R m2 e)%R -> (m1 <= m2)%Z.
Proof.
  intros H. destruct (Z_le_gt_dec m1 m2) as [L|L]; [exact L|].
  assert (m2 < m1)%Z as L' by lia. apply (F2R_lt _ _ e) in L'. lra.
Qed.

Lemma F2R_opp m e : F2R (- m) e = (- F2R m e)%R.
Proof. unfold F2R. rewrite opp_IZR. ring. Qed.

Lemma F2R_neg m e : F2R (Zneg m) e = (- F2R (Zpos m) e)%R.
Proof. change (Zneg m) with (- Zpos m)%Z. apply F2R_opp. Qed.

Lemma F2R_0 e : F2R 0 e = 0%R.
Proof. unfold F2R. ring. Qed.

Lemma F2R_succ m e : F2R (m + 1) e = (F2R m e + bpow e)%R.
Proof. unfold F2R. rewrite plus_IZR. ring. Qed.

Lemma F2R_double m e : F2R m (e + 1) = (2 * F2R m e)%R.
Proof.
  unfold F2R. rewrite bpow_add. replace (bpow 1) with 2%R by (symmetry; apply (bpow_IZR 1); lia).
  ring.
Qed.

(** *** Binary digits *)
Lemma digits2_pos_bounds m :
  (2 ^ (Zpos (digits2_pos m) - 1) <= Zpos m < 2 ^ Zpos (digits2_pos m))%Z.
Proof.
  induction m as [m IH|m IH|]; simpl digits2_pos.
  - rewrite Pos2Z.inj_succ.
    replace (Z.succ (Z.pos (digits2_pos m)) - 1)%Z with (Z.succ (Z.pos (digits2_pos m) - 1))%Z by lia.
    rewrite !Z.pow_succ_r by lia. lia.
  - rewrite Pos2Z.inj_succ.
    replace (Z.succ (Z.pos (digits2_pos m)) - 1)%Z with (Z.succ (Z.pos (digits2_pos m) - 1))%Z by lia.
    rewrite !Z.pow_succ_r by lia. lia.
  - simpl. lia.
Qed.

Lemma Zdigits2_bounds m : (0 < m)%Z ->
  (2 ^ (Zdigits2 m - 1) <= m < 2 ^ Zdigits2 m)%Z.
Proof. destruct m; try lia. intros _. apply digits2_pos_bounds. Qed.

Lemma Zdigits2_nonneg m : (0 <= Zdigits2 m)%Z.
Proof. destruct m; simpl; lia. Qed.

Lemma Zdigits2_le m k : (0 <= m)%Z -> (0 <= k)%Z -> (m < 2 ^ k)%Z -> (Zdigits2 m <= k)%Z.
Proof.
  intros Hm Hk H. destruct (Z.eq_dec m 0) as [->|N]; [simpl; lia|].
  pose proof (Zdigits2_bounds m ltac:(lia)) as [L _].
  destruct (Z_le_gt_dec (Zdigits2 m) k) as [|G]; [assumption|].
  assert (2 ^ k <= 2 ^ (Zdigits2 m - 1))%Z by (apply Z.pow_le_mono_r; lia). lia.
Qed.

Lemma Zdigits2_ge m k : (0 <= k)%Z -> (2 ^ k <= m)%Z -> (k + 1 <= Zdigits2 m)%Z.
Proof.
  intros Hk H. assert (0 < 2 ^ k)%Z by (apply Z.pow_pos_nonneg; lia).
  pose proof (Zdigits2_bounds m ltac:(lia)) as [_ U].
  destruct (Z_le_gt_dec (k + 1) (Zdigits2 m)) as [|G]; [assumption|].
  pose proof (Zdigits2_nonneg m).
  assert (2 ^ Zdigits2 m <= 2 ^ k)%Z by (apply Z.pow_le_mono_r; lia). lia.
Qed.

(** *** Shifting a mantissa right *)
Lemma iter_pos_nat {A} (f : A -> A) p x :
  SpecFloat.iter_pos f p x = Nat.iter (Pos.to_nat p) f x.
Proof.
  revert x. induction p as [p IH|p IH|]; intros x; simpl SpecFloat.iter_pos.
  - rewrite !IH. rewrite Pos2Nat.inj_xI. 
    replace (S (2 * Pos.to_nat p)) with (Pos.to_nat p + (Pos.to_nat p + 1))%nat by lia.
    rewrite !Nat.iter_add. simpl. reflexivity.
  - rewrite !IH. rewrite Pos2Nat.inj_xO.
    replace (2 * Pos.to_nat p)%nat with (Pos.to_nat p + Pos.to_nat p)%nat by lia.
    rewrite Nat.iter_add. reflexivity.
  - reflexivity.
Qed.

Lemma loc_exact_rec mrs : loc_of_shr_record mrs = loc_Exact <-> rec_exact mrs = true.
Proof. destruct mrs as [m [|] [|]]; unfold rec_exact; simpl; split; congruence. Qed.

Lemma shr_1_spec mrs : (0 <= shr_m mrs)%Z ->
  shr_m (shr_1 mrs) = (shr_m mrs / 2)%Z /\
  rec_exact (shr_1 mrs) = rec_exact mrs && Z.even (shr_m mrs).
Proof.
  destruct mrs as [m r s]. simpl shr_m. intros Hm. unfold rec_exact.
  destruct m as [|p|p]; [| |lia].
  - simpl. destruct r, s; auto.
  - destruct p as [p|p|]; simpl shr_1; simpl shr_m; simpl shr_r; simpl shr_s.
    + split. * rewrite Pos2Z.inj_xI. apply (Z.div_unique _ _ _ 1); lia.
      * simpl. destruct r, s; reflexivity.
    + split. * rewrite Pos2Z.inj_xO. apply (Z.div_unique _ _ _ 0); lia.
      * simpl. destruct r, s; reflexivity.
    + split; [reflexivity|]. simpl. destruct r, s; reflexivity.
Qed.

Lemma iter_shr_1_spec n mrs : (0 <= shr_m mrs)%Z ->
  shr_m (Nat.iter n shr_1 mrs) = (shr_m mrs / 2 ^ Z.of_nat n)%Z /\
  rec_exact (Nat.iter n shr_1 mrs) = rec_exact mrs && (shr_m mrs mod 2 ^ Z.of_nat n =? 0)%Z.
Proof.
  intros Hm. induction n as [|n [IH1 IH2]].
  - simpl. rewrite Z.div_1_r, Z.mod_1_r. rewrite andb_true_r. auto.
  - rewrite Nat.iter_succ.
    assert (0 < 2 ^ Z.of_nat n)%Z as Hp by (apply Z.pow_pos_nonneg; lia).
    assert (0 <= shr_m (Nat.iter n shr_1 mrs))%Z as Hn
      by (rewrite IH1; apply Z.div_pos; lia).
    destruct (shr_1_spec _ Hn) as [S1 S2].
    rewrite S1, S2, IH1, IH2. rewrite Nat2Z.inj_succ, Z.pow_succ_r by lia.
    split.
    + rewrite Z.div_div by lia. f_equal. lia.
    + rewrite <- andb_assoc. f_equal.
      set (m := shr_m mrs) in *. set (P := (2 ^ Z.of_nat n)%Z) in *.
      replace (2 * P)%Z with (P * 2)%Z by ring.
      rewrite Z.rem_mul_r by lia.
      pose proof (Z.mod_pos_bound m P Hp) as B.
      pose proof (Zmod_even (m / P)) as E.
      destruct (Z.even (m / P)); rewrite E.
      * rewrite andb_true_r. f_equal. lia.
      * rewrite andb_false_r. symmetry. apply Z.eqb_neq. nia.
Qed.

Lemma fexp_eq k : fexp prec emax k = Z.max (k - 53) (-1074).
Proof. reflexivity. Qed.

Lemma rec_exact_of_loc m l : rec_exact (shr_record_of_loc m l) = loc_exact l.
Proof. destruct l as [|[| |]]; reflexivity. Qed.

Lemma shr_m_of_loc m l : shr_m (shr_record_of_loc m l) = m.
Proof. destruct l as [|[| |]]; reflexivity. Qed.

Lemma shr_spec m l e n : (0 <= m)%Z ->
  let N := Z.max n 0 in
  snd (shr (shr_record_of_loc m l) e n) = (e + N)%Z /\
  shr_m (fst (shr (shr_record_of_loc m l) e n)) = (m / 2 ^ N)%Z /\
  rec_exact (fst (shr (shr_record_of_loc m l) e n)) = loc_exact l && (m mod 2 ^ N =? 0)%Z.
Proof.
  intros Hm N. unfold shr. destruct n as [|p|p]; simpl fst; simpl snd.
  - subst N. simpl Z.max. rewrite Z.add_0_r, Z.div_1_r, Z.mod_1_r, shr_m_of_loc, rec_exact_of_loc.
    rewrite andb_true_r. auto.
  - subst N. rewrite Z.max_l by lia. rewrite iter_pos_nat.
    destruct (iter_shr_1_spec (Pos.to_nat p) (shr_record_of_loc m l)) as [A B].
    { rewrite shr_m_of_loc. exact Hm. }
    rewrite A, B, shr_m_of_loc, rec_exact_of_loc, positive_nat_Z. auto.
  - subst N. rewrite Z.max_r by lia. rewrite Z.add_0_r, Z.div_1_r, Z.mod_1_r, shr_m_of_loc, rec_exact_of_loc.
    rewrite andb_true_r. auto.
Qed.

Lemma round_nearest_even_cases m mrs :
  round_nearest_even m (loc_of_shr_record mrs) = m \/
  (round_nearest_even m (loc_of_shr_record mrs) = (m + 1)%Z /\ rec_exact mrs = false).
Proof.
  destruct mrs as [m' [|] [|]]; unfold rec_exact; simpl; auto.
  destruct (Z.even m); auto.
Qed.

Lemma bpow_1024 m e : (2 ^ 52 <= m)%Z -> (971 < e)%Z -> (bpow 1024 <= F2R m e)%R.
Proof.
  intros Hm He. unfold F2R.
  assert (bpow 972 <= bpow e)%R by (apply bpow_le; lia).
  replace 1024%Z with (52 + 972)%Z by lia. rewrite bpow_add, (bpow_IZR 52) by lia.
  apply IZR_le in Hm. pose proof (bpow_pos 972).
  assert (0 < IZR (2 ^ 52))%R by (apply IZR_lt; lia). nra.
Qed.

Lemma round_aux_struct s mx ex lx :
  (0 <= mx)%Z -> (ex <= fexp prec emax (Zdigits2 mx + ex))%Z ->
  let e1 := fexp prec emax (Zdigits2 mx + ex) in
  let m1 := (mx / 2 ^ (e1 - ex))%Z in
  let exact := loc_exact lx && (mx mod 2 ^ (e1 - ex) =? 0)%Z in
  let r := binary_round_aux prec emax s mx ex lx in
  exists m2,
    (m2 = m1 \/ (m2 = (m1 + 1)%Z /\ exact = false)) /\
    (0 <= m1 < 2 ^ 53)%Z /\ (2 ^ 52 <= m1 \/ e1 = -1074)%Z /\
    ((m2 = 0%Z /\ r = S754_zero s) \/
     (exists m3 e3, r = S754_finite s m3 e3 /\ F2R (Zpos m3) e3 = F2R m2 e1 /\ (0 < m2)%Z /\
                    valid_binary r = true) \/
     (r = S754_infinity s /\ (bpow 1024 <= F2R m2 e1)%R)).
Proof.
  intros Hmx Hlow e1 m1 exact r.
  assert (0 < 2 ^ (e1 - ex))%Z as Hpow by (apply Z.pow_pos_nonneg; lia).
  assert (0 <= m1)%Z as Hm1 by (apply Z.div_pos; lia).
  assert (-1074 <= e1)%Z as He1 by (unfold e1; rewrite fexp_eq; lia).
  assert (m1 < 2 ^ 53 /\ (2 ^ 52 <= m1 \/ e1 = -1074))%Z as [Hm1u Hm1l].
  { destruct (Z.eq_dec mx 0) as [->|Nz].
    - unfold m1. rewrite Z.div_0_l by lia. split; [lia|]. right.
      unfold e1 in *. rewrite fexp_eq in *. simpl Zdigits2 in *. lia.
    - pose proof (Zdigits2_bounds mx ltac:(lia)) as [DL DU].
      pose proof (Zdigits2_nonneg mx) as Dn.
      set (d := Zdigits2 mx) in *.
      assert (e1 = Z.max (d + ex - 53) (-1074)) as E1 by (unfold e1; rewrite fexp_eq; reflexivity).
      split.
      + apply Z.div_lt_upper_bound; [lia|].
        rewrite <- Z.pow_add_r by lia.
        assert (2 ^ d <= 2 ^ (e1 - ex + 53))%Z by (apply Z.pow_le_mono_r; lia). lia.
      + destruct (Z_le_gt_dec (d + ex - 53) (-1074)) as [L|G]; [right; lia|left].
        assert (e1 - ex = d - 53)%Z as En by lia. unfold m1. rewrite En.
        apply Z.div_le_lower_bound; [apply Z.pow_pos_nonneg; lia|].
        rewrite <- Z.pow_add_r by lia. replace (d - 53 + 52)%Z with (d - 1)%Z by lia. exact DL. }
  destruct (shr_spec mx lx ex (e1 - ex) Hmx) as (S1 & S2 & S3).
  rewrite Z.max_l in S1, S2, S3 by lia.
  unfold r, binary_round_aux, shr_fexp. fold e1.
  destruct (shr (shr_record_of_loc mx lx) ex (e1 - ex)) as [mrs' e'] eqn:Esh.
  simpl fst in *; simpl snd in *. fold m1 in S2. fold exact in S3.
  replace (ex + (e1 - ex))%Z with e1 in S1 by lia. subst e'. rewrite S2.
  set (m2 := round_nearest_even m1 (loc_of_shr_record mrs')).
  exists m2.
  assert (m2 = m1 \/ (m2 = (m1 + 1)%Z /\ exact = false)) as Hm2.
  { destruct (round_nearest_even_cases m1 mrs') as [A|[A B]]; [left; exact A|right].
    split; [exact A|]. rewrite <- S3. exact B. }
  split; [exact Hm2|]. split; [lia|]. split; [exact Hm1l|].
  assert (0 <= m2 <= 2 ^ 53)%Z as Hm2b by lia.
  destruct (shr_spec m2 loc_Exact e1 (fexp prec emax (Zdigits2 m2 + e1) - e1) ltac:(lia)) as (T1 & T2 & _).
  destruct (shr (shr_record_of_loc m2 loc_Exact) e1 (fexp prec emax (Zdigits2 m2 + e1) - e1)) as [mrs'' e''] eqn:Esh2.
  simpl fst in *; simpl snd in *. rewrite T2. subst e''.
  destruct (Z_lt_le_dec m2 (2 ^ 53)) as [Lt|Ge].
  - assert (Zdigits2 m2 <= 53)%Z as D2 by (apply Zdigits2_le; lia).
    rewrite fexp_eq. rewrite (Z.max_r (_ - e1) 0) by lia.
    rewrite Z.pow_0_r, Z.div_1_r, Z.add_0_r.
    destruct m2 as [|p|p] eqn:Em2; [left; auto| |lia].
    right. destruct (Z.leb_spec e1 (emax - prec)) as [Le|Gt].
    + left. exists p, e1. split; [reflexivity|]. split; [reflexivity|]. split; [lia|].
      unfold valid_binary, bounded, canonical_mantissa.
      apply andb_true_iff. split; [|apply Z.leb_le; exact Le].
      apply Z.eqb_eq. change (Z.pos (digits2_pos p)) with (Zdigits2 (Z.pos p)).
      rewrite fexp_eq.
      destruct Hm1l as [N|S]; [|lia].
      assert (52 + 1 <= Zdigits2 (Z.pos p))%Z by (apply Zdigits2_ge; lia). lia.
    + right. split; [reflexivity|]. apply bpow_1024; [|unfold emax, prec in Gt; lia].
      destruct Hm1l as [?|?]; [lia|]. unfold emax, prec in Gt. lia.
  - assert (m2 = 2 ^ 53)%Z as E2 by lia.
    rewrite E2. rewrite fexp_eq. change (Zdigits2 (2 ^ 53)) with 54%Z.
    rewrite (Z.max_l (54 + e1 - 53) (-1074)) by lia.
    replace (54 + e1 - 53 - e1)%Z with 1%Z by lia. change (Z.max 1 0) with 1%Z.
    change (2 ^ 53 / 2 ^ 1)%Z with (Z.pos (2 ^ 52)).
    right. destruct (Z.leb_spec (e1 + 1) (emax - prec)) as [Le|Gt].
    + left. exists (2 ^ 52)%positive, (e1 + 1)%Z. split; [reflexivity|].
      split; [rewrite <- F2R_shift by lia; reflexivity|]. split; [lia|].
      unfold valid_binary, bounded, canonical_mantissa.
      apply andb_true_iff. split; [|apply Z.leb_le; exact Le].
      apply Z.eqb_eq. change (Z.pos (digits2_pos (2 ^ 52))) with 53%Z.
      rewrite fexp_eq. lia.
    + right. split; [reflexivity|]. 
      replace (F2R (2 ^ 53) e1) with (F2R (2 ^ 52) (e1 + 1)).
      * apply bpow_1024; [lia|unfold emax, prec in Gt; lia].
      * rewrite <- F2R_shift by lia. reflexivity.
Qed.

(** *** Canonical floats *)
Lemma valid_finite s m e : valid_binary (S754_finite s m e) = true ->
  (-1074 <= e <= 971)%Z /\ (Zpos m < 2 ^ 53)%Z /\ (2 ^ 52 <= Zpos m \/ e = -1074)%Z /\
  e = fexp prec emax (Zpos (digits2_pos m) + e).
Proof.
  unfold valid_binary, bounded, canonical_mantissa. intros H.
  apply andb_true_iff in H. destruct H as [C B].
  apply Z.eqb_eq in C. apply Z.leb_le in B. unfold emax, prec in B.
  pose proof (digits2_pos_bounds m) as [DL DU].
  rewrite fexp_eq in C. set (d := Z.pos (digits2_pos m)) in *.
  assert (0 < d)%Z by (unfold d; lia).
  split; [lia|]. rewrite fexp_eq. fold d. split; [|split; [|lia]].
  - assert (2 ^ d <= 2 ^ 53)%Z by (apply Z.pow_le_mono_r; lia). lia.
  - destruct (Z_le_gt_dec (d + e - 53) (-1074)) as [L|G]; [right; lia|left].
    assert (d = 53)%Z as -> by lia. exact DL.
Qed.

Lemma F2R_pos m e : (0 < m)%Z -> (0 < F2R m e)%R.
Proof. intros H. unfold F2R. apply IZR_lt in H. pose proof (bpow_pos e). nra. Qed.

Lemma F2R_nonneg m e : (0 <= m)%Z -> (0 <= F2R m e)%R.
Proof. intros H. unfold F2R. apply IZR_le in H. pose proof (bpow_pos e). nra. Qed.

Lemma F2R_change_exp m e e' : (e' <= e)%Z -> F2R m e = F2R (m * 2 ^ (e - e')) e'.
Proof. intros H. rewrite F2R_shift by lia. f_equal. lia. Qed.

(* no valid float lies strictly between two neighbours of the rounding grid *)
Lemma no_float_between s mB eB m1 e1 :
  valid_binary (S754_finite s mB eB) = true ->
  (0 <= m1)%Z -> (-1074 <= e1)%Z -> (2 ^ 52 <= m1 \/ e1 = -1074)%Z ->
  (F2R m1 e1 < F2R (Zpos mB) eB)%R -> (F2R (m1 + 1) e1 <= F2R (Zpos mB) eB)%R.
Proof.
  intros V Hm He Hn Hlt. destruct (valid_finite _ _ _ V) as (Be & Bm & Bn & _).
  destruct (Z_le_gt_dec e1 eB) as [L|G].
  - rewrite (F2R_change_exp (Zpos mB) eB e1 L) in *.
    apply F2R_lt_inv in Hlt. apply F2R_le. lia.
  - exfalso. assert (2 ^ 52 <= m1)%Z as Hm1 by lia.
    rewrite (F2R_change_exp m1 e1 eB) in Hlt by lia.
    apply F2R_lt_inv in Hlt.
    assert (2 ^ 1 <= 2 ^ (e1 - eB))%Z by (apply Z.pow_le_mono_r; lia).
    nia.
Qed.

Lemma valid_lt_bpow s m e : valid_binary (S754_finite s m e) = true ->
  (F2R (Zpos m) e < bpow 1024)%R.
Proof.
  intros V. destruct (valid_finite _ _ _ V) as (Be & Bm & _).
  replace 1024%Z with (53 + 971)%Z by lia. rewrite bpow_add, (bpow_IZR 53) by lia.
  unfold F2R. assert (bpow e <= bpow 971)%R by (apply bpow_le; lia).
  apply IZR_lt in Bm. pose proof (bpow_pos e). 
  assert (0 < IZR (Z.pos m))%R by (apply IZR_lt; lia). nra.
Qed.

Lemma pos_lt_by_exp s1 m1 e1 s2 m2 e2 :
  valid_binary (S754_finite s1 m1 e1) = true ->
  valid_binary (S754_finite s2 m2 e2) = true ->
  (e1 < e2)%Z -> (F2R (Zpos m1) e1 < F2R (Zpos m2) e2)%R.
Proof.
  intros V1 V2 H. destruct (valid_finite _ _ _ V1) as (Be1 & Bm1 & Bn1 & _).
  destruct (valid_finite _ _ _ V2) as (Be2 & Bm2 & Bn2 & _).
  rewrite (F2R_change_exp (Zpos m2) e2 e1) by lia. apply F2R_lt.
  assert (2 ^ 1 <= 2 ^ (e2 - e1))%Z by (apply Z.pow_le_mono_r; lia). nia.
Qed.

Lemma SFcompare_R f1 f2 :
  valid_binary f1 = true -> valid_binary f2 = true ->
  SFfinite f1 = true -> SFfinite f2 = true ->
  cmp_R (SFcompare f1 f2) (SF2R f1) (SF2R f2).
Proof.
  intros V1 V2 F1 F2.
  destruct f1 as [s1| | |s1 m1 e1], f2 as [s2| | |s2 m2 e2]; try discriminate; simpl.
  - reflexivity.
  - pose proof (F2R_pos (Zpos m2) e2 ltac:(lia)). destruct s2; simpl; rewrite ?F2R_neg; lra.
  - pose proof (F2R_pos (Zpos m1) e1 ltac:(lia)). destruct s1; simpl; rewrite ?F2R_neg; lra.
  - pose proof (F2R_pos (Zpos m1) e1 ltac:(lia)).
    pose proof (F2R_pos (Zpos m2) e2 ltac:(lia)).
    assert (e1 = e2 -> cmp_R (Some (Pos.compare_cont Eq m1 m2)) (F2R (Zpos m1) e1) (F2R (Zpos m2) e2)) as Hm.
    { intros <-. fold (Pos.compare m1 m2).
      destruct (Pos.compare_spec m1 m2) as [->|L|L]; simpl; auto; apply F2R_lt; lia. }
    destruct s1, s2; simpl; rewrite ?F2R_neg; try lra.
    + destruct (Z.compare_spec e1 e2) as [E|L|L]; simpl.
      * specialize (Hm E). destruct (Pos.compare_cont Eq m1 m2); simpl in *; lra.
      * pose proof (pos_lt_by_exp _ _ _ _ _ _ V1 V2 L). lra.
      * pose proof (pos_lt_by_exp _ _ _ _ _ _ V2 V1 L). lra.
    + destruct (Z.compare_spec e1 e2) as [E|L|L]; simpl.
      * specialize (Hm E). destruct (Pos.compare_cont Eq m1 m2); simpl in *; lra.
      * pose proof (pos_lt_by_exp _ _ _ _ _ _ V1 V2 L). lra.
      * pose proof (pos_lt_by_exp _ _ _ _ _ _ V2 V1 L). lra.
Qed.

Lemma SFleb_R f1 f2 :
  valid_binary f1 = true -> valid_binary f2 = true ->
  SFfinite f1 = true -> SFfinite f2 = true ->
  (SFleb f1 f2 = true <-> (SF2R f1 <= SF2R f2)%R).
Proof.
  intros V1 V2 F1 F2. pose proof (SFcompare_R f1 f2 V1 V2 F1 F2) as H.
  unfold SFleb. destruct (SFcompare f1 f2) as [[| |]|]; simpl in H; split; intros; try lra; try discriminate; auto; try contradiction.
Qed.

Lemma SFltb_R f1 f2 :
  valid_binary f1 = true -> valid_binary f2 = true ->
  SFfinite f1 = true -> SFfinite f2 = true ->
  (SFltb f1 f2 = true <-> (SF2R f1 < SF2R f2)%R).
Proof.
  intros V1 V2 F1 F2. pose proof (SFcompare_R f1 f2 V1 V2 F1 F2) as H.
  unfold SFltb. destruct (SFcompare f1 f2) as [[| |]|]; simpl in H; split; intros; try lra; try discriminate; auto; try contradiction.
Qed.

Lemma representable_opp x : representable x -> representable (- x).
Proof.
  intros (B & V & F & E). exists (SFopp B). destruct B as [s| | |s m e]; try discriminate; simpl in *.
  - repeat split; auto. lra.
  - repeat split; auto. subst x. destruct s; simpl; rewrite ?F2R_neg; lra.
Qed.

Lemma representable_0 : representable 0.
Proof. exists (S754_zero false). repeat split. Qed.

Lemma representable_pos x : representable x -> (0 < x)%R ->
  exists m e, valid_binary (S754_finite false m e) = true /\ x = F2R (Zpos m) e.
Proof.
  intros (B & V & F & E) H. destruct B as [s| | |s m e]; try discriminate; simpl in *.
  - lra.
  - pose proof (F2R_pos (Zpos m) e ltac:(lia)).
    destruct s; simpl in E; rewrite ?F2R_neg in E; [lra|]. exists m, e. auto.
Qed.

Lemma representable_lt x : representable x -> (x < bpow 1024)%R.
Proof.
  intros (B & V & F & E). pose proof (bpow_pos 1024).
  destruct B as [s| | |s m e]; try discriminate; simpl in *; [lra|].
  pose proof (valid_lt_bpow s m e V). pose proof (F2R_pos (Zpos m) e ltac:(lia)).
  destruct s; simpl in E; rewrite ?F2R_neg in E; lra.
Qed.

Lemma mag_bounds m1 e1 m2 a x :
  (0 <= m1)%Z -> (-1074 <= e1)%Z -> (2 ^ 52 <= m1 \/ e1 = -1074)%Z ->
  (F2R m1 e1 <= a < F2R (m1 + 1) e1)%R ->
  (m2 = m1 \/ (m2 = (m1 + 1)%Z /\ (F2R m1 e1 < a)%R)) ->
  representable x ->
  ((a <= x)%R -> (F2R m2 e1 <= x)%R) /\ ((x <= a)%R -> (x <= F2R m2 e1)%R).
Proof.
  intros Hm He Hn Ha H2 Rx.
  pose proof (F2R_nonneg m1 e1 Hm) as P1.
  assert (forall y, representable y -> (F2R m1 e1 < y)%R -> (F2R (m1 + 1) e1 <= y)%R) as NB.
  { intros y Ry Hy. destruct (representable_pos y Ry ltac:(lra)) as (m & e & V & ->).
    eapply no_float_between; eauto. }
  assert (F2R m1 e1 <= F2R m2 e1)%R as Hle.
  { destruct H2 as [->|[-> _]]; [lra|apply F2R_le; lia]. }
  split; intros H.
  - destruct H2 as [->|[-> Hs]]; [lra|]. apply NB; [assumption|lra].
  - destruct (Rle_lt_dec x (F2R m1 e1)) as [L|G]; [lra|].
    specialize (NB x Rx G). lra.
Qed.

Lemma div_pow_bounds mx n : (0 <= mx)%Z -> (0 <= n)%Z ->
  (mx / 2 ^ n * 2 ^ n <= mx < (mx / 2 ^ n + 1) * 2 ^ n)%Z /\
  ((mx mod 2 ^ n =? 0)%Z = false -> mx / 2 ^ n * 2 ^ n < mx)%Z.
Proof.
  intros Hm Hn. assert (0 < 2 ^ n)%Z as Hp by (apply Z.pow_pos_nonneg; lia).
  pose proof (Z.div_mod mx (2 ^ n) ltac:(lia)) as E.
  pose proof (Z.mod_pos_bound mx (2 ^ n) Hp) as B.
  split; [nia|]. intros Hz. apply Z.eqb_neq in Hz. nia.
Qed.

Lemma round_aux_faithful (s : bool) mx ex lx (a : R) :
  (0 <= mx)%Z -> (ex <= fexp prec emax (Zdigits2 mx + ex))%Z ->
  (F2R mx ex <= a < F2R (mx + 1) ex)%R ->
  (loc_exact lx = false -> (F2R mx ex < a)%R) ->
  faithful (if s then - a else a)%R (binary_round_aux prec emax s mx ex lx).
Proof.
  intros Hmx Hlow Ha Hinex.
  destruct (round_aux_struct s mx ex lx Hmx Hlow) as (m2 & H2 & Hm1 & Hn & Hr).
  set (e1 := fexp prec emax (Zdigits2 mx + ex)) in *.
  set (m1 := (mx / 2 ^ (e1 - ex))%Z) in *.
  assert (-1074 <= e1)%Z as He1 by (unfold e1; rewrite fexp_eq; lia).
  destruct (div_pow_bounds mx (e1 - ex) Hmx ltac:(lia)) as [[DL DU] DS]. fold m1 in DL, DU, DS.
  assert (F2R m1 e1 <= a < F2R (m1 + 1) e1)%R as Ha1.
  { rewrite (F2R_change_exp m1 e1 ex), (F2R_change_exp (m1 + 1) e1 ex) by lia.
    pose proof (F2R_le _ _ ex DL). 
    assert (mx + 1 <= (m1 + 1) * 2 ^ (e1 - ex))%Z as DU' by lia.
    pose proof (F2R_le _ _ ex DU'). lra. }
  assert (m2 = m1 \/ (m2 = (m1 + 1)%Z /\ (F2R m1 e1 < a)%R)) as H2'.
  { destruct H2 as [?|[? Hex]]; [left; assumption|right; split; [assumption|]].
    apply andb_false_iff in Hex. destruct Hex as [Hex|Hex].
    - specialize (Hinex Hex). rewrite (F2R_change_exp m1 e1 ex) by lia.
      pose proof (F2R_le _ _ ex DL). lra.
    - specialize (DS Hex). rewrite (F2R_change_exp m1 e1 ex) by lia.
      pose proof (F2R_lt _ _ ex DS). lra. }
  assert (forall x, representable x ->
            ((a <= x)%R -> (F2R m2 e1 <= x)%R) /\ ((x <= a)%R -> (x <= F2R m2 e1)%R)) as MB.
  { intros x Rx. apply (mag_bounds m1 e1 m2 a x); auto; lia. }
  intros x Rx. pose proof (MB x Rx) as [U L].
  pose proof (MB (- x)%R (representable_opp x Rx)) as [U' L'].
  pose proof (representable_lt x Rx) as Xlt.
  pose proof (representable_lt _ (representable_opp x Rx)) as Xlt'.
  destruct Hr as [[Z0 ->]|[(m3 & e3 & -> & Hv & Hp & _)|[-> Hinf]]].
  - subst m2. rewrite F2R_0 in *. destruct s; simpl; split; intros; lra.
  - destruct s; simpl; rewrite ?F2R_neg, Hv; split; intros; lra.
  - destruct s; simpl; split; intros; auto; exfalso; lra.
Qed.

Lemma round_aux_exact s mx ex :
  (0 <= mx)%Z -> (ex <= fexp prec emax (Zdigits2 mx + ex))%Z ->
  (mx mod 2 ^ (fexp prec emax (Zdigits2 mx + ex) - ex) = 0)%Z ->
  (F2R mx ex < bpow 1024)%R ->
  SFfinite (binary_round_aux prec emax s mx ex loc_Exact) = true /\
  SF2R (binary_round_aux prec emax s mx ex loc_Exact) = F2R (cond_Zopp s mx) ex.
Proof.
  intros Hmx Hlow Hmod Hlt.
  destruct (round_aux_struct s mx ex loc_Exact Hmx Hlow) as (m2 & H2 & Hm1 & Hn & Hr).
  set (e1 := fexp prec emax (Zdigits2 mx + ex)) in *.
  set (m1 := (mx / 2 ^ (e1 - ex))%Z) in *.
  assert (m2 = m1) as ->.
  { destruct H2 as [?|[_ Hex]]; [assumption|]. rewrite Hmod in Hex. discriminate. }
  assert (0 < 2 ^ (e1 - ex))%Z as Hp by (apply Z.pow_pos_nonneg; lia).
  assert (mx = m1 * 2 ^ (e1 - ex))%Z as Emx.
  { pose proof (Z.div_mod mx (2 ^ (e1 - ex)) ltac:(lia)) as E. rewrite Hmod in E. fold m1 in E. lia. }
  assert (F2R m1 e1 = F2R mx ex) as Ev.
  { rewrite (F2R_change_exp m1 e1 ex) by lia. rewrite <- Emx. reflexivity. }
  assert (F2R (cond_Zopp s mx) ex = if s then (- F2R mx ex)%R else F2R mx ex) as Es.
  { destruct s; simpl; [apply F2R_opp|reflexivity]. }
  rewrite Es.
  destruct Hr as [[Z0 ->]|[(m3 & e3 & -> & Hv & Hp3 & _)|[-> Hinf]]].
  - rewrite Z0 in Ev. rewrite F2R_0 in Ev. rewrite <- Ev. simpl. split; [reflexivity|]. destruct s; lra.
  - simpl. split; [reflexivity|]. destruct s; simpl; rewrite ?F2R_neg, Hv, Ev; reflexivity.
  - exfalso. lra.
Qed.

Lemma faithful_exact v r :
  SFfinite r = true -> SF2R r = v -> faithful v r.
Proof.
  intros F E x _. destruct r; try discriminate; simpl in *; split; intros; lra.
Qed.

Lemma Zdigits2_shift m k : (0 < m)%Z -> (0 <= k)%Z -> Zdigits2 (m * 2 ^ k) = (Zdigits2 m + k)%Z.
Proof.
  intros Hm Hk. pose proof (Zdigits2_bounds m Hm) as [L U].
  assert (0 < 2 ^ k)%Z as Hp by (apply Z.pow_pos_nonneg; lia).
  assert (1 <= Zdigits2 m)%Z as D1 by (apply (Zdigits2_ge m 0); lia).
  apply Z.le_antisymm.
  - apply Zdigits2_le; [nia|lia|]. rewrite Z.pow_add_r by lia. nia.
  - replace (Zdigits2 m + k)%Z with ((Zdigits2 m - 1 + k) + 1)%Z by lia.
    apply Zdigits2_ge; [lia|]. rewrite Z.pow_add_r by lia. nia.
Qed.

Lemma shl_align_spec p e e' :
  snd (shl_align p e e') = Z.min e e' /\
  Zpos (fst (shl_align p e e')) = (Zpos p * 2 ^ (e - Z.min e e'))%Z.
Proof.
  unfold shl_align. destruct (e' - e)%Z as [|d|d] eqn:E; simpl fst; simpl snd.
  - rewrite Z.min_l by lia. rewrite Z.sub_diag. simpl. split; lia.
  - rewrite Z.min_l by lia. rewrite Z.sub_diag. simpl. split; lia.
  - rewrite Z.min_r by lia. split; [reflexivity|].
    change (PosDef.Pos.iter xO p d) with (shift_pos d p).
    rewrite shift_pos_correct. rewrite Zpower_pos_is_exp || idtac.
    replace (e - e')%Z with (Zpos d) by lia. rewrite <- Z.pow_pos_fold. lia.
Qed.

Lemma fexp_mono a b : (a <= b)%Z -> (fexp prec emax a <= fexp prec emax b)%Z.
Proof. rewrite !fexp_eq. lia. Qed.

Lemma binary_round_faithful s p e :
  faithful (F2R (cond_Zopp s (Zpos p)) e) (binary_round prec emax s p e).
Proof.
  unfold binary_round.
  destruct (shl_align_spec p e (fexp prec emax (Z.pos (digits2_pos p) + e))) as [S1 S2].
  destruct (shl_align p e (fexp prec emax (Z.pos (digits2_pos p) + e))) as [mz ez].
  simpl fst in *; simpl snd in *.
  set (E := fexp prec emax (Z.pos (digits2_pos p) + e)) in *.
  assert (F2R (Zpos mz) ez = F2R (Zpos p) e) as Ev.
  { rewrite S2, S1. symmetry. apply F2R_change_exp. lia. }
  assert (F2R (cond_Zopp s (Zpos p)) e = if s then (- F2R (Zpos mz) ez)%R else F2R (Zpos mz) ez) as ->.
  { rewrite Ev. destruct s; simpl; [apply F2R_neg|reflexivity]. }
  apply round_aux_faithful.
  - lia.
  - rewrite S2. rewrite Zdigits2_shift by lia. simpl Zdigits2.
    replace (Z.pos (digits2_pos p) + (e - Z.min e E) + ez)%Z with (Z.pos (digits2_pos p) + e)%Z by lia.
    fold E. lia.
  - split; [lra|]. apply F2R_lt. lia.
  - discriminate.
Qed.

Lemma binary_normalize_faithful M e :
  faithful (F2R M e) (binary_normalize prec emax M e false).
Proof.
  destruct M as [|p|p]; simpl binary_normalize.
  - apply faithful_exact; [reflexivity|]. simpl. rewrite F2R_0. reflexivity.
  - apply (binary_round_faithful false).
  - apply (binary_round_faithful true).
Qed.

Lemma SF2R_finite s m e : SF2R (S754_finite s m e) = F2R (cond_Zopp s (Zpos m)) e.
Proof. reflexivity. Qed.

Lemma F2R_cond_shift s m e ez : (ez <= e)%Z ->
  F2R (cond_Zopp s (Zpos m * 2 ^ (e - ez))) ez = F2R (cond_Zopp s (Zpos m)) e.
Proof.
  intros H. rewrite (F2R_change_exp (cond_Zopp s (Zpos m)) e ez H).
  destruct s; unfold cond_Zopp; [|reflexivity]. f_equal. ring.
Qed.

Lemma F2R_plus m1 m2 e : F2R (m1 + m2) e = (F2R m1 e + F2R m2 e)%R.
Proof. unfold F2R. rewrite plus_IZR. ring. Qed.

Lemma F2R_minus m1 m2 e : F2R (m1 - m2) e = (F2R m1 e - F2R m2 e)%R.
Proof. unfold F2R. rewrite minus_IZR. ring. Qed.

Lemma SFadd_faithful x y :
  SFfinite x = true -> SFfinite y = true ->
  faithful (SF2R x + SF2R y) (SFadd prec emax x y).
Proof.
  intros Fx Fy.
  destruct x as [sx| | |sx mx ex], y as [sy| | |sy my ey]; try discriminate.
  - apply faithful_exact; simpl; [destruct sx, sy; reflexivity|destruct sx, sy; simpl; lra].
  - apply faithful_exact; [reflexivity|]. simpl. lra.
  - apply faithful_exact; [reflexivity|]. simpl. lra.
  - unfold SFadd.
    destruct (shl_align_spec mx ex (Z.min ex ey)) as [_ Sx].
    destruct (shl_align_spec my ey (Z.min ex ey)) as [_ Sy].
    rewrite Sx, Sy. rewrite !SF2R_finite.
    rewrite (Z.min_r ex (Z.min ex ey)), (Z.min_r ey (Z.min ex ey)) by lia.
    rewrite <- (F2R_cond_shift sx mx ex (Z.min ex ey)), <- (F2R_cond_shift sy my ey (Z.min ex ey)) by lia.
    rewrite <- F2R_plus.
    replace (cond_Zopp sx (Z.pos mx * 2 ^ (ex - Z.min ex ey)) + cond_Zopp sy (Z.pos my * 2 ^ (ey - Z.min ex ey)))%Z
      with (cond_Zopp sx (Z.pos mx * 2 ^ (ex - Z.min ex ey)) + cond_Zopp sy (Z.pos my * 2 ^ (ey - Z.min ex ey)))%Z by reflexivity.
    apply binary_normalize_faithful.
Qed.

Lemma SFsub_faithful x y :
  SFfinite x = true -> SFfinite y = true ->
  faithful (SF2R x - SF2R y) (SFsub prec emax x y).
Proof.
  intros Fx Fy.
  destruct x as [sx| | |sx mx ex], y as [sy| | |sy my ey]; try discriminate.
  - apply faithful_exact; simpl; [destruct sx, sy; reflexivity|destruct sx, sy; simpl; lra].
  - apply faithful_exact; [reflexivity|]. simpl SFsub. rewrite !SF2R_finite. simpl SF2R.
    destruct sy; simpl cond_Zopp; rewrite ?F2R_neg; lra.
  - apply faithful_exact; [reflexivity|]. simpl. lra.
  - unfold SFsub.
    destruct (shl_align_spec mx ex (Z.min ex ey)) as [_ Sx].
    destruct (shl_align_spec my ey (Z.min ex ey)) as [_ Sy].
    rewrite Sx, Sy. rewrite !SF2R_finite.
    rewrite (Z.min_r ex (Z.min ex ey)), (Z.min_r ey (Z.min ex ey)) by lia.
    rewrite <- (F2R_cond_shift sx mx ex (Z.min ex ey)), <- (F2R_cond_shift sy my ey (Z.min ex ey)) by lia.
    rewrite <- F2R_minus.
    apply binary_normalize_faithful.
Qed.

Lemma F2R_mult m1 e1 m2 e2 : (F2R m1 e1 * F2R m2 e2)%R = F2R (m1 * m2) (e1 + e2).
Proof. unfold F2R. rewrite mult_IZR, bpow_add. ring. Qed.

Lemma cond_Zopp_mul s1 s2 a b :
  (cond_Zopp s1 a * cond_Zopp s2 b)%Z = cond_Zopp (xorb s1 s2) (a * b).
Proof. destruct s1, s2; simpl; ring. Qed.

Lemma F2R_cond s m e : F2R (cond_Zopp s m) e = if s then (- F2R m e)%R else F2R m e.
Proof. destruct s; simpl; [apply F2R_opp|reflexivity]. Qed.

Lemma SFmul_faithful x y :
  valid_binary x = true -> valid_binary y = true ->
  SFfinite x = true -> SFfinite y = true ->
  faithful (SF2R x * SF2R y) (SFmul prec emax x y).
Proof.
  intros Vx Vy Fx Fy.
  destruct x as [sx| | |sx mx ex], y as [sy| | |sy my ey]; try discriminate.
  - apply faithful_exact; [reflexivity|]. simpl. lra.
  - apply faithful_exact; [reflexivity|]. simpl. lra.
  - apply faithful_exact; [reflexivity|]. simpl. lra.
  - unfold SFmul. rewrite !SF2R_finite, F2R_mult, cond_Zopp_mul, F2R_cond.
    destruct (valid_finite _ _ _ Vx) as (Bex & Bmx & Bnx & _).
    destruct (valid_finite _ _ _ Vy) as (Bey & Bmy & Bny & _).
    rewrite <- Pos2Z.inj_mul.
    apply round_aux_faithful.
    + lia.
    + rewrite fexp_eq.
      destruct Bnx as [Nx|Sx].
      * assert (52 + 1 <= Zdigits2 (Z.pos (mx * my)))%Z by (apply Zdigits2_ge; nia). lia.
      * destruct Bny as [Ny|Sy]; [|lia].
        assert (52 + 1 <= Zdigits2 (Z.pos (mx * my)))%Z by (apply Zdigits2_ge; nia). lia.
    + split; [lra|]. apply F2R_lt. lia.
    + discriminate.
Qed.

Lemma new_location_exact nb k : loc_exact (new_location nb k) = (k =? 0)%Z.
Proof.
  unfold new_location, new_location_even, new_location_odd.
  destruct (Z.even nb); destruct (k =? 0)%Z; reflexivity.
Qed.

Lemma SFdiv_faithful x y :
  valid_binary x = true -> valid_binary y = true ->
  SFfinite x = true -> SFfinite y = true -> SF2R y <> 0%R ->
  faithful (SF2R x / SF2R y) (SFdiv prec emax x y).
Proof.
  intros Vx Vy Fx Fy Ny.
  destruct x as [sx| | |sx mx ex], y as [sy| | |sy my ey]; try discriminate; try (simpl in Ny; lra).
  - apply faithful_exact; [reflexivity|]. simpl. unfold Rdiv. lra.
  - unfold SFdiv, SFdiv_core_binary.
    set (d1 := Zdigits2 (Z.pos mx)). set (d2 := Zdigits2 (Z.pos my)).
    set (e' := Z.min (fexp prec emax (d1 + ex - (d2 + ey))) (ex - ey)).
    set (s := (ex - ey - e')%Z).
    assert (0 <= s)%Z as Hs by (unfold s, e'; lia).
    set (m' := match s with Z.pos _ => Z.shiftl (Z.pos mx) s | 0%Z => Z.pos mx | Z.neg _ => 0%Z end).
    assert (m' = Z.pos mx * 2 ^ s)%Z as Em'.
    { unfold m'. destruct s as [|p|p] eqn:Es; [simpl; lia| |lia].
      apply Z.shiftl_mul_pow2. lia. }
    assert (0 < 2 ^ s)%Z as Hps by (apply Z.pow_pos_nonneg; lia).
    pose proof (Z_div_mod m' (Z.pos my) ltac:(lia)) as DM.
    destruct (Z.div_eucl m' (Z.pos my)) as [q r]. destruct DM as [DM Hr].
    assert (0 <= q)%Z as Hq by nia.
    set (a := (F2R (Z.pos mx) ex / F2R (Z.pos my) ey)%R).
    pose proof (F2R_pos (Z.pos mx) ex ltac:(lia)) as Px.
    pose proof (F2R_pos (Z.pos my) ey ltac:(lia)) as Py.
    assert ((SF2R (S754_finite sx mx ex) / SF2R (S754_finite sy my ey))%R
            = if xorb sx sy then (- a)%R else a) as ->.
    { rewrite !SF2R_finite, !F2R_cond. unfold a.
      destruct sx, sy; simpl; field; lra. }
    assert (a * IZR (Z.pos my) = IZR m' * bpow e')%R as Ea.
    { unfold a, F2R. rewrite Em', mult_IZR, <- (bpow_IZR s) by lia.
      replace ex with (s + e' + ey)%Z at 1 by (unfold s; lia).
      rewrite !bpow_add. pose proof (bpow_pos ey). field.
      split; [lra|]. apply not_0_IZR. lia. }
    assert (0 < IZR (Z.pos my))%R as Pmy by (apply IZR_lt; lia).
    pose proof (bpow_pos e') as Pe.
    apply round_aux_faithful.
    + exact Hq.
    + assert (d1 + ex - (d2 + ey) <= Zdigits2 q + e')%Z as Hd.
      { destruct (Z_le_gt_dec (d1 - d2 + s) 0) as [L|G].
        - pose proof (Zdigits2_nonneg q). unfold s in L. lia.
        - pose proof (Zdigits2_bounds (Z.pos mx) ltac:(lia)) as [L1 _].
          pose proof (Zdigits2_bounds (Z.pos my) ltac:(lia)) as [_ U2].
          fold d1 in L1. fold d2 in U2.
          assert (1 <= d1)%Z by (apply (Zdigits2_ge (Z.pos mx) 0); lia).
          assert (0 <= d2)%Z by apply Zdigits2_nonneg.
          assert (d1 - d2 + s - 1 + 1 <= Zdigits2 q)%Z as Hdq.
          { apply Zdigits2_ge; [lia|].
            assert (2 ^ (d1 - d2 + s - 1) * 2 ^ d2 = 2 ^ (d1 - 1) * 2 ^ s)%Z as Ep.
            { rewrite <- !Z.pow_add_r by lia. f_equal. lia. }
            assert (0 < 2 ^ (d1 - d2 + s - 1))%Z by (apply Z.pow_pos_nonneg; lia).
            destruct (Z_le_gt_dec (2 ^ (d1 - d2 + s - 1)) q) as [?|Gq]; [assumption|exfalso].
            assert (q + 1 <= 2 ^ (d1 - d2 + s - 1))%Z as Gq' by lia.
            assert (m' < (q + 1) * Z.pos my)%Z by nia.
            assert ((q + 1) * Z.pos my <= 2 ^ (d1 - d2 + s - 1) * Z.pos my)%Z by nia.
            assert (2 ^ (d1 - d2 + s - 1) * Z.pos my < 2 ^ (d1 - d2 + s - 1) * 2 ^ d2)%Z by nia.
            nia. }
          unfold s in Hdq. lia. }
      apply fexp_mono in Hd. unfold e' at 1. lia.
    + unfold F2R. rewrite plus_IZR. 
      assert (IZR q * IZR (Z.pos my) <= IZR m' < (IZR q + 1) * IZR (Z.pos my))%R as Hb.
      { rewrite DM, plus_IZR, mult_IZR. destruct Hr as [R0 R1].
        apply IZR_le in R0. apply IZR_lt in R1. nra. }
      split.
      * apply Rmult_le_reg_r with (IZR (Z.pos my)); [exact Pmy|]. rewrite Ea. nra.
      * apply Rmult_lt_reg_r with (IZR (Z.pos my)); [exact Pmy|]. rewrite Ea. nra.
    + rewrite new_location_exact. intros Hz. apply Z.eqb_neq in Hz.
      unfold F2R.
      apply Rmult_lt_reg_r with (IZR (Z.pos my)); [exact Pmy|]. rewrite Ea.
      assert (IZR q * IZR (Z.pos my) < IZR m')%R.
      { rewrite DM, plus_IZR, mult_IZR. assert (0 < r)%Z as R0 by lia.
        apply IZR_lt in R0. nra. }
      nra.
Qed.

(** *** Primitive floats *)

Lemma SFcompare_refl f : f <> S754_nan -> SFcompare f f = Some Eq.
Proof.
  destruct f as [s|s| |s m e]; intros H; simpl; try congruence.
  - destruct s; reflexivity.
  - rewrite Z.compare_refl. fold (Pos.compare m m). rewrite Pos.compare_refl. destruct s; reflexivity.
Qed.

Lemma is_nan_spec x : is_nan x = match Prim2SF x with S754_nan => true | _ => false end.
Proof.
  unfold is_nan. rewrite eqb_spec. unfold SFeqb.
  destruct (Prim2SF x) eqn:E; try reflexivity; rewrite SFcompare_refl by congruence; reflexivity.
Qed.

Lemma is_infinity_spec x : is_infinity x = match Prim2SF x with S754_infinity _ => true | _ => false end.
Proof.
  unfold is_infinity. rewrite eqb_spec, abs_spec. 
  change (Prim2SF infinity) with (S754_infinity false).
  destruct (Prim2SF x) as [s|s| |s m e]; reflexivity.
Qed.

Lemma is_finite_spec x : is_finite x = SFfinite (Prim2SF x).
Proof.
  unfold is_finite. rewrite is_nan_spec, is_infinity_spec.
  destruct (Prim2SF x); reflexivity.
Qed.

Lemma is_nan_eq x : is_nan x = true <-> x = nan.
Proof.
  rewrite is_nan_spec. split.
  - intros H. apply Prim2SF_inj. change (Prim2SF nan) with S754_nan.
    destruct (Prim2SF x); try discriminate. reflexivity.
  - intros ->. reflexivity.
Qed.

Lemma representable_B2R x : is_finite x = true -> representable (B2R x).
Proof.
  intros F. exists (Prim2SF x). rewrite is_finite_spec in F.
  repeat split; auto. apply Prim2SF_valid.
Qed.

Lemma leb_R x y : is_finite x = true -> is_finite y = true ->
  ((x <=? y) = true <-> (B2R x <= B2R y)%R).
Proof.
  intros Fx Fy. rewrite leb_spec. rewrite is_finite_spec in Fx, Fy.
  apply SFleb_R; auto using Prim2SF_valid.
Qed.

Lemma ltb_R x y : is_finite x = true -> is_finite y = true ->
  ((x <? y) = true <-> (B2R x < B2R y)%R).
Proof.
  intros Fx Fy. rewrite ltb_spec. rewrite is_finite_spec in Fx, Fy.
  apply SFltb_R; auto using Prim2SF_valid.
Qed.

Lemma leb_finite_l x y : (x <=? y) = true -> is_finite y = true -> is_nan x = false /\ x <> infinity.
Proof.
  intros H Fy. rewrite leb_spec in H. rewrite is_finite_spec in Fy. rewrite is_nan_spec.
  split.
  - destruct (Prim2SF x); auto; discriminate.
  - intros ->. change (Prim2SF infinity) with (S754_infinity false) in H.
    destruct (Prim2SF y); discriminate.
Qed.

Lemma faithful_bounds v r x1 x2 :
  faithful v r -> representable x1 -> representable x2 -> (x1 <= v <= x2)%R ->
  SFfinite r = true /\ (x1 <= SF2R r <= x2)%R.
Proof.
  intros Hf R1 R2 [L U].
  destruct (Hf x1 R1) as [_ G]. destruct (Hf x2 R2) as [Le _].
  specialize (G L). specialize (Le U).
  destruct r as [s|s| |s m e]; simpl in *; try contradiction; try congruence; split; auto; lra.
Qed.

Lemma faithful_le v r B :
  valid_binary r = true -> faithful v r ->
  valid_binary B = true -> SFfinite B = true -> (v <= SF2R B)%R -> SFleb r B = true.
Proof.
  intros Vr Hf VB FB H.
  destruct (Hf (SF2R B)) as [Le _]; [exists B; auto|]. specialize (Le H).
  destruct r as [s|s| |s m e]; try contradiction.
  - apply SFleb_R; auto.
  - simpl in Le. subst s. destruct B; try discriminate; reflexivity.
  - apply SFleb_R; auto.
Qed.

Lemma faithful_ge v r B :
  valid_binary r = true -> faithful v r ->
  valid_binary B = true -> SFfinite B = true -> (SF2R B <= v)%R -> SFleb B r = true.
Proof.
  intros Vr Hf VB FB H.
  destruct (Hf (SF2R B)) as [_ Ge]; [exists B; auto|]. specialize (Ge H).
  destruct r as [s|s| |s m e]; try contradiction.
  - apply SFleb_R; auto.
  - simpl in Ge. subst s. destruct B; try discriminate; reflexivity.
  - apply SFleb_R; auto.
Qed.

Lemma add_faithful x y : is_finite x = true -> is_finite y = true ->
  faithful (B2R x + B2R y) (Prim2SF (x + y)).
Proof.
  intros Fx Fy. rewrite is_finite_spec in Fx, Fy. rewrite add_spec.
  apply SFadd_faithful; assumption.
Qed.

Lemma sub_faithful x y : is_finite x = true -> is_finite y = true ->
  faithful (B2R x - B2R y) (Prim2SF (x - y)).
Proof.
  intros Fx Fy. rewrite is_finite_spec in Fx, Fy. rewrite sub_spec.
  apply SFsub_faithful; assumption.
Qed.

Lemma mul_faithful x y : is_finite x = true -> is_finite y = true ->
  faithful (B2R x * B2R y) (Prim2SF (x * y)).
Proof.
  intros Fx Fy. rewrite is_finite_spec in Fx, Fy. rewrite mul_spec.
  apply SFmul_faithful; auto using Prim2SF_valid.
Qed.

Lemma div_faithful x y : is_finite x = true -> is_finite y = true -> B2R y <> 0%R ->
  faithful (B2R x / B2R y) (Prim2SF (x / y)).
Proof.
  intros Fx Fy Ny. rewrite is_finite_spec in Fx, Fy. rewrite div_spec.
  apply SFdiv_faithful; auto using Prim2SF_valid.
Qed.

(* The result of an operation, sandwiched between two floats that bound the
   exact value, is finite and lies between them. *)
Lemma faithful_between v z b1 b2 :
  faithful v (Prim2SF z) -> is_finite b1 = true -> is_finite b2 = true ->
  (B2R b1 <= v <= B2R b2)%R ->
  is_finite z = true /\ (B2R b1 <= B2R z <= B2R b2)%R.
Proof.
  intros Hf F1 F2 Hv. rewrite (is_finite_spec z).
  apply (faithful_bounds v); auto using representable_B2R.
Qed.

Lemma faithful_value v z :
  faithful v (Prim2SF z) -> representable v -> is_finite z = true /\ B2R z = v.
Proof.
  intros Hf Rv. rewrite (is_finite_spec z).
  destruct (faithful_bounds v (Prim2SF z) v v Hf Rv Rv ltac:(lra)) as [F B].
  split; [exact F|]. unfold B2R. lra.
Qed.

(** *** Representable numbers *)
Lemma representable_F2R n g :
  (Z.abs n <= 2 ^ 53)%Z -> (-1074 <= g)%Z -> (Rabs (F2R n g) < bpow 1024)%R ->
  representable (F2R n g).
Proof.
  assert (forall n, 0 < n <= 2 ^ 53 -> -1074 <= g -> (F2R n g < bpow 1024)%R ->
                    representable (F2R n g))%Z as Hpos.
  { clear n. intros n Hn Hg Hlt.
    set (d := Zdigits2 n). pose proof (Zdigits2_bounds n ltac:(lia)) as [DL DU]. fold d in DL, DU.
    assert (1 <= d)%Z as D1 by (apply (Zdigits2_ge n 0); lia).
    assert (d <= 54)%Z as D54.
    { apply Zdigits2_le; try lia. }
    assert (forall m e, 0 < m -> F2R m e = F2R n g -> fexp prec emax (Zdigits2 m + e) = e ->
                        representable (F2R n g))%Z as Build.
    { intros m e Hm Ev Hc. exists (S754_finite false (Z.to_pos m) e).
      assert (Z.pos (Z.to_pos m) = m) as Em by (apply Z2Pos.id; lia).
      assert (canonical_mantissa prec emax (Z.to_pos m) e = true) as Can.
      { unfold canonical_mantissa. apply Z.eqb_eq.
        change (Z.pos (digits2_pos (Z.to_pos m))) with (Zdigits2 (Z.pos (Z.to_pos m))).
        rewrite Em. exact Hc. }
      split; [|split; [reflexivity|]].
      - unfold valid_binary, bounded. rewrite Can. simpl andb. apply Z.leb_le.
        unfold emax, prec. destruct (Z_le_gt_dec e (1024 - 53)) as [?|G]; [assumption|exfalso].
        rewrite fexp_eq in Hc.
        assert (Zdigits2 m = 53)%Z as Dm by lia.
        pose proof (Zdigits2_bounds m Hm) as [ML _]. rewrite Dm in ML.
        pose proof (bpow_1024 m e ML ltac:(lia)). lra.
      - simpl. rewrite Em. exact Ev. }
    set (E := fexp prec emax (d + g)).
    destruct (Z_le_gt_dec E g) as [L|G].
    - apply (Build (n * 2 ^ (g - E))%Z E).
      + assert (0 < 2 ^ (g - E))%Z by (apply Z.pow_pos_nonneg; lia). nia.
      + symmetry. apply F2R_change_exp. lia.
      + rewrite Zdigits2_shift by lia. fold d. replace (d + (g - E) + E)%Z with (d + g)%Z by lia.
        reflexivity.
    - unfold E in G. rewrite fexp_eq in G.
      assert (d = 54)%Z as D by lia.
      assert (n = 2 ^ 53)%Z as ->.
      { rewrite D in DL. simpl in DL. lia. }
      apply (Build (2 ^ 52)%Z (g + 1)%Z).
      + lia.
      + rewrite <- F2R_shift by lia. reflexivity.
      + rewrite fexp_eq. change (Zdigits2 (2 ^ 52)) with 53%Z. lia. }
  intros Hn Hg Hlt.
  destruct (Z.lt_trichotomy n 0) as [N|[->|P]].
  - replace (F2R n g) with (- F2R (- n) g)%R by (rewrite F2R_opp; lra).
    apply representable_opp. apply Hpos; try lia.
    rewrite F2R_opp. pose proof (F2R_pos (- n) g ltac:(lia)) as Q. rewrite F2R_opp in Q.
    rewrite Rabs_left in Hlt by lra. exact Hlt.
  - rewrite F2R_0. apply representable_0.
  - apply Hpos; try lia. pose proof (F2R_pos n g P). rewrite Rabs_right in Hlt by lra. exact Hlt.
Qed.

(** *** The rounding functions return canonical floats *)

Lemma round_aux_valid s mx ex lx :
  (0 <= mx)%Z -> (ex <= fexp prec emax (Zdigits2 mx + ex))%Z ->
  valid_binary (binary_round_aux prec emax s mx ex lx) = true.
Proof.
  intros Hmx Hlow.
  destruct (round_aux_struct s mx ex lx Hmx Hlow) as (m2 & _ & _ & _ & Hr).
  destruct Hr as [[_ ->]|[(m3 & e3 & E & _ & _ & V)|[-> _]]]; auto.
Qed.

Lemma binary_round_valid s p e : valid_binary (binary_round prec emax s p e) = true.
Proof.
  unfold binary_round.
  destruct (shl_align_spec p e (fexp prec emax (Z.pos (digits2_pos p) + e))) as [S1 S2].
  destruct (shl_align p e (fexp prec emax (Z.pos (digits2_pos p) + e))) as [mz ez].
  simpl fst in *; simpl snd in *.
  set (E := fexp prec emax (Z.pos (digits2_pos p) + e)) in *.
  apply round_aux_valid; [lia|].
  rewrite S2. rewrite Zdigits2_shift by lia. simpl Zdigits2.
  replace (Z.pos (digits2_pos p) + (e - Z.min e E) + ez)%Z with (Z.pos (digits2_pos p) + e)%Z by lia.
  fold E. lia.
Qed.

Lemma binary_normalize_valid M e sz : valid_binary (binary_normalize prec emax M e sz) = true.
Proof. destruct M; simpl; auto using binary_round_valid. Qed.

Lemma binary_normalize_faithful_sz M e sz :
  faithful (F2R M e) (binary_normalize prec emax M e sz).
Proof.
  destruct M as [|p|p]; [|apply (binary_normalize_faithful (Zpos p))|apply (binary_normalize_faithful (Zneg p))].
  apply faithful_exact; [reflexivity|]. simpl. rewrite F2R_0. reflexivity.
Qed.

Lemma F2R_e0 n : F2R n 0 = IZR n.
Proof. unfold F2R, bpow. simpl. ring. Qed.

Lemma bpow_neg k : (0 <= k)%Z -> bpow (- k) = (/ IZR (2 ^ k))%R.
Proof.
  intros H. assert (bpow (- k) * bpow k = 1)%R as E.
  { rewrite <- bpow_add. replace (- k + k)%Z with 0%Z by lia. reflexivity. }
  rewrite (bpow_IZR k H) in E. 
  assert (0 < IZR (2 ^ k))%R by (apply IZR_lt; apply Z.pow_pos_nonneg; lia).
  apply Rmult_eq_reg_r with (IZR (2 ^ k)); [|lra]. rewrite E. field. lra.
Qed.

Lemma representable_IZR n : (Z.abs n <= 2 ^ 53)%Z -> representable (IZR n).
Proof.
  intros H. rewrite <- F2R_e0. apply representable_F2R; [exact H|lia|].
  rewrite F2R_e0. rewrite <- abs_IZR.
  assert (IZR (Z.abs n) <= IZR (2 ^ 53))%R by (apply IZR_le; exact H).
  assert (bpow 53 < bpow 1024)%R by (apply bpow_lt; lia).
  rewrite <- (bpow_IZR 53) in H0 by lia. lra.
Qed.

Lemma normalize_B2R M sz : (Z.abs M <= 2 ^ 53)%Z ->
  is_finite (SF2Prim (binary_normalize prec emax M 0 sz)) = true /\
  B2R (SF2Prim (binary_normalize prec emax M 0 sz)) = IZR M.
Proof.
  intros H. apply faithful_value; [|apply representable_IZR; exact H].
  rewrite Prim2SF_SF2Prim by apply binary_normalize_valid.
  rewrite <- F2R_e0. apply binary_normalize_faithful_sz.
Qed.

Lemma of_Z_B2R n : (Z.abs n <= 2 ^ 53)%Z ->
  is_finite (F64.of_Z n) = true /\ B2R (F64.of_Z n) = IZR n.
Proof. apply normalize_B2R. Qed.

(** *** NaN is absorbing *)

Lemma Prim2SF_nan : Prim2SF nan = S754_nan.
Proof. reflexivity. Qed.

Lemma SF_nan_eq x : Prim2SF x = S754_nan -> x = nan.
Proof. intros H. apply Prim2SF_inj. rewrite H. reflexivity. Qed.

Lemma add_nan_l y : (nan + y)%float = nan.
Proof. apply SF_nan_eq. rewrite add_spec, Prim2SF_nan. reflexivity. Qed.

Lemma add_nan_r x : (x + nan)%float = nan.
Proof. apply SF_nan_eq. rewrite add_spec, Prim2SF_nan. destruct (Prim2SF x); reflexivity. Qed.

Lemma sub_nan_l y : (nan - y)%float = nan.
Proof. apply SF_nan_eq. rewrite sub_spec, Prim2SF_nan. reflexivity. Qed.

Lemma sub_nan_r x : (x - nan)%float = nan.
Proof. apply SF_nan_eq. rewrite sub_spec, Prim2SF_nan. destruct (Prim2SF x); reflexivity. Qed.

Lemma mul_nan_l y : (nan * y)%float = nan.
Proof. apply SF_nan_eq. rewrite mul_spec, Prim2SF_nan. reflexivity. Qed.

Lemma mul_nan_r x : (x * nan)%float = nan.
Proof. apply SF_nan_eq. rewrite mul_spec, Prim2SF_nan. destruct (Prim2SF x); reflexivity. Qed.

Lemma div_nan_l y : (nan / y)%float = nan.
Proof. apply SF_nan_eq. rewrite div_spec, Prim2SF_nan. reflexivity. Qed.

Lemma div_nan_r x : (x / nan)%float = nan.
Proof. apply SF_nan_eq. rewrite div_spec, Prim2SF_nan. destruct (Prim2SF x); reflexivity. Qed.

Lemma is_nan_false_finite x : is_finite x = true -> is_nan x = false.
Proof. unfold is_finite. destruct (is_nan x); simpl; congruence. Qed.

(** *** Comparisons *)

Lemma eqb_R x y : is_finite x = true -> is_finite y = true ->
  ((x =? y) = true <-> B2R x = B2R y).
Proof.
  intros Fx Fy. rewrite eqb_spec. rewrite is_finite_spec in Fx, Fy.
  pose proof (SFcompare_R _ _ (Prim2SF_valid x) (Prim2SF_valid y) Fx Fy) as H.
  unfold SFeqb, B2R. destruct (SFcompare (Prim2SF x) (Prim2SF y)) as [[| |]|]; simpl in H;
    split; intros; try lra; try discriminate; auto; try contradiction.
Qed.

Lemma leb_bounds_finite x a b :
  is_finite a = true -> is_finite b = true -> (a <=? x) = true -> (x <=? b) = true ->
  is_finite x = true.
Proof.
  intros Fa Fb Ha Hb. rewrite is_finite_spec in *. rewrite leb_spec in Ha, Hb.
  destruct (Prim2SF x) as [s|s| |s m e]; auto.
  destruct s; [destruct (Prim2SF a)|destruct (Prim2SF b)]; discriminate.
Qed.

Lemma SFcompare_antisym f1 f2 :
  SFcompare f2 f1 = match SFcompare f1 f2 with Some c => Some (CompOpp c) | None => None end.
Proof.
  destruct f1 as [s1|s1| |s1 m1 e1], f2 as [s2|s2| |s2 m2 e2]; simpl; auto;
    try (destruct s1; reflexivity); try (destruct s2; reflexivity);
    try (destruct s1, s2; reflexivity).
  rewrite (Z.compare_antisym e1 e2).
  fold (Pos.compare m1 m2). fold (Pos.compare m2 m1). rewrite (Pos.compare_antisym m1 m2).
  destruct s1, s2; simpl; auto; destruct (e1 ?= e2)%Z; simpl; auto;
    destruct (m1 ?= m2)%positive; reflexivity.
Qed.

Lemma SFcompare_some f1 f2 :
  f1 <> S754_nan -> f2 <> S754_nan -> SFcompare f1 f2 <> None.
Proof.
  destruct f1 as [s1|s1| |s1 m1 e1], f2 as [s2|s2| |s2 m2 e2]; simpl; congruence.
Qed.

Lemma ltb_false_leb x y :
  (x <? y) = false -> is_nan x = false -> is_nan y = false -> (y <=? x) = true.
Proof.
  rewrite ltb_spec, leb_spec, !is_nan_spec. unfold SFltb, SFleb.
  rewrite (SFcompare_antisym (Prim2SF x) (Prim2SF y)).
  intros H Nx Ny.
  assert (SFcompare (Prim2SF x) (Prim2SF y) <> None) as Hs.
  { apply SFcompare_some; intros E; rewrite E in *; discriminate. }
  destruct (SFcompare (Prim2SF x) (Prim2SF y)) as [[| |]|]; simpl; congruence.
Qed.

Lemma leb_not_nan x y : (x <=? y) = true -> is_nan x = false /\ is_nan y = false.
Proof.
  rewrite leb_spec, !is_nan_spec.
  destruct (Prim2SF x), (Prim2SF y); simpl; auto; discriminate.
Qed.

Lemma ltb_leb x y : (x <? y) = true -> (x <=? y) = true.
Proof.
  rewrite ltb_spec, leb_spec. unfold SFltb, SFleb.
  destruct (SFcompare (Prim2SF x) (Prim2SF y)) as [[| |]|]; congruence.
Qed.

Lemma leb_chain_finite a x y b :
  is_finite a = true -> is_finite b = true ->
  (a <=? x) = true -> (x <=? y) = true -> (y <=? b) = true ->
  is_finite x = true /\ is_finite y = true.
Proof.
  rewrite !is_finite_spec, !leb_spec. intros Fa Fb H1 H2 H3.
  assert (SFfinite (Prim2SF y) = true) as Fy.
  { destruct (Prim2SF y) as [s|[|]| |s m e]; auto; exfalso.
    all: try (destruct (Prim2SF b); discriminate).
    destruct (Prim2SF x) as [s'|[|]| |s' m' e']; try discriminate H2.
    destruct (Prim2SF a); discriminate. }
  split; [|exact Fy].
  destruct (Prim2SF x) as [s|[|]| |s m e]; auto; exfalso.
  all: try (destruct (Prim2SF a); discriminate).
  destruct (Prim2SF y); discriminate.
Qed.

(** ** The coarse [Math] meets [MathLaws] *)

Lemma clamp1_range z :
  (-1.0 <=? Coarse.clamp1 z) = true /\ (Coarse.clamp1 z <=? 1.0) = true.
Proof.
  unfold Coarse.clamp1. destruct (z <? -1.0) eqn:A; [split; reflexivity|].
  destruct (z <=? 1.0) eqn:B; [|split; reflexivity].
  split; [|exact B]. apply ltb_false_leb; [exact A| |reflexivity].
  apply (leb_not_nan _ _ B).
Qed.

Lemma clampPI_range z : is_nan (Coarse.clampPI z) = false ->
  (- PI <=? Coarse.clampPI z) = true /\ (Coarse.clampPI z <=? PI) = true.
Proof.
  unfold Coarse.clampPI. destruct (z <? - PI) eqn:A; [split; reflexivity|].
  destruct (PI <? z) eqn:B; [split; reflexivity|].
  intros N. split; apply ltb_false_leb; auto.
Qed.

Lemma coarse_laws : MathLaws Coarse.math.
Proof.
  constructor; simpl.
  - reflexivity.
  - reflexivity.
  - reflexivity.
  - intros x H. unfold Coarse.acos. rewrite H. reflexivity.
  - intros x. reflexivity.
  - intros y. unfold Coarse.atan2. replace (is_nan nan) with true by reflexivity.
    rewrite orb_true_r. reflexivity.
  - intros x H. unfold Coarse.cos, is_finite. rewrite H, orb_true_r. reflexivity.
  - intros x H. unfold Coarse.cos. rewrite H.
    apply (leb_not_nan _ _ (proj2 (clamp1_range _))).
  - intros x. unfold Coarse.cos. destruct (is_finite x); [intros _; apply clamp1_range|].
    intros H. discriminate H.
  - intros y x. unfold Coarse.atan2. destruct (is_nan y || is_nan x).
    + intros H. discriminate H.
    + apply clampPI_range.
Qed.

(** *** Values of literals *)

Lemma F2R_abs_lt m e : (Z.abs m <= 2 ^ 53)%Z -> (e <= 970)%Z ->
  (Rabs (F2R m e) < bpow 1024)%R.
Proof.
  intros Hm He. unfold F2R. pose proof (bpow_pos e) as Pe.
  rewrite Rabs_mult, <- abs_IZR, (Rabs_right (bpow e)) by lra.
  apply IZR_le in Hm. rewrite <- (bpow_IZR 53) in Hm by lia.
  assert (0 <= IZR (Z.abs m))%R by (apply IZR_le; lia).
  assert (bpow 53 * bpow e < bpow 1024)%R.
  { rewrite <- bpow_add. apply bpow_lt. lia. }
  nra.
Qed.

Lemma B2R_dyadic c n k :
  Prim2SF c = binary_normalize prec emax n (- k) false ->
  (0 <= k <= 1074)%Z -> (Z.abs n <= 2 ^ 53)%Z ->
  is_finite c = true /\ B2R c = (IZR n / IZR (2 ^ k))%R.
Proof.
  intros E Hk Hn.
  assert (0 < IZR (2 ^ k))%R as Pk by (apply IZR_lt; apply Z.pow_pos_nonneg; lia).
  assert (F2R n (- k) = IZR n / IZR (2 ^ k))%R as Ev.
  { unfold F2R. rewrite bpow_neg by lia. reflexivity. }
  rewrite <- Ev. apply faithful_value.
  - rewrite E. apply binary_normalize_faithful.
  - apply representable_F2R; [exact Hn|lia|].
    rewrite Ev. unfold Rdiv. rewrite Rabs_mult, <- abs_IZR, Rabs_inv, (Rabs_right (IZR (2 ^ k))) by lra.
    assert (IZR (Z.abs n) <= IZR (2 ^ 53))%R as Hb by (apply IZR_le; exact Hn).
    assert (1 <= IZR (2 ^ k))%R as H1 by (apply IZR_le; lia).
    assert (bpow 53 < bpow 1024)%R as Hlt by (apply bpow_lt; lia).
    rewrite (bpow_IZR 53) in Hlt by lia.
    assert (0 <= IZR (Z.abs n))%R by (apply IZR_le; lia).
    assert (/ IZR (2 ^ k) <= 1)%R.
    { rewrite <- Rinv_1. apply Rinv_le_contravar; lra. }
    assert (0 < / IZR (2 ^ k))%R by (apply Rinv_0_lt_compat; lra).
    nra.
Qed.

Lemma B2R_int c n :
  Prim2SF c = binary_normalize prec emax n 0 false -> (Z.abs n <= 2 ^ 53)%Z ->
  is_finite c = true /\ B2R c = IZR n.
Proof.
  intros E Hn. destruct (B2R_dyadic c n 0 E ltac:(lia) Hn) as [F V].
  split; [exact F|]. rewrite V. change (2 ^ 0)%Z with 1%Z. unfold Rdiv. rewrite Rinv_1. ring.
Qed.

Lemma B2R_zero : B2R 0 = 0%R.
Proof. reflexivity. Qed.

(** *** The grid of a binade, and the error of a rounding *)

Lemma Rabs_le_inv a b : (Rabs a <= b)%R -> (- b <= a <= b)%R.
Proof. unfold Rabs. destruct (Rcase_abs a); lra. Qed.


Lemma finite_grid x k :
  is_finite x = true -> (bpow k <= Rabs (B2R x))%R -> (-1074 <= k - 52)%Z ->
  exists n, B2R x = F2R n (k - 52).
Proof.
  intros F Hk Hlow. rewrite is_finite_spec in F. unfold B2R in *.
  pose proof (Prim2SF_valid x) as V. pose proof (bpow_pos k) as Pk.
  destruct (Prim2SF x) as [s| | |s m e]; try discriminate; simpl in Hk.
  - rewrite Rabs_R0 in Hk. lra.
  - destruct (valid_finite _ _ _ V) as (Be & Bm & _).
    simpl. rewrite F2R_cond in Hk.
    assert (Rabs (if s then (- F2R (Z.pos m) e)%R else F2R (Z.pos m) e) = F2R (Z.pos m) e) as Ea.
    { pose proof (F2R_pos (Z.pos m) e ltac:(lia)).
      destruct s; [rewrite Rabs_left by lra; lra|apply Rabs_right; lra]. }
    rewrite Ea in Hk.
    assert (k - 52 <= e)%Z as He.
    { destruct (Z_le_gt_dec (k - 52) e) as [?|G]; [assumption|exfalso].
      assert (F2R (Z.pos m) e < bpow k)%R; [|lra].
      replace k with (53 + (k - 53))%Z by lia. rewrite bpow_add, (bpow_IZR 53) by lia.
      unfold F2R. assert (bpow e <= bpow (k - 53))%R by (apply bpow_le; lia).
      apply IZR_lt in Bm. pose proof (bpow_pos e).
      assert (0 < IZR (Z.pos m))%R by (apply IZR_lt; lia). nra. }
    exists (cond_Zopp s (Z.pos m) * 2 ^ (e - (k - 52)))%Z.
    apply F2R_change_exp. exact He.
Qed.

Lemma faithful_error v z k :
  faithful v (Prim2SF z) -> (Rabs v < bpow k)%R -> (-1074 <= k - 53)%Z -> (k <= 1023)%Z ->
  is_finite z = true /\ (Rabs (B2R z - v) <= bpow (k - 53))%R.
Proof.
  intros Hf Hv Hlow Hk.
  set (g := bpow (k - 53)). pose proof (bpow_pos (k - 53)) as Pg. fold g in Pg.
  assert (bpow k = IZR (2 ^ 53) * g)%R as Ek.
  { unfold g. rewrite <- (bpow_IZR 53), <- bpow_add by lia. f_equal. lia. }
  set (n := (up (v / g) - 1)%Z).
  destruct (archimed (v / g)) as [A1 A2].
  assert (IZR n <= v / g < IZR n + 1)%R as Hn.
  { unfold n. rewrite minus_IZR. lra. }
  assert (v = v / g * g)%R as Ev by (field; lra).
  assert (F2R n (k - 53) <= v < F2R (n + 1) (k - 53))%R as Hb.
  { unfold F2R. fold g. rewrite plus_IZR. nra. }
  assert (- IZR (2 ^ 53) < v / g < IZR (2 ^ 53))%R as Hq.
  { apply Rabs_def2 in Hv. rewrite Ek in Hv.
    assert (0 < IZR (2 ^ 53))%R by (apply IZR_lt; lia).
    split.
    - apply Rmult_lt_reg_r with g; [exact Pg|]. rewrite <- Ev. lra.
    - apply Rmult_lt_reg_r with g; [exact Pg|]. rewrite <- Ev. lra. }
  assert (- 2 ^ 53 <= n /\ n + 1 <= 2 ^ 53)%Z as [Hn1 Hn2].
  { split.
    - assert (IZR (- 2 ^ 53 - 1) < IZR n)%R as H; [|apply lt_IZR in H; lia].
      rewrite minus_IZR, opp_IZR. lra.
    - assert (IZR n < IZR (2 ^ 53))%R as H; [lra|apply lt_IZR in H; lia]. }
  assert (forall i, (Z.abs i <= 2 ^ 53)%Z -> representable (F2R i (k - 53))) as Rep.
  { intros i Hi. apply representable_F2R; [exact Hi|lia|].
    unfold F2R. fold g. rewrite Rabs_mult, <- abs_IZR, (Rabs_right g) by lra.
    apply IZR_le in Hi. assert (bpow k < bpow 1024)%R by (apply bpow_lt; lia).
    assert (0 <= IZR (Z.abs i))%R by (apply IZR_le; lia). nra. }
  destruct (faithful_bounds v (Prim2SF z) _ _ Hf (Rep n ltac:(lia)) (Rep (n + 1)%Z ltac:(lia)))
    as [F B]; [lra|].
  rewrite is_finite_spec. split; [exact F|].
  unfold B2R. unfold F2R in *. fold g in B, Hb. rewrite plus_IZR in *.
  apply Rabs_le. nra.
Qed.

(** *** [ceil], [Math.round] and the cast to [i64] *)

Lemma F2R_int m e : (0 <= e)%Z -> F2R m e = IZR (m * 2 ^ e).
Proof. intros H. rewrite <- F2R_e0, F2R_shift by lia. reflexivity. Qed.

Lemma F2R_inj m1 m2 e : F2R m1 e = F2R m2 e -> m1 = m2.
Proof.
  intros H. apply Z.le_antisymm; apply (F2R_le_inv _ _ e); rewrite H; apply Rle_refl.
Qed.

Lemma IZR_between n N : (IZR n - 1 < IZR N <= IZR n)%R -> N = n.
Proof.
  intros [A B]. apply le_IZR in B.
  assert (IZR (n - 1) < IZR N)%R as A' by (rewrite minus_IZR; exact A).
  apply lt_IZR in A'. lia.
Qed.

Lemma B2R_half : is_finite 0.5 = true /\ B2R 0.5 = (/ 2)%R.
Proof.
  destruct (B2R_dyadic 0.5 1 1 eq_refl ltac:(lia) ltac:(simpl; lia)) as [F V].
  split; [exact F|]. rewrite V. change (2 ^ 1)%Z with 2%Z. lra.
Qed.

Lemma B2R_one : is_finite 1.0 = true /\ B2R 1.0 = 1%R.
Proof. apply (B2R_int 1.0 1 eq_refl). simpl. lia. Qed.

Lemma ceil_spec x n :
  is_finite x = true -> (IZR n - 1 < B2R x <= IZR n)%R -> (Z.abs n <= 2 ^ 53)%Z ->
  is_finite (F64.ceil x) = true /\ B2R (F64.ceil x) = IZR n.
Proof.
  intros F Hx Hn. unfold F64.ceil. unfold B2R in Hx.
  destruct (Prim2SF x) as [s|s| |s m e] eqn:E.
  - split; [exact F|]. unfold B2R. rewrite E. simpl in *.
    rewrite (IZR_between n 0 Hx). reflexivity.
  - rewrite is_finite_spec, E in F. discriminate F.
  - rewrite is_finite_spec, E in F. discriminate F.
  - simpl in Hx. destruct (Z.leb_spec 0 e) as [P|N].
    + split; [exact F|]. unfold B2R. rewrite E. simpl.
      rewrite F2R_int in * by lia. f_equal. apply IZR_between. exact Hx.
    + set (k := (- e)%Z). assert (0 < k)%Z as Hk by (unfold k; lia).
      assert (Z.shiftl (Z.pos m) e = Z.pos m / 2 ^ k)%Z as Eq
        by (apply Z.shiftl_div_pow2; lia).
      rewrite Eq. set (q := (Z.pos m / 2 ^ k)%Z).
      rewrite (Z.shiftl_mul_pow2 q k) by lia.
      destruct (div_pow_bounds (Z.pos m) k ltac:(lia) ltac:(lia)) as [[DL DU] _]. fold q in DL, DU.
      assert (forall i, F2R (i * 2 ^ k) e = IZR i) as Hi.
      { intros i. rewrite F2R_shift by lia. replace (e + k)%Z with 0%Z by (unfold k; lia).
        apply F2R_e0. }
      assert (0 <= q)%Z as Hq by (apply Z.div_pos; [lia|apply Z.pow_pos_nonneg; lia]).
      pose proof (F2R_le _ _ e DL) as RL. rewrite Hi in RL.
      assert (Z.pos m + 1 <= (q + 1) * 2 ^ k)%Z as DU' by lia.
      pose proof (F2R_lt (Z.pos m) ((q + 1) * 2 ^ k) e DU) as RU. rewrite Hi, plus_IZR in RU.
      rewrite F2R_cond in Hx.
      destruct s.
      * assert (n = - q)%Z as ->.
        { assert (IZR (- q) - 1 < IZR n /\ IZR n - 1 < IZR (- q))%R as [A B]
            by (rewrite opp_IZR; lra).
          rewrite <- minus_IZR in A, B. apply lt_IZR in A, B. lia. }
        apply normalize_B2R. exact Hn.
      * destruct (Z.eqb_spec (q * 2 ^ k) (Z.pos m)) as [Ee|Ne].
        -- assert (n = q) as ->.
           { rewrite <- Ee, Hi in Hx. symmetry. apply IZR_between. exact Hx. }
           apply normalize_B2R. exact Hn.
        -- assert (q * 2 ^ k < Z.pos m)%Z as Lt by lia.
           pose proof (F2R_lt _ _ e Lt) as RS. rewrite Hi in RS.
           assert (n = q + 1)%Z as ->.
           { assert (IZR q < IZR n /\ IZR n - 1 < IZR q + 1)%R as [A B] by lra.
             apply lt_IZR in A. rewrite <- plus_IZR, <- minus_IZR in B. apply lt_IZR in B. lia. }
           apply normalize_B2R. exact Hn.
Qed.

Lemma round_spec x n :
  is_finite x = true -> (Z.abs n < 2 ^ 52)%Z ->
  (IZR n - / 2 <= B2R x < IZR n + / 2)%R ->
  is_finite (F64.round x) = true /\ B2R (F64.round x) = IZR n.
Proof.
  intros F Hn Hx. unfold F64.round.
  assert (2 ^ 53 = 2 * 2 ^ 52)%Z as P53 by reflexivity.
  assert (0 < 2 ^ 52)%Z as P52 by reflexivity.
  destruct B2R_half as [Fh Vh]. destruct B2R_one as [F1 V1].
  assert (forall c i, is_finite c = true -> B2R c = IZR i -> (- 2 ^ 52 < i <= 2 ^ 52)%Z ->
            is_finite (c - 0.5) = true /\ B2R (c - 0.5) = (IZR i - / 2)%R) as Hsub.
  { intros c i Fc Vc Hi. apply faithful_value.
    - rewrite <- Vc, <- Vh. apply sub_faithful; assumption.
    - replace (IZR i - / 2)%R with (F2R (2 * i - 1) (- (1))).
      + apply representable_F2R; [lia|lia|]. apply F2R_abs_lt; lia.
      + unfold F2R. rewrite bpow_neg by lia. rewrite minus_IZR, mult_IZR.
        change (2 ^ 1)%Z with 2%Z. lra. }
  destruct (Rle_lt_dec (B2R x) (IZR n)) as [Le|Gt].
  - destruct (ceil_spec x n F ltac:(lra) ltac:(lia)) as [Fc Vc].
    destruct (Hsub _ n Fc Vc ltac:(lia)) as [Fs Vs].
    assert ((F64.ceil x - 0.5 <=? x) = true) as ->.
    { apply leb_R; auto. lra. }
    split; assumption.
  - destruct (ceil_spec x (n + 1) F) as [Fc Vc]; [rewrite plus_IZR; lra|lia|].
    destruct (Hsub _ (n + 1)%Z Fc Vc ltac:(lia)) as [Fs Vs].
    rewrite plus_IZR in Vs, Vc.
    destruct (F64.ceil x - 0.5 <=? x) eqn:Hl.
    + apply leb_R in Hl; auto. lra.
    + apply faithful_value.
      * replace (IZR n) with (B2R (F64.ceil x) - B2R 1.0)%R by (rewrite Vc, V1; ring).
        apply sub_faithful; assumption.
      * apply representable_IZR. lia.
Qed.

Lemma to_i64_spec x n :
  is_finite x = true -> B2R x = IZR n -> (F64.i64_min <= n <= F64.i64_max)%Z ->
  F64.to_i64 x = n.
Proof.
  intros F V Hn. unfold F64.to_i64. unfold B2R in V. rewrite is_finite_spec in F.
  destruct (Prim2SF x) as [s|s| |s m e]; try discriminate F.
  - simpl in V. symmetry. apply eq_IZR. exact (eq_sym V).
  - simpl in V.
    assert (Z.shiftl (Z.pos m) e = Z.abs n /\ cond_Zopp s (Z.abs n) = n) as [-> Hs].
    { destruct (Z.leb_spec 0 e) as [P|N].
      - rewrite Z.shiftl_mul_pow2 by lia. rewrite F2R_int in V by lia. apply eq_IZR in V.
        assert (0 < Z.pos m * 2 ^ e)%Z as Pp
          by (apply Z.mul_pos_pos; [lia|apply Z.pow_pos_nonneg; lia]).
        unfold cond_Zopp in *. destruct s; rewrite ?Z.mul_opp_l in V; lia.
      - rewrite Z.shiftl_div_pow2 by lia.
        rewrite <- F2R_e0, (F2R_change_exp n 0 e) in V by lia. apply F2R_inj in V.
        replace (0 - e)%Z with (- e)%Z in V by lia.
        assert (0 < 2 ^ (- e))%Z by (apply Z.pow_pos_nonneg; lia).
        assert (Z.pos m = Z.abs n * 2 ^ (- e) /\ cond_Zopp s (Z.abs n) = n)%Z as [Em Es].
        { unfold cond_Zopp in *. destruct s.
          - assert (n < 0)%Z by nia. rewrite Z.abs_neq by lia. split; lia.
          - assert (0 < n)%Z by nia. rewrite Z.abs_eq by lia. split; lia. }
        rewrite Em, Z.div_mul by lia. split; [reflexivity|exact Es]. }
    assert ((if s then (- Z.abs n)%Z else Z.abs n) = n) as -> by (destruct s; exact Hs).
    lia.
Qed.

(** ** NaN Julian moments *)

Lemma approxTransit_nan lw n : approxTransit nan lw n = nan.
Proof. unfold approxTransit. rewrite add_nan_l, div_nan_l, add_nan_r, add_nan_l. reflexivity. Qed.

Lemma solarTransitJ_nan M m l : solarTransitJ M nan m l = nan.
Proof. unfold solarTransitJ. rewrite add_nan_r, add_nan_l, sub_nan_l. reflexivity. Qed.

Lemma get_set_j_undefined M (L : MathLaws M) h lw phi dec n m l :
  acos_undefined (hourAngle_arg M h phi dec) = true ->
  get_set_j M h lw phi dec n m l = nan.
Proof.
  intros H. unfold get_set_j, hourAngle. fold (hourAngle_arg M h phi dec).
  rewrite (acos_domain M L _ H), approxTransit_nan, solarTransitJ_nan. reflexivity.
Qed.

Lemma fromJulian_nan : fromJulian nan = 0%Z.
Proof. reflexivity. Qed.

Lemma calc_undefined M (L : MathLaws M) this j_noon dh lw phi dec n m l :
  acos_undefined (hourAngle_arg M (calc_h0 this dh) phi dec) = true ->
  calc_j_set M this dh lw phi dec n m l = nan /\
  calc M this j_noon dh lw phi dec n m l = [0%Z; 0%Z].
Proof.
  intros H. unfold calc, calc_j_set. fold (calc_h0 this dh).
  rewrite (get_set_j_undefined M L _ lw phi dec n m l H).
  rewrite sub_nan_l, sub_nan_r, fromJulian_nan. split; reflexivity.
Qed.

Lemma getTimes_pair M (p : Pair) ts lat lon h :
  [rise_field p (getTimes M ts lat lon h); set_field p (getTimes M ts lat lon h)] =
  calc M (threshold p) (getTimes_j_noon M ts lon) (observerAngle h) (getTimes_lw lon)
    (lat * TO_RAD) (getTimes_dec M ts lon) (getTimes_n ts lon) (getTimes_m ts lon)
    (getTimes_l M ts lon).
Proof. destruct p; reflexivity. Qed.

(** C1, as the code has it.  When the altitude threshold of a pair is never
    crossed (the [acos] argument of its hour angle is NaN or outside
    [-1, 1]), the Julian moment of the pair is NaN, and both timestamps of
    the pair that [getTimes] returns are the integer 0: the cast to [i64] in
    [fromJulian] turns the NaN into 0; no error is raised, and no NaN can be
    returned in a [u64] field. *)
Theorem getTimes_uncrossed_threshold_gives_zero M (L : MathLaws M) (p : Pair) ts lat lon h :
  acos_undefined (getTimes_hourAngle_arg M p ts lat lon h) = true ->
  is_nan (getTimes_j_set M p ts lat lon h) = true /\
  rise_field p (getTimes M ts lat lon h) = 0%Z /\
  set_field p (getTimes M ts lat lon h) = 0%Z.
Proof.
  intros H. unfold getTimes_hourAngle_arg in H.
  destruct (calc_undefined M L (threshold p) (getTimes_j_noon M ts lon) (observerAngle h)
              (getTimes_lw lon) (lat * TO_RAD) (getTimes_dec M ts lon) (getTimes_n ts lon)
              (getTimes_m ts lon) (getTimes_l M ts lon) H) as [Hj Hc].
  pose proof (getTimes_pair M p ts lat lon h) as Hp. rewrite Hc in Hp.
  unfold getTimes_j_set. rewrite Hj. split; [reflexivity|].
  injection Hp as -> ->. split; reflexivity.
Qed.

(** Latitude 78°N on 21 June 2013, the night pair (-18°). *)
Lemma getTimes_uncrossed_threshold_witness :
  is_nan (getTimes_j_set Coarse.math PNight 1371816000000 78 16 0) = true /\
  rise_field PNight (getTimes Coarse.math 1371816000000 78 16 0) = 0%Z /\
  set_field PNight (getTimes Coarse.math 1371816000000 78 16 0) = 0%Z.
Proof.
  apply (getTimes_uncrossed_threshold_gives_zero Coarse.math coarse_laws PNight).
  vm_compute. reflexivity.
Defined.

(** C1 as stated fails: the rounded value of a NaN Julian moment is NaN, but
    [fromJulian] returns the integer 0 for it. *)
Lemma fromJulian_does_not_propagate_nan :
  is_nan (fromJulian_f64 nan) = true /\ fromJulian_i64 nan = 0%Z /\ fromJulian nan = 0%Z.
Proof. repeat split. Qed.

(** ** [getMoonIllumination] has no fallback *)

Lemma toDays_nan : toDays nan = nan.
Proof. reflexivity. Qed.

Lemma sunCoords_nan M (L : MathLaws M) :
  declination_ (sunCoords M nan) = nan /\ rightAscension_ (sunCoords M nan) = nan.
Proof.
  unfold sunCoords. simpl declination_. simpl rightAscension_.
  replace (solar_mean_anomaly nan) with nan by reflexivity.
  assert (eclipticLongitude M nan = nan) as ->.
  { unfold eclipticLongitude. rewrite !add_nan_l. reflexivity. }
  unfold declination, rightAscension.
  rewrite (sin_nan M L), (cos_nan M L), mul_nan_r, add_nan_r, (asin_nan M L), (atan2_nan_r M L).
  split; reflexivity.
Qed.

Lemma acos_nan M (L : MathLaws M) : m_acos M nan = nan.
Proof. apply (acos_domain M L). reflexivity. Qed.

Lemma illumination_nan_timestamp M (L : MathLaws M) :
  illum_angle M nan = nan /\ illum_fraction M nan = nan.
Proof.
  destruct (sunCoords_nan M L) as [Hd Hr].
  split.
  - unfold illum_angle. rewrite toDays_nan, Hd, (cos_nan M L), mul_nan_l.
    apply (atan2_nan_l M L).
  - assert (illum_phi M nan = nan) as Hphi.
    { unfold illum_phi. rewrite toDays_nan, Hd, (sin_nan M L), mul_nan_l, add_nan_l.
      apply (acos_nan M L). }
    unfold illum_fraction, illum_inc. rewrite Hphi, (sin_nan M L), mul_nan_r, (atan2_nan_l M L).
    rewrite (cos_nan M L), add_nan_r, div_nan_l. reflexivity.
Qed.

(** C2, as the code has it.  [getMoonIllumination] stores the bright-limb
    angle and the illuminated fraction as computed: when one of them is NaN,
    the field of the returned [Illumination] is that NaN, not 0. *)
Theorem getMoonIllumination_keeps_nan M ts :
  (is_nan (illum_angle M ts) = true ->
   is_nan (angle (getMoonIllumination M ts)) = true /\
   angle (getMoonIllumination M ts) <> 0) /\
  (is_nan (illum_fraction M ts) = true ->
   is_nan (fraction (getMoonIllumination M ts)) = true /\
   fraction (getMoonIllumination M ts) <> 0).
Proof.
  assert (forall x, is_nan x = true -> x <> 0) as Hne.
  { intros x Hx E. rewrite E in Hx. discriminate Hx. }
  split; intros H; (split; [exact H|apply Hne; exact H]).
Qed.

(** A NaN timestamp: both are NaN, and returned as NaN. *)
Lemma getMoonIllumination_keeps_nan_witness :
  (is_nan (angle (getMoonIllumination Coarse.math nan)) = true /\
   angle (getMoonIllumination Coarse.math nan) <> 0) /\
  (is_nan (fraction (getMoonIllumination Coarse.math nan)) = true /\
   fraction (getMoonIllumination Coarse.math nan) <> 0).
Proof.
  destruct (getMoonIllumination_keeps_nan Coarse.math nan) as [A B].
  split; [apply A|apply B]; vm_compute; reflexivity.
Defined.

(** C2 as stated fails for every [Math] that meets the laws: at a NaN
    timestamp the angle and the fraction are NaN and returned as NaN. *)
Lemma getMoonIllumination_nan_not_zero M (L : MathLaws M) :
  is_nan (illum_angle M nan) = true /\ angle (getMoonIllumination M nan) = nan /\
  is_nan (illum_fraction M nan) = true /\ fraction (getMoonIllumination M nan) = nan.
Proof.
  destruct (illumination_nan_timestamp M L) as [A F].
  change (angle (getMoonIllumination M nan)) with (illum_angle M nan).
  change (fraction (getMoonIllumination M nan)) with (illum_fraction M nan).
  rewrite A, F. repeat split.
Qed.

Lemma getMoonIllumination_no_fallback :
  ~ (forall M, MathLaws M -> forall ts,
       (is_nan (illum_angle M ts) = true -> angle (getMoonIllumination M ts) = 0) /\
       (is_nan (illum_fraction M ts) = true -> fraction (getMoonIllumination M ts) = 0)).
Proof.
  intros H. destruct (H Coarse.math coarse_laws nan) as [A _].
  destruct (getMoonIllumination_nan_not_zero Coarse.math coarse_laws) as (N & E & _).
  specialize (A N). rewrite E in A.
  assert (is_nan nan = is_nan 0) as C by (rewrite A; reflexivity).
  discriminate C.
Qed.

(** ** The height correction *)

(** C4.  In [getTimes] the correction [dh = -2.076 * sqrt height / 60] is
    added to the threshold of every one of the six pairs before the hour
    angle is computed: the evening time of each pair is the transit moment
    of the hour angle at altitude [(value + dh) * PI / 180], and the morning
    time is that moment mirrored around noon. *)
Theorem getTimes_height_correction_on_every_pair M (p : Pair) ts lat lon h :
  let dh := -2.076 * sqrt h / 60.0 in
  let h0 := (value (threshold p) + dh) * PI / 180.0 in
  let lw := - lon * TO_RAD in
  let phi := lat * TO_RAD in
  let n := julianCycle (toDays ts) lw in
  let ds := approxTransit 0.0 lw n in
  let m := solar_mean_anomaly ds in
  let l := eclipticLongitude M m in
  let dec := declination M l 0.0 in
  let j_noon := solarTransitJ M ds m l in
  let j_set := solarTransitJ M (approxTransit (hourAngle M h0 phi dec) lw n) m l in
  observerAngle h = dh /\
  set_field p (getTimes M ts lat lon h) = fromJulian j_set /\
  rise_field p (getTimes M ts lat lon h) = fromJulian (j_noon - (j_set - j_noon)).
Proof. destruct p; repeat split. Qed.

(** ** Timestamps are unsigned *)

Lemma to_i64_range x : (F64.i64_min <= F64.to_i64 x <= F64.i64_max)%Z.
Proof.
  unfold F64.to_i64, F64.i64_min, F64.i64_max.
  destruct (Prim2SF x) as [s|s| |s m e]; try lia. destruct s; lia.
Qed.

Lemma as_signed_to_u64 v : (F64.i64_min <= v <= F64.i64_max)%Z ->
  F64.as_signed (F64.to_u64 v) = v.
Proof.
  unfold F64.i64_min, F64.i64_max, F64.as_signed, F64.to_u64. intros H.
  destruct (Z_lt_le_dec v 0) as [N|P].
  - replace (v mod 2 ^ 64)%Z with (v + 2 ^ 64)%Z.
    + destruct (Z.ltb_spec (v + 2 ^ 64) (2 ^ 63)); lia.
    + apply Z.mod_unique with (q := (-1)%Z); lia.
  - rewrite Z.mod_small by lia. destruct (Z.ltb_spec v (2 ^ 63)); lia.
Qed.

Lemma fromJulian_range j : (0 <= fromJulian j < 2 ^ 64)%Z.
Proof. unfold fromJulian, F64.to_u64. apply Z.mod_pos_bound. lia. Qed.

(** C7, as the code has it.  A timestamp returned by [fromJulian], and so
    each of the fourteen fields of [getTimes], is an unsigned 64-bit integer
    ([type Timestamp = u64]): the signed millisecond count the cast produces,
    taken modulo 2^64.  Its signed reading is that count; the value itself is
    never negative. *)
Theorem timestamps_are_unsigned_64_bit :
  (forall j, (0 <= fromJulian j < 2 ^ 64)%Z /\
             fromJulian j = (fromJulian_i64 j mod 2 ^ 64)%Z /\
             F64.as_signed (fromJulian j) = fromJulian_i64 j) /\
  (forall M ts lat lon h,
     Forall (fun v => 0 <= v < 2 ^ 64)%Z (SunTimes_fields (getTimes M ts lat lon h))).
Proof.
  split.
  - intros j. split; [apply fromJulian_range|]. split; [reflexivity|].
    apply as_signed_to_u64. apply to_i64_range.
  - intros. unfold SunTimes_fields, getTimes, calc, at_. simpl.
    repeat constructor; apply fromJulian_range.
Qed.

(** C7 as stated fails: one day before the epoch the count is -43200000
    (noon-based Julian day 2440587), and the timestamp returned is its
    wrap-around 2^64 - 43200000. *)
Lemma fromJulian_before_epoch_wraps :
  fromJulian_i64 2440587 = (-43200000)%Z /\
  fromJulian 2440587 = 18446744073666351616%Z /\
  fromJulian 2440587 = (2 ^ 64 - 43200000)%Z.
Proof. repeat split. Qed.

(** ** The Moon's defensive fallbacks *)

Lemma or_zero_spec x :
  F64.or_zero x = if is_nan x || is_zero x then 0 else x.
Proof. unfold F64.or_zero, F64.truthy. destruct (is_nan x || is_zero x); reflexivity. Qed.

Lemma or_zero_regular x :
  is_nan (F64.or_zero x) = false /\ F64.or_zero x <> neg_zero.
Proof.
  rewrite or_zero_spec. destruct (is_nan x) eqn:N; simpl.
  - split; [reflexivity|]. intros E. apply (f_equal Prim2SF) in E. discriminate E.
  - destruct (is_zero x) eqn:Z.
    + split; [reflexivity|]. intros E. apply (f_equal Prim2SF) in E. discriminate E.
    + split; [exact N|]. intros E. rewrite E in Z. discriminate Z.
Qed.

(** C9.  [moonCoords] stores [distance || 0] and [getMoonPosition] stores
    [c.distance || 0] and [pa || 0]: a NaN or a zero of either sign becomes
    +0, any other value is kept; the stored value is never NaN and never
    -0. *)
Theorem moon_degenerate_values_become_zero M :
  (forall d,
     distance (moonCoords M d) = F64.or_zero (moon_distance M d)) /\
  (forall ts lat lon,
     pos_distance (getMoonPosition M ts lat lon)
       = F64.or_zero (distance (moonCoords M (toDays ts))) /\
     parallacticAngle (getMoonPosition M ts lat lon) = F64.or_zero (moon_pa M ts lat lon)) /\
  (forall x,
     F64.or_zero x = (if is_nan x || is_zero x then 0 else x) /\
     is_nan (F64.or_zero x) = false /\ F64.or_zero x <> neg_zero) /\
  F64.or_zero nan = 0 /\ F64.or_zero neg_zero = 0 /\ F64.or_zero 0 = 0.
Proof.
  repeat split; try reflexivity; try apply or_zero_spec; apply or_zero_regular.
Qed.

(** ** The round trip through Julian days *)

Lemma bpow_m32 : bpow (-32) = (/ 4294967296)%R.
Proof. apply (bpow_neg 32). lia. Qed.

Lemma bpow_m31 : bpow (-31) = (/ 2147483648)%R.
Proof. apply (bpow_neg 31). lia. Qed.

Lemma bpow_m5 : bpow (-5) = (/ 32)%R.
Proof. apply (bpow_neg 5). lia. Qed.

Lemma bpow_m1 : bpow (-1) = (/ 2)%R.
Proof. apply (bpow_neg 1). lia. Qed.

Lemma bpow_21 : bpow 21 = 2097152%R.
Proof. apply (bpow_IZR 21). lia. Qed.

Lemma bpow_22 : bpow 22 = 4194304%R.
Proof. apply (bpow_IZR 22). lia. Qed.

Lemma bpow_48 : bpow 48 = 281474976710656%R.
Proof. apply (bpow_IZR 48). lia. Qed.

Lemma B2R_MS : is_finite MILLISECONDS_PER_DAY = true /\ B2R MILLISECONDS_PER_DAY = 86400000%R.
Proof. apply (B2R_int MILLISECONDS_PER_DAY 86400000 eq_refl). simpl. lia. Qed.

Lemma B2R_J1970 : is_finite J1970 = true /\ B2R J1970 = 2440588%R.
Proof. apply (B2R_int J1970 2440588 eq_refl). simpl. lia. Qed.

(** [toJulian] of a timestamp of the first 2^47 milliseconds: within 2^-30
    day of the exact Julian day, and in the binade of 2^21. *)
Lemma toJulian_error t : (0 <= t < 2 ^ 47)%Z ->
  is_finite (toJulian (F64.of_Z t)) = true /\
  (Rabs (B2R (toJulian (F64.of_Z t)) - (IZR t / 86400000 + 2440587.5)) <= / 1073741824)%R.
Proof.
  intros Ht. unfold toJulian.
  destruct (of_Z_B2R t ltac:(lia)) as [Fx Vx].
  destruct B2R_MS as [FD VD]. destruct B2R_J1970 as [FJ VJ]. destruct B2R_half as [Fh Vh].
  assert (0 <= IZR t < 140737488355328)%R as HT.
  { split; [apply IZR_le; lia|]. apply (IZR_lt t (2 ^ 47)). lia. }
  set (x := F64.of_Z t) in *.
  destruct (faithful_error (B2R x / B2R MILLISECONDS_PER_DAY) (x / MILLISECONDS_PER_DAY) 21)
    as [Fa Ea]; try lia.
  { apply div_faithful; auto. rewrite VD. lra. }
  { rewrite Vx, VD, bpow_21. apply Rabs_def1; lra. }
  rewrite Vx, VD in Ea. replace (21 - 53)%Z with (-32)%Z in Ea by lia. rewrite bpow_m32 in Ea.
  apply Rabs_le_inv in Ea.
  set (a := x / MILLISECONDS_PER_DAY) in *.
  destruct (faithful_error (B2R a - B2R 0.5) (a - 0.5) 21) as [Fb Eb]; try lia.
  { apply sub_faithful; auto. }
  { rewrite Vh, bpow_21. apply Rabs_def1; lra. }
  rewrite Vh in Eb. replace (21 - 53)%Z with (-32)%Z in Eb by lia. rewrite bpow_m32 in Eb.
  apply Rabs_le_inv in Eb.
  set (b := a - 0.5) in *.
  destruct (faithful_error (B2R b + B2R J1970) (b + J1970) 22) as [Fj Ej]; try lia.
  { apply add_faithful; auto. }
  { rewrite VJ, bpow_22. apply Rabs_def1; lra. }
  rewrite VJ in Ej. replace (22 - 53)%Z with (-31)%Z in Ej by lia. rewrite bpow_m31 in Ej.
  apply Rabs_le_inv in Ej.
  split; [exact Fj|]. apply Rabs_le. lra.
Qed.

(** The scaled value [fromJulian] rounds, for a Julian day that close to the
    exact one: within a quarter of a millisecond of the timestamp. *)
Lemma fromJulian_scaled_near j t : (0 <= t < 2 ^ 47)%Z ->
  is_finite j = true ->
  (Rabs (B2R j - (IZR t / 86400000 + 2440587.5)) <= / 1073741824)%R ->
  is_finite (fromJulian_scaled j) = true /\
  (Rabs (B2R (fromJulian_scaled j) - IZR t) <= / 4)%R.
Proof.
  intros Ht Fj Ej. unfold fromJulian_scaled.
  destruct B2R_MS as [FD VD]. destruct B2R_J1970 as [FJ VJ]. destruct B2R_half as [Fh Vh].
  assert (0 <= IZR t < 140737488355328)%R as HT.
  { split; [apply IZR_le; lia|]. apply (IZR_lt t (2 ^ 47)). lia. }
  apply Rabs_le_inv in Ej.
  destruct (finite_grid j 21 Fj) as [n Hn]; [|lia|].
  { rewrite bpow_21. rewrite Rabs_right by lra. lra. }
  replace (21 - 52)%Z with (-31)%Z in Hn by lia.
  assert (B2R j = IZR n / 2147483648)%R as Hn'.
  { rewrite Hn. unfold F2R. rewrite bpow_m31. reflexivity. }
  assert (forall i, F2R i (-31) = IZR i / 2147483648)%R as HF.
  { intros i. unfold F2R. rewrite bpow_m31. reflexivity. }
  assert (0 < n < 2 ^ 53 - 2 ^ 31)%Z as Bn.
  { split.
    - apply lt_IZR. lra.
    - apply lt_IZR. change (2 ^ 53 - 2 ^ 31)%Z with 9007197107257344%Z. lra. }
  (* j + 0.5 is exact *)
  destruct (faithful_value (B2R j + B2R 0.5) (j + 0.5)) as [Fc Vc].
  { apply add_faithful; auto. }
  { replace (B2R j + B2R 0.5)%R with (F2R (n + 2 ^ 30) (-31)).
    - apply representable_F2R; [lia|lia|apply F2R_abs_lt; lia].
    - rewrite HF, plus_IZR, Hn', Vh. change (2 ^ 30)%Z with 1073741824%Z. lra. }
  (* (j + 0.5) - J1970 is exact *)
  destruct (faithful_value (B2R (j + 0.5) - B2R J1970) (j + 0.5 - J1970)) as [Fe Ve].
  { apply sub_faithful; auto. }
  { replace (B2R (j + 0.5) - B2R J1970)%R with (F2R (n + 2 ^ 30 - 2440588 * 2 ^ 31) (-31)).
    - apply representable_F2R; [lia|lia|apply F2R_abs_lt; lia].
    - rewrite HF, minus_IZR, plus_IZR, Vc, Hn', Vh, VJ.
      change (2 ^ 30)%Z with 1073741824%Z. change (2440588 * 2 ^ 31)%Z with 5241122821505024%Z.
      lra. }
  rewrite Vc, Vh, VJ in Ve.
  set (e := j + 0.5 - J1970) in *.
  destruct (faithful_error (B2R e * B2R MILLISECONDS_PER_DAY) (e * MILLISECONDS_PER_DAY) 48)
    as [Ff Ef]; try lia.
  { apply mul_faithful; auto. }
  { rewrite Ve, VD, bpow_48. apply Rabs_def1; lra. }
  rewrite Ve, VD in Ef. replace (48 - 53)%Z with (-5)%Z in Ef by lia. rewrite bpow_m5 in Ef.
  apply Rabs_le_inv in Ef.
  split; [exact Ff|]. apply Rabs_le. lra.
Qed.

(** On the first 2^47 milliseconds after the epoch (until the year 6429) the
    round trip [fromJulian (toJulian t)] returns [t] itself. *)
Lemma fromJulian_toJulian_exact (t : Z) :
  (0 <= t < 2 ^ 47)%Z -> fromJulian (toJulian (F64.of_Z t)) = t.
Proof.
  intros Ht.
  destruct (toJulian_error t Ht) as [Fj Ej].
  destruct (fromJulian_scaled_near _ t Ht Fj Ej) as [Ff Ef].
  apply Rabs_le_inv in Ef.
  destruct (round_spec (fromJulian_scaled (toJulian (F64.of_Z t))) t Ff) as [Fr Vr].
  { assert (2 ^ 47 < 2 ^ 52)%Z by reflexivity. lia. }
  { lra. }
  unfold fromJulian, fromJulian_i64, fromJulian_f64.
  rewrite (to_i64_spec _ t Fr Vr).
  - unfold F64.to_u64. apply Z.mod_small.
    assert (2 ^ 47 < 2 ^ 64)%Z by reflexivity. lia.
  - unfold F64.i64_min, F64.i64_max. assert (2 ^ 47 < 2 ^ 63 - 1)%Z by reflexivity. lia.
Qed.

(** ** Rounding to the millisecond *)

Lemma half_integer_bound x k :
  is_finite x = true -> B2R x = (IZR (2 * k + 1) / 2)%R -> (Z.abs (2 * k + 1) < 2 ^ 53)%Z.
Proof.
  intros F V. rewrite is_finite_spec in F. unfold B2R in V.
  pose proof (Prim2SF_valid x) as Vx.
  destruct (Prim2SF x) as [s| | |s m e]; try discriminate F.
  - change (SF2R (S754_zero s)) with 0%R in V. exfalso.
    assert (IZR (2 * k + 1) = 0)%R as E by lra. apply eq_IZR in E. lia.
  - rewrite SF2R_finite in V. destruct (valid_finite _ _ _ Vx) as (Be & Bm & _).
    assert (F2R (2 * k + 1) (-1) = F2R (cond_Zopp s (Z.pos m)) e) as E.
    { rewrite V. unfold F2R. rewrite bpow_m1. lra. }
    destruct (Z_le_gt_dec e (-1)) as [L|G].
    + rewrite (F2R_change_exp (2 * k + 1) (-1) e L) in E. apply F2R_inj in E.
      assert (0 < 2 ^ (-1 - e))%Z by (apply Z.pow_pos_nonneg; lia).
      unfold cond_Zopp in E. destruct s; nia.
    + exfalso. rewrite (F2R_change_exp (cond_Zopp s (Z.pos m)) e (-1)) in E by lia.
      apply F2R_inj in E.
      assert (2 ^ (e - -1) = 2 * 2 ^ (e - -1 - 1))%Z as P.
      { rewrite <- Z.pow_succ_r by lia. f_equal. lia. }
      rewrite P in E. lia.
Qed.

(** C8, as the code has it.  [fromJulian] rounds with [Math.round], which
    sends a tie to the larger integer: when the scaled value is exactly
    [k + 1/2], the result is [k + 1], for negative values too (toward zero
    there, not away from it). *)
Theorem fromJulian_rounds_half_up j k :
  is_finite (fromJulian_scaled j) = true ->
  B2R (fromJulian_scaled j) = (IZR k + / 2)%R ->
  B2R (fromJulian_f64 j) = IZR (k + 1) /\ fromJulian_i64 j = (k + 1)%Z.
Proof.
  intros F V. unfold fromJulian_i64, fromJulian_f64.
  set (x := fromJulian_scaled j) in *.
  assert (B2R x = IZR (2 * k + 1) / 2)%R as V' by (rewrite V, plus_IZR, mult_IZR; lra).
  pose proof (half_integer_bound x k F V') as Hb.
  assert (2 ^ 53 < 2 ^ 63 - 1)%Z as P by reflexivity.
  destruct B2R_half as [Fh Vh].
  destruct (ceil_spec x (k + 1) F) as [Fc Vc]; [rewrite V, plus_IZR; lra|lia|].
  assert (F64.round x = F64.ceil x) as ->.
  { unfold F64.round.
    destruct (faithful_value (B2R (F64.ceil x) - B2R 0.5) (F64.ceil x - 0.5)) as [Fs Vs].
    - apply sub_faithful; auto.
    - rewrite Vc, Vh, plus_IZR. replace (IZR k + 1 - / 2)%R with (B2R x) by lra.
      apply representable_B2R. exact F.
    - assert ((F64.ceil x - 0.5 <=? x) = true) as ->; [|reflexivity].
      apply leb_R; auto. rewrite Vs, Vc, Vh, V, plus_IZR. lra. }
  split; [exact Vc|]. apply (to_i64_spec _ _ Fc Vc).
  unfold F64.i64_min, F64.i64_max. lia.
Qed.

(** The Julian day 2440587.49951171875: the scaled value is -42187.5. *)
Lemma fromJulian_rounds_half_up_witness :
  B2R (fromJulian_f64 0x1.29ec5bffp+21) = IZR (-42188 + 1) /\
  fromJulian_i64 0x1.29ec5bffp+21 = (-42188 + 1)%Z.
Proof.
  apply (fromJulian_rounds_half_up 0x1.29ec5bffp+21 (-42188)).
  - reflexivity.
  - replace (fromJulian_scaled 0x1.29ec5bffp+21) with (-42187.5)%float by reflexivity.
    destruct (B2R_dyadic (-42187.5)%float (-84375) 1 eq_refl ltac:(lia) ltac:(simpl; lia)) as [_ E].
    rewrite E. change (2 ^ 1)%Z with 2%Z. lra.
Defined.

(** C8 as stated fails: at that Julian day the scaled value is exactly
    -42187.5 and the result is -42187, the integer nearer to zero. *)
Lemma fromJulian_negative_half :
  fromJulian_scaled 0x1.29ec5bffp+21 = (-42187.5)%float /\
  fromJulian_f64 0x1.29ec5bffp+21 = (-42187)%float /\
  fromJulian_i64 0x1.29ec5bffp+21 = (-42187)%Z.
Proof. repeat split. Qed.

(** ** The distance of the Moon *)

Lemma B2R_opp x : is_finite (- x) = is_finite x /\ B2R (- x) = (- B2R x)%R.
Proof.
  rewrite !is_finite_spec. unfold B2R. rewrite opp_spec.
  destruct (Prim2SF x) as [s| | |s m e]; simpl; split; try reflexivity; try lra.
  rewrite !F2R_cond. destruct s; simpl; lra.
Qed.

Lemma B2R_20905 : is_finite 20905.0 = true /\ B2R 20905.0 = 20905%R.
Proof. apply (B2R_int 20905.0 20905 eq_refl). simpl. lia. Qed.

Lemma B2R_385001 : is_finite 385001.0 = true /\ B2R 385001.0 = 385001%R.
Proof. apply (B2R_int 385001.0 385001 eq_refl). simpl. lia. Qed.

Lemma B2R_364096 : is_finite 364096 = true /\ B2R 364096 = 364096%R.
Proof. apply (B2R_int 364096 364096 eq_refl). simpl. lia. Qed.

Lemma B2R_405906 : is_finite 405906 = true /\ B2R 405906 = 405906%R.
Proof. apply (B2R_int 405906 405906 eq_refl). simpl. lia. Qed.

Lemma B2R_m1 : is_finite (-1.0) = true /\ B2R (-1.0) = (-1)%R.
Proof. apply (B2R_int (-1.0) (-1) eq_refl). simpl. lia. Qed.

Lemma B2R_two : is_finite 2.0 = true /\ B2R 2.0 = 2%R.
Proof. apply (B2R_int 2.0 2 eq_refl). simpl. lia. Qed.

(** A float between two finite floats is finite, with its value between
    theirs. *)
Lemma leb_between x a b :
  is_finite a = true -> is_finite b = true -> (a <=? x) = true -> (x <=? b) = true ->
  is_finite x = true /\ (B2R a <= B2R x <= B2R b)%R.
Proof.
  intros Fa Fb Ha Hb. pose proof (leb_bounds_finite x a b Fa Fb Ha Hb) as Fx.
  split; [exact Fx|]. split; apply leb_R; assumption.
Qed.

Lemma between_leb x a b :
  is_finite a = true -> is_finite b = true ->
  is_finite x = true /\ (B2R a <= B2R x <= B2R b)%R ->
  (a <=? x) = true /\ (x <=? b) = true.
Proof. intros Fa Fb [Fx [L U]]. split; apply leb_R; assumption. Qed.

(** The cosine of a finite argument, as the laws give it. *)
Lemma cos_value_range M (L : MathLaws M) x :
  is_nan (m_cos M x) = false ->
  is_finite (m_cos M x) = true /\ (-1 <= B2R (m_cos M x) <= 1)%R.
Proof.
  intros N. destruct (cos_range M L x N) as [Lo Hi].
  destruct B2R_m1 as [Fm Vm]. destruct B2R_one as [F1 V1].
  destruct (leb_between _ _ _ Fm F1 Lo Hi) as [F B]. rewrite Vm, V1 in B. auto.
Qed.

Lemma moon_distance_value_range M (L : MathLaws M) d :
  is_finite (lunarMeanAnomaly d) = true ->
  is_finite (moon_distance M d) = true /\ (364096 <= B2R (moon_distance M d) <= 405906)%R.
Proof.
  intros F. unfold moon_distance.
  destruct (cos_value_range M L _ (cos_finite M L _ F)) as [Fc Bc].
  destruct B2R_20905 as [Fk Vk]. destruct B2R_385001 as [Fa Va].
  destruct B2R_364096 as [Flo Vlo]. destruct B2R_405906 as [Fhi Vhi].
  destruct (B2R_opp 20905.0) as [Fn Vn]. rewrite Fk in Fn. rewrite Vk in Vn.
  destruct (faithful_between _ _ _ _
              (mul_faithful 20905.0 (m_cos M (lunarMeanAnomaly d)) Fk Fc) Fn Fk) as [Fp Bp].
  { rewrite Vn, Vk. nra. }
  rewrite Vn, Vk in Bp.
  destruct (faithful_between _ _ 364096 405906
              (sub_faithful 385001.0 _ Fa Fp) Flo Fhi) as [Fd Bd].
  { rewrite Vlo, Vhi, Va. lra. }
  rewrite Vlo, Vhi in Bd. auto.
Qed.

(** C10, as the code has it.  For every day value [d] whose lunar mean
    anomaly is finite, the distance [moonCoords] returns is
    [385001 - 20905 * cos (lunarMeanAnomaly d)], untouched by [|| 0], and
    lies in [364096, 405906]. *)
Theorem moonCoords_distance_range M (L : MathLaws M) d :
  is_finite (lunarMeanAnomaly d) = true ->
  distance (moonCoords M d) = 385001.0 - 20905.0 * m_cos M (lunarMeanAnomaly d) /\
  (364096 <=? distance (moonCoords M d)) = true /\
  (distance (moonCoords M d) <=? 405906) = true.
Proof.
  intros F. destruct (moon_distance_value_range M L d F) as [Fd Bd].
  destruct B2R_364096 as [Flo Vlo]. destruct B2R_405906 as [Fhi Vhi].
  change (distance (moonCoords M d)) with (F64.or_zero (moon_distance M d)).
  assert (F64.or_zero (moon_distance M d) = moon_distance M d) as ->.
  { rewrite or_zero_spec, (is_nan_false_finite _ Fd). simpl.
    destruct (is_zero (moon_distance M d)) eqn:Z; [|reflexivity].
    unfold is_zero in Z. apply eqb_R in Z; [|exact Fd|reflexivity].
    change (B2R zero) with 0%R in Z. lra. }
  split; [reflexivity|]. apply between_leb; auto. rewrite Vlo, Vhi. auto.
Qed.

(** Day 4919.5 after J2000. *)
Lemma moonCoords_distance_range_witness :
  distance (moonCoords Coarse.math 4919.5)
    = 385001.0 - 20905.0 * m_cos Coarse.math (lunarMeanAnomaly 4919.5) /\
  (364096 <=? distance (moonCoords Coarse.math 4919.5)) = true /\
  (distance (moonCoords Coarse.math 4919.5) <=? 405906) = true.
Proof.
  apply (moonCoords_distance_range Coarse.math coarse_laws 4919.5). reflexivity.
Defined.

(** At the finite day value 1e308 the mean anomaly overflows to infinity,
    its cosine is NaN, and [|| 0] stores 0. *)
Lemma moonCoords_overflow M (L : MathLaws M) :
  is_finite 1e308 = true /\ lunarMeanAnomaly 1e308 = infinity /\
  distance (moonCoords M 1e308) = 0.
Proof.
  split; [reflexivity|]. split; [reflexivity|].
  unfold moonCoords. simpl distance.
  replace (lunarMeanAnomaly 1e308) with infinity by reflexivity.
  rewrite (cos_inf M L infinity eq_refl), mul_nan_r, sub_nan_r. reflexivity.
Qed.

(** C10 as stated fails: for the finite day value 1e308 the distance
    returned is 0, outside [364096, 405906]. *)
Lemma moonCoords_distance_not_for_every_finite_day :
  ~ (forall M, MathLaws M -> forall d, is_finite d = true ->
       (364096 <=? distance (moonCoords M d)) = true).
Proof.
  intros H. specialize (H Coarse.math coarse_laws 1e308 eq_refl).
  destruct (moonCoords_overflow Coarse.math coarse_laws) as (_ & _ & E).
  rewrite E in H. discriminate H.
Qed.

(** ** The ranges of the illumination *)

Lemma B2R_PI : is_finite PI = true /\ B2R PI = (7074237752028440 / 2251799813685248)%R.
Proof. apply (B2R_dyadic PI 7074237752028440 51 eq_refl); [lia|simpl; lia]. Qed.

Lemma B2R_half_pi :
  is_finite 0x1.921fb54442d18p+0 = true /\
  B2R 0x1.921fb54442d18p+0 = (7074237752028440 / 4503599627370496)%R.
Proof. apply (B2R_dyadic 0x1.921fb54442d18p+0 7074237752028440 52 eq_refl); [lia|simpl; lia]. Qed.

Lemma fraction_range M (L : MathLaws M) inc :
  is_nan ((1.0 + m_cos M inc) / 2.0) = false ->
  (0 <=? (1.0 + m_cos M inc) / 2.0) = true /\ ((1.0 + m_cos M inc) / 2.0 <=? 1.0) = true.
Proof.
  intros N.
  assert (is_nan (m_cos M inc) = false) as Nc.
  { destruct (is_nan (m_cos M inc)) eqn:E; [|reflexivity].
    apply is_nan_eq in E. rewrite E, add_nan_r, div_nan_l in N. discriminate N. }
  destruct (cos_value_range M L inc Nc) as [Fc Bc].
  destruct B2R_one as [F1 V1]. destruct B2R_two as [F2 V2].
  assert (is_finite 0 = true) as F0 by reflexivity.
  destruct (faithful_between _ _ 0 2.0 (add_faithful 1.0 (m_cos M inc) F1 Fc) F0 F2) as [Fs Bs].
  { rewrite B2R_zero, V1, V2. lra. }
  rewrite B2R_zero, V2 in Bs.
  assert (B2R 2.0 <> 0%R) as N2 by (rewrite V2; lra).
  destruct (faithful_between _ _ 0 1.0 (div_faithful _ 2.0 Fs F2 N2) F0 F1) as [Ff Bf].
  { rewrite B2R_zero, V1, V2. lra. }
  apply between_leb; auto.
Qed.

Lemma phase_range M (L : MathLaws M) y x (sign : float) :
  sign = -1.0 \/ sign = 1.0 ->
  is_nan (0.5 + 0.5 * m_atan2 M y x * sign / PI) = false ->
  (0 <=? 0.5 + 0.5 * m_atan2 M y x * sign / PI) = true /\
  (0.5 + 0.5 * m_atan2 M y x * sign / PI <=? 1.0) = true.
Proof.
  intros Hs N. set (inc := m_atan2 M y x) in *.
  assert (is_nan inc = false) as Ni.
  { destruct (is_nan inc) eqn:E; [|reflexivity].
    apply is_nan_eq in E. rewrite E, mul_nan_r, mul_nan_l, div_nan_l, add_nan_r in N.
    discriminate N. }
  destruct (atan2_range M L y x Ni) as [Lo Hi]. fold inc in Lo, Hi.
  destruct B2R_PI as [Fpi Vpi]. destruct (B2R_opp PI) as [Fnpi Vnpi]. rewrite Fpi in Fnpi.
  destruct (leb_between _ _ _ Fnpi Fpi Lo Hi) as [Fi Bi]. rewrite Vnpi, Vpi in Bi.
  destruct B2R_half as [Fh Vh]. destruct B2R_one as [F1 V1]. destruct B2R_m1 as [Fm1 Vm1].
  destruct B2R_half_pi as [Fhp Vhp].
  destruct (B2R_opp 0x1.921fb54442d18p+0) as [Fnhp Vnhp]. rewrite Fhp in Fnhp. rewrite Vhp in Vnhp.
  destruct (B2R_opp 0.5) as [Fnh Vnh]. rewrite Fh in Fnh. rewrite Vh in Vnh.
  assert (is_finite 0 = true) as F0 by reflexivity.
  (* 0.5 * inc *)
  destruct (faithful_between _ _ _ _ (mul_faithful 0.5 inc Fh Fi) Fnhp Fhp) as [Fu Bu].
  { rewrite Vnhp, Vhp, Vh. lra. }
  rewrite Vnhp, Vhp in Bu.
  (* ... * sign *)
  assert (is_finite sign = true /\ (B2R sign = -1 \/ B2R sign = 1)%R) as [Fsg Vsg].
  { destruct Hs as [->| ->]; [rewrite Vm1|rewrite V1]; auto. }
  destruct (faithful_between _ _ _ _ (mul_faithful (0.5 * inc) sign Fu Fsg) Fnhp Fhp) as [Fw Bw].
  { rewrite Vnhp, Vhp. destruct Vsg as [->| ->]; lra. }
  rewrite Vnhp, Vhp in Bw.
  (* ... / PI *)
  assert (B2R PI <> 0%R) as Npi by (rewrite Vpi; lra).
  destruct (faithful_between _ _ _ _ (div_faithful (0.5 * inc * sign) PI Fw Fpi Npi) Fnh Fh)
    as [Fz Bz].
  { rewrite Vnh, Vh, Vpi. lra. }
  rewrite Vnh, Vh in Bz.
  (* 0.5 + ... *)
  destruct (faithful_between _ _ 0 1.0 (add_faithful 0.5 _ Fh Fz) F0 F1) as [Fp Bp].
  { rewrite B2R_zero, V1, Vh. lra. }
  apply between_leb; auto.
Qed.

(** C5.  Whenever the fraction and the phase [getMoonIllumination] returns
    are not NaN, both lie in [0, 1]. *)
Theorem illumination_fraction_and_phase_in_unit_interval M (L : MathLaws M) ts :
  is_nan (fraction (getMoonIllumination M ts)) = false ->
  is_nan (phase (getMoonIllumination M ts)) = false ->
  ((0 <=? fraction (getMoonIllumination M ts)) = true /\
   (fraction (getMoonIllumination M ts) <=? 1.0) = true) /\
  ((0 <=? phase (getMoonIllumination M ts)) = true /\
   (phase (getMoonIllumination M ts) <=? 1.0) = true).
Proof.
  intros Nf Np. split.
  - apply (fraction_range M L _ Nf).
  - unfold getMoonIllumination, phase in *.
    apply (phase_range M L); [|exact Np].
    match goal with |- context [if ?c then _ else _] => destruct c end; auto.
Qed.

(** 21 June 2013, 12:00 UTC. *)
Lemma illumination_in_unit_interval_witness :
  ((0 <=? fraction (getMoonIllumination Coarse.math 1371816000000)) = true /\
   (fraction (getMoonIllumination Coarse.math 1371816000000) <=? 1.0) = true) /\
  ((0 <=? phase (getMoonIllumination Coarse.math 1371816000000)) = true /\
   (phase (getMoonIllumination Coarse.math 1371816000000) <=? 1.0) = true).
Proof.
  apply (illumination_fraction_and_phase_in_unit_interval Coarse.math coarse_laws 1371816000000);
    vm_compute; reflexivity.
Defined.

(** ** The mirrored rise moment *)

Lemma B2R_pow21 : is_finite 0x1p+21 = true /\ B2R 0x1p+21 = 2097152%R.
Proof. apply (B2R_int 0x1p+21 2097152 eq_refl). simpl. lia. Qed.

Lemma B2R_pow22 : is_finite 0x1p+22 = true /\ B2R 0x1p+22 = 4194304%R.
Proof. apply (B2R_int 0x1p+22 4194304 eq_refl). simpl. lia. Qed.

(** A finite float of the binade [2^21, 2^22) is a multiple of 2^-31. *)
Lemma binade_21_grid x :
  is_finite x = true -> (2097152 <= B2R x < 4194304)%R ->
  exists n, B2R x = F2R n (-31) /\ (2 ^ 52 <= n < 2 ^ 53)%Z.
Proof.
  intros F B. destruct (finite_grid x 21 F) as [n Hn]; [|lia|].
  { rewrite bpow_21, Rabs_right by lra. lra. }
  replace (21 - 52)%Z with (-31)%Z in Hn by lia. exists n. split; [exact Hn|].
  rewrite Hn in B. unfold F2R in B. rewrite bpow_m31 in B.
  split.
  - apply le_IZR. change (2 ^ 52)%Z with 4503599627370496%Z. lra.
  - apply lt_IZR. change (2 ^ 53)%Z with 9007199254740992%Z. lra.
Qed.

Lemma finite_min_grid x : is_finite x = true -> exists n, B2R x = F2R n (-1074).
Proof.
  intros F. rewrite is_finite_spec in F. unfold B2R. pose proof (Prim2SF_valid x) as V.
  destruct (Prim2SF x) as [s| | |s m e]; try discriminate.
  - exists 0%Z. simpl. rewrite F2R_0. reflexivity.
  - destruct (valid_finite _ _ _ V) as (Be & _). rewrite SF2R_finite.
    eexists. apply F2R_change_exp. lia.
Qed.

(** A finite float not below a positive one in magnitude is on its grid. *)
Lemma coarser_grid x y :
  is_finite x = true -> is_finite y = true -> (0 < B2R x <= B2R y)%R ->
  exists m e n, B2R x = F2R m e /\ B2R y = F2R n e /\
                (0 < m < 2 ^ 53)%Z /\ (-1074 <= e)%Z.
Proof.
  intros Fx Fy H. pose proof (Prim2SF_valid x) as V.
  rewrite is_finite_spec in Fx. set (Y := B2R y) in *. unfold B2R in H |- *.
  destruct (Prim2SF x) as [s| | |s m e]; try discriminate; [simpl in H; lra|].
  destruct (valid_finite _ _ _ V) as (Be & Bm & Bn & _).
  rewrite SF2R_finite in H |- *.
  assert (s = false) as ->.
  { destruct s; [|reflexivity]. exfalso. simpl cond_Zopp in H.
    rewrite F2R_neg in H. pose proof (F2R_pos (Zpos m) e ltac:(lia)). lra. }
  simpl cond_Zopp in H |- *. subst Y.
  assert (exists n, B2R y = F2R n e) as [n Hn].
  { destruct Bn as [Nm|Se].
    - destruct (finite_grid y (e + 52) Fy) as [n Hn]; [|lia|].
      + assert (bpow (e + 52) <= F2R (Zpos m) e)%R.
        { unfold F2R. rewrite bpow_add, (bpow_IZR 52) by lia.
          apply IZR_le in Nm. pose proof (bpow_pos e). nra. }
        rewrite Rabs_right by lra. lra.
      + exists n. rewrite Hn. f_equal. lia.
    - rewrite Se. apply finite_min_grid. exact Fy. }
  exists (Zpos m), e, n. repeat split; auto; lia.
Qed.

(** The mirroring step when the set moment is between a positive noon and
    its double: the three subtractions are exact. *)
Lemma mirror_exact_positive (j_noon j_set : float) :
  is_finite j_set = true -> (0 <? j_noon) = true ->
  (j_noon <=? j_set) = true -> (j_set <=? 2 * j_noon) = true ->
  (j_noon - (j_noon - (j_set - j_noon)) =? j_set - j_noon) = true.
Proof.
  intros Fs H0 H1 H2.
  assert (is_finite 0 = true) as F0 by reflexivity.
  assert ((j_set <=? j_set) = true) as Hs by (apply leb_R; auto; lra).
  destruct (leb_chain_finite 0 j_noon j_set j_set F0 Fs (ltb_leb _ _ H0) H1 Hs) as [Fn _].
  apply ltb_R in H0; auto. rewrite B2R_zero in H0. apply leb_R in H1; auto.
  destruct (coarser_grid j_noon j_set Fn Fs (conj H0 H1)) as (m & e & n2 & E1 & E2 & Bm & Be).
  pose proof (representable_lt _ (representable_B2R _ Fn)) as Ln.
  assert (B2R j_set <= 2 * B2R j_noon)%R as H3.
  { destruct (Rlt_dec (2 * B2R j_noon) (bpow 1024)) as [Small|Large].
    - destruct B2R_two as [F2 V2].
      destruct (faithful_value (B2R 2 * B2R j_noon) (2 * j_noon)) as [Fd Vd].
      + apply mul_faithful; auto.
      + rewrite V2, E1, <- F2R_double. apply representable_F2R; [lia|lia|].
        rewrite F2R_double, <- E1, Rabs_right by lra. exact Small.
      + apply leb_R in H2; auto. rewrite Vd, V2 in H2. exact H2.
    - pose proof (representable_lt _ (representable_B2R _ Fs)). lra. }
  assert (m <= n2 <= 2 * m)%Z as Bn.
  { split; apply (F2R_le_inv _ _ e).
    - rewrite <- E1, <- E2. exact H1.
    - replace (2 * m)%Z with (m + m)%Z by lia. rewrite F2R_plus, <- E1, <- E2. lra. }
  assert (forall i, (0 <= i <= m)%Z -> representable (F2R i e)) as Rep.
  { intros i Hi. apply representable_F2R; [lia|exact Be|].
    pose proof (F2R_nonneg i e ltac:(lia)). pose proof (F2R_le i m e ltac:(lia)).
    rewrite Rabs_right by lra. rewrite <- E1 in *. lra. }
  (* j_set - j_noon *)
  destruct (faithful_value (B2R j_set - B2R j_noon) (j_set - j_noon)) as [Fd Vd].
  { apply sub_faithful; auto. }
  { rewrite E1, E2, <- F2R_minus. apply Rep. lia. }
  (* j_rise = j_noon - (j_set - j_noon) *)
  destruct (faithful_value (B2R j_noon - B2R (j_set - j_noon)) (j_noon - (j_set - j_noon)))
    as [Fr Vr].
  { apply sub_faithful; auto. }
  { rewrite Vd, E1, E2, <- !F2R_minus. apply Rep. lia. }
  (* j_noon - j_rise *)
  destruct (faithful_value (B2R j_noon - B2R (j_noon - (j_set - j_noon)))
              (j_noon - (j_noon - (j_set - j_noon)))) as [Fq Vq].
  { apply sub_faithful; auto. }
  { rewrite Vr, Vd, E1, E2, <- !F2R_minus. apply Rep. lia. }
  apply eqb_R; auto. rewrite Vq, Vr, Vd. lra.
Qed.

(** C6, as the code has it.  For every threshold whose set moment is finite
    and lies between noon and twice noon, noon being a positive Julian day,
    the mirrored rise moment satisfies [j_noon - j_rise == j_set - j_noon]
    exactly: the three subtractions do not round. *)
Theorem calc_rise_mirrors_set M (this : SunTime) j_noon dh lw phi dec n m l :
  is_finite (calc_j_set M this dh lw phi dec n m l) = true ->
  (0 <? j_noon) = true ->
  (j_noon <=? calc_j_set M this dh lw phi dec n m l) = true ->
  (calc_j_set M this dh lw phi dec n m l <=? 2 * j_noon) = true ->
  (j_noon - calc_j_rise M this j_noon dh lw phi dec n m l
   =? calc_j_set M this dh lw phi dec n m l - j_noon) = true.
Proof. intros F H0 H1 H2. unfold calc_j_rise. apply mirror_exact_positive; assumption. Qed.

(** Sunset of 21 June 2013 at 50.5°N 30.5°E. *)
Lemma calc_rise_mirrors_set_witness :
  (getTimes_j_noon Coarse.math 1371816000000 30.5
   - getTimes_j_rise Coarse.math PSunrise 1371816000000 50.5 30.5 0
   =? getTimes_j_set Coarse.math PSunrise 1371816000000 50.5 30.5 0
      - getTimes_j_noon Coarse.math 1371816000000 30.5) = true.
Proof.
  apply (calc_rise_mirrors_set Coarse.math SUNRISE_SUNSET
           (getTimes_j_noon Coarse.math 1371816000000 30.5)); vm_compute; reflexivity.
Defined.

(** When the threshold is never crossed both differences are NaN, and NaN
    is not equal to itself. *)
Lemma mirror_undefined M (L : MathLaws M) this j_noon dh lw phi dec n m l :
  acos_undefined (hourAngle_arg M (calc_h0 this dh) phi dec) = true ->
  (j_noon - calc_j_rise M this j_noon dh lw phi dec n m l
   =? calc_j_set M this dh lw phi dec n m l - j_noon) = false.
Proof.
  intros H. unfold calc_j_rise.
  destruct (calc_undefined M L this j_noon dh lw phi dec n m l H) as [-> _].
  rewrite sub_nan_l, !sub_nan_r. reflexivity.
Qed.

(** C6 as stated fails: at 78°N on 21 June 2013 the night threshold is
    never crossed, and the equality of the two differences is false. *)
Lemma mirror_symmetry_fails_when_undefined :
  ~ (forall M, MathLaws M -> forall this j_noon dh lw phi dec n m l,
       (j_noon - calc_j_rise M this j_noon dh lw phi dec n m l
        =? calc_j_set M this dh lw phi dec n m l - j_noon) = true).
Proof.
  intros H.
  specialize (H Coarse.math coarse_laws NIGHT_END_NIGHT
                (getTimes_j_noon Coarse.math 1371816000000 16) (observerAngle 0)
                (getTimes_lw 16) (78 * TO_RAD) (getTimes_dec Coarse.math 1371816000000 16)
                (getTimes_n 1371816000000 16) (getTimes_m 1371816000000 16)
                (getTimes_l Coarse.math 1371816000000 16)).
  rewrite mirror_undefined in H; [discriminate H|exact coarse_laws|].
  vm_compute. reflexivity.
Qed.

(** C6 as stated fails on a solved threshold too.  For the sunrise and
    sunset pair on the equator at Julian day 0 (timestamp -210866803200000)
    the set moment is finite, about -0.7412, noon is about -0.9935, and the
    two differences differ in their last bit: the moments straddle the
    binades of 2^-1 and 2^0, so the subtractions are rounded. *)
Lemma mirror_symmetry_fails_on_early_dates :
  ~ (forall M, MathLaws M -> forall p timestamp lat lon h,
       is_finite (getTimes_j_set M p timestamp lat lon h) = true ->
       (getTimes_j_noon M timestamp lon - getTimes_j_rise M p timestamp lat lon h
        =? getTimes_j_set M p timestamp lat lon h - getTimes_j_noon M timestamp lon) = true).
Proof.
  intros H.
  specialize (H Coarse.math coarse_laws PSunrise (-210866803200000) 0 0 0).
  vm_compute in H. specialize (H eq_refl). discriminate H.
Qed.

(** * Further properties of the module *)

(** ** Inputs that are not numbers *)

Lemma opp_nan : (- nan)%float = nan.
Proof. reflexivity. Qed.

Lemma round_nan : F64.round nan = nan.
Proof. reflexivity. Qed.

(** The cycle number, and with it every local of [getTimes], is NaN as soon
    as the day or the longitude term is. *)
Lemma julianCycle_nan d lw : is_nan d = true \/ is_nan lw = true -> julianCycle d lw = nan.
Proof.
  intros [H|H]; apply is_nan_eq in H; subst; unfold julianCycle.
  - rewrite !sub_nan_l. reflexivity.
  - rewrite div_nan_l, sub_nan_r. reflexivity.
Qed.

Lemma getTimes_n_nan ts lon :
  is_nan ts = true \/ is_nan lon = true -> getTimes_n ts lon = nan.
Proof.
  intros H. unfold getTimes_n. apply julianCycle_nan.
  destruct H as [H|H]; apply is_nan_eq in H; subst.
  - left. rewrite toDays_nan. reflexivity.
  - right. unfold getTimes_lw. rewrite opp_nan, mul_nan_l. reflexivity.
Qed.

Lemma approxTransit_nan_n h lw : approxTransit h lw nan = nan.
Proof. unfold approxTransit. apply add_nan_r. Qed.

Lemma solarTransitJ_nan_ds M m l : solarTransitJ M nan m l = nan.
Proof. unfold solarTransitJ. rewrite add_nan_r, add_nan_l, sub_nan_l. reflexivity. Qed.

Lemma getTimes_fields_eq M ts lat lon h :
  SunTimes_fields (getTimes M ts lat lon h) =
  fromJulian (getTimes_j_noon M ts lon) :: fromJulian (getTimes_j_noon M ts lon - 0.5) ::
  concat (map (fun p => [fromJulian (getTimes_j_rise M p ts lat lon h);
                         fromJulian (getTimes_j_set M p ts lat lon h)])
              [PSunrise; PSunriseEnd; PDawn; PNautical; PNight; PGolden]).
Proof. reflexivity. Qed.

(** X1: a NaN timestamp or longitude.  Every one of the fourteen timestamps
    [getTimes] returns is 0 then, whatever [Math] computes: the NaN reaches
    each Julian moment through the cycle number, and [fromJulian] casts it
    to 0. *)
Theorem getTimes_nan_input_gives_zeros M ts lat lon h :
  is_nan ts = true \/ is_nan lon = true ->
  Forall (fun v => v = 0%Z) (SunTimes_fields (getTimes M ts lat lon h)).
Proof.
  intros H. pose proof (getTimes_n_nan ts lon H) as Hn.
  assert (getTimes_j_noon M ts lon = nan) as Hnoon.
  { unfold getTimes_j_noon. rewrite Hn, approxTransit_nan_n. apply solarTransitJ_nan_ds. }
  assert (forall p, getTimes_j_set M p ts lat lon h = nan) as Hset.
  { intros p. unfold getTimes_j_set, calc_j_set, get_set_j.
    rewrite Hn, approxTransit_nan_n. apply solarTransitJ_nan_ds. }
  assert (forall p, getTimes_j_rise M p ts lat lon h = nan) as Hrise.
  { intros p. unfold getTimes_j_rise, calc_j_rise. fold (getTimes_j_set M p ts lat lon h).
    rewrite Hnoon. apply sub_nan_l. }
  rewrite getTimes_fields_eq, Hnoon. simpl concat.
  rewrite !Hset, !Hrise, sub_nan_l, fromJulian_nan.
  repeat constructor.
Qed.

Lemma getTimes_nan_input_witness :
  Forall (fun v => v = 0%Z) (SunTimes_fields (getTimes Coarse.math nan 50.5 30.5 0)).
Proof. apply getTimes_nan_input_gives_zeros. left. reflexivity. Defined.

(** ** The observer height *)

(** [f64.sqrt] of a negative number, [-infinity] included, is NaN. *)
Lemma sqrt_negative h : (h <? 0) = true -> sqrt h = nan.
Proof.
  intros H. apply is_nan_eq. rewrite is_nan_spec, sqrt_spec.
  rewrite ltb_spec in H. change (Prim2SF 0) with (S754_zero false) in H.
  destruct (Prim2SF h) as [s|s| |s m e]; try discriminate H.
  - destruct s; [reflexivity|discriminate H].
  - destruct s; [reflexivity|discriminate H].
Qed.

Lemma observerAngle_undefined h :
  (h <? 0) = true \/ is_nan h = true -> observerAngle h = nan.
Proof.
  intros [H|H]; unfold observerAngle.
  - rewrite (sqrt_negative h H), mul_nan_r, div_nan_l. reflexivity.
  - apply is_nan_eq in H. subst h. reflexivity.
Qed.

Lemma hourAngle_arg_nan M (L : MathLaws M) h phi dec :
  is_nan h = true \/ is_nan phi = true ->
  acos_undefined (hourAngle_arg M h phi dec) = true.
Proof.
  intros [H|H]; apply is_nan_eq in H; subst; unfold hourAngle_arg;
    rewrite (sin_nan M L).
  - rewrite sub_nan_l, div_nan_l. reflexivity.
  - rewrite mul_nan_l, sub_nan_r, div_nan_l. reflexivity.
Qed.

(** X2: a height below zero, a NaN height or a NaN latitude.  No threshold
    has an hour angle then ([sqrt] of a negative height is NaN, and the NaN
    reaches the [acos] argument), so the twelve rise and set timestamps are
    0; solar noon and nadir use neither the latitude nor the height and are
    those of any other observer on the meridian. *)
Theorem getTimes_undefined_height_or_latitude M (L : MathLaws M) ts lat lon h :
  (h <? 0) = true \/ is_nan h = true \/ is_nan lat = true ->
  (forall p, rise_field p (getTimes M ts lat lon h) = 0%Z /\
             set_field p (getTimes M ts lat lon h) = 0%Z) /\
  (forall lat' h', solarNoon (getTimes M ts lat lon h) = solarNoon (getTimes M ts lat' lon h') /\
                   nadir (getTimes M ts lat lon h) = nadir (getTimes M ts lat' lon h')).
Proof.
  intros H. split; [|intros lat' h'; unfold getTimes; cbv zeta; cbn [solarNoon nadir];
                    split; reflexivity].
  intros p.
  assert (acos_undefined (hourAngle_arg M (calc_h0 (threshold p) (observerAngle h))
                            (lat * TO_RAD) (getTimes_dec M ts lon)) = true) as Hu.
  { apply (hourAngle_arg_nan M L).
    destruct H as [H|[H|H]].
    - left. rewrite (observerAngle_undefined h (or_introl H)). unfold calc_h0.
      rewrite add_nan_r, mul_nan_l, div_nan_l. reflexivity.
    - left. rewrite (observerAngle_undefined h (or_intror H)). unfold calc_h0.
      rewrite add_nan_r, mul_nan_l, div_nan_l. reflexivity.
    - right. apply is_nan_eq in H. subst lat. rewrite mul_nan_l. reflexivity. }
  destruct (calc_undefined M L (threshold p) (getTimes_j_noon M ts lon) (observerAngle h)
              (getTimes_lw lon) (lat * TO_RAD) (getTimes_dec M ts lon) (getTimes_n ts lon)
              (getTimes_m ts lon) (getTimes_l M ts lon) Hu) as [_ Hc].
  pose proof (getTimes_pair M p ts lat lon h) as Hp. rewrite Hc in Hp.
  injection Hp as -> ->. split; reflexivity.
Qed.

(** An observer 10 m below the reference level, 21 June 2013, 50.5°N 30.5°E:
    solar noon is computed, sunrise and sunset are 0. *)
Lemma getTimes_undefined_height_witness :
  (rise_field PSunrise (getTimes Coarse.math 1371816000000 50.5 30.5 (-10)) = 0%Z /\
   set_field PSunrise (getTimes Coarse.math 1371816000000 50.5 30.5 (-10)) = 0%Z) /\
  solarNoon (getTimes Coarse.math 1371816000000 50.5 30.5 (-10)) <> 0%Z.
Proof.
  split.
  - apply (getTimes_undefined_height_or_latitude Coarse.math coarse_laws
             1371816000000 50.5 30.5 (-10)).
    left. vm_compute. reflexivity.
  - vm_compute. discriminate.
Defined.

(** [x + -0] is [x] for every [x], the two zeros included. *)
Lemma add_neg_zero x : x + neg_zero = x.
Proof.
  rewrite <- (SF2Prim_Prim2SF (x + neg_zero)), add_spec.
  change (Prim2SF neg_zero) with (S754_zero true).
  rewrite <- (SF2Prim_Prim2SF x) at 2.
  destruct (Prim2SF x) as [s|s| |s m e]; try reflexivity.
  destruct s; reflexivity.
Qed.

(** X3: height 0, the default.  The correction is then [-0] and every
    threshold altitude is the nominal one, [value * PI / 180], exactly. *)
Theorem observerAngle_zero_keeps_thresholds (this : SunTime) :
  observerAngle 0 = neg_zero /\
  calc_h0 this (observerAngle 0) = value this * PI / 180.0.
Proof.
  assert (observerAngle 0 = neg_zero) as E by reflexivity.
  split; [exact E|]. unfold calc_h0. rewrite E, add_neg_zero. reflexivity.
Qed.

(** ** The Moon for every input *)

Lemma moon_distance_cases M (L : MathLaws M) d :
  (is_nan (m_cos M (lunarMeanAnomaly d)) = true /\ moon_distance M d = nan) \/
  (is_finite (moon_distance M d) = true /\
   (364096 <= B2R (moon_distance M d) <= 405906)%R).
Proof.
  unfold moon_distance.
  destruct (is_nan (m_cos M (lunarMeanAnomaly d))) eqn:N.
  - left. split; [reflexivity|]. apply is_nan_eq in N. rewrite N, mul_nan_r, sub_nan_r.
    reflexivity.
  - right. destruct (cos_value_range M L _ N) as [Fc Bc].
    destruct B2R_20905 as [Fk Vk]. destruct B2R_385001 as [Fa Va].
    destruct B2R_364096 as [Flo Vlo]. destruct B2R_405906 as [Fhi Vhi].
    destruct (B2R_opp 20905.0) as [Fn Vn]. rewrite Fk in Fn. rewrite Vk in Vn.
    destruct (faithful_between _ _ _ _
                (mul_faithful 20905.0 (m_cos M (lunarMeanAnomaly d)) Fk Fc) Fn Fk) as [Fp Bp].
    { rewrite Vn, Vk. nra. }
    rewrite Vn, Vk in Bp.
    destruct (faithful_between _ _ 364096 405906
                (sub_faithful 385001.0 _ Fa Fp) Flo Fhi) as [Fd Bd].
    { rewrite Vlo, Vhi, Va. lra. }
    rewrite Vlo, Vhi in Bd. auto.
Qed.

Lemma or_zero_nonzero x : is_finite x = true -> B2R x <> 0%R -> F64.or_zero x = x.
Proof.
  intros F V. rewrite or_zero_spec, (is_nan_false_finite _ F). simpl.
  destruct (is_zero x) eqn:Z; [|reflexivity].
  unfold is_zero in Z. apply eqb_R in Z; [|exact F|reflexivity].
  change (B2R zero) with 0%R in Z. contradiction.
Qed.

Lemma or_zero_idempotent x : F64.or_zero (F64.or_zero x) = F64.or_zero x.
Proof.
  rewrite (or_zero_spec x). destruct (is_nan x || is_zero x) eqn:E; [reflexivity|].
  rewrite or_zero_spec, E. reflexivity.
Qed.

(** X4: the distance of [moonCoords] for every day value, finite or not.  It
    is never NaN and never negative: it is 0 exactly when the cosine of the
    mean anomaly is NaN, and a distance of [364096, 405906] km otherwise. *)
Theorem moonCoords_distance_zero_or_in_range M (L : MathLaws M) d :
  is_nan (distance (moonCoords M d)) = false /\
  (is_nan (m_cos M (lunarMeanAnomaly d)) = true -> distance (moonCoords M d) = 0) /\
  (is_nan (m_cos M (lunarMeanAnomaly d)) = false ->
   (364096 <=? distance (moonCoords M d)) = true /\
   (distance (moonCoords M d) <=? 405906) = true).
Proof.
  change (distance (moonCoords M d)) with (F64.or_zero (moon_distance M d)).
  split; [apply or_zero_regular|].
  destruct B2R_364096 as [Flo Vlo]. destruct B2R_405906 as [Fhi Vhi].
  destruct (moon_distance_cases M L d) as [[N E]|[F B]].
  - split; [intros _; rewrite E; reflexivity|]. intros N'. rewrite N in N'. discriminate N'.
  - split.
    + intros N. exfalso. apply is_nan_eq in N. unfold moon_distance in F.
      rewrite N, mul_nan_r, sub_nan_r in F. discriminate F.
    + intros _. rewrite (or_zero_nonzero _ F) by lra.
      apply between_leb; auto. rewrite Vlo, Vhi. auto.
Qed.

(** The day values NaN and 4919.5. *)
Lemma moonCoords_distance_zero_or_in_range_witness :
  distance (moonCoords Coarse.math nan) = 0 /\
  (364096 <=? distance (moonCoords Coarse.math 4919.5)) = true.
Proof.
  destruct (moonCoords_distance_zero_or_in_range Coarse.math coarse_laws nan) as (_ & A & _).
  destruct (moonCoords_distance_zero_or_in_range Coarse.math coarse_laws 4919.5) as (_ & _ & B).
  split; [apply A; reflexivity|apply B; reflexivity].
Defined.

Lemma or_zero_in_range x a b :
  (a <=? 0) = true -> (0 <=? b) = true ->
  (is_nan x = false -> (a <=? x) = true /\ (x <=? b) = true) ->
  (a <=? F64.or_zero x) = true /\ (F64.or_zero x <=? b) = true.
Proof.
  intros Ha Hb H. rewrite or_zero_spec.
  destruct (is_nan x) eqn:N; simpl; [auto|].
  destruct (is_zero x); [auto|]. apply H. reflexivity.
Qed.

(** X5: [getMoonPosition] for every timestamp, latitude and longitude, NaN
    and infinities included.  The distance is the one of [moonCoords]
    (the second [|| 0] changes nothing), and the parallactic angle is never
    NaN and lies in [-PI, PI]. *)
Theorem getMoonPosition_distance_and_angle_regular M (L : MathLaws M) ts lat lon :
  pos_distance (getMoonPosition M ts lat lon) = distance (moonCoords M (toDays ts)) /\
  is_nan (pos_distance (getMoonPosition M ts lat lon)) = false /\
  is_nan (parallacticAngle (getMoonPosition M ts lat lon)) = false /\
  (- PI <=? parallacticAngle (getMoonPosition M ts lat lon)) = true /\
  (parallacticAngle (getMoonPosition M ts lat lon) <=? PI) = true.
Proof.
  change (pos_distance (getMoonPosition M ts lat lon))
    with (F64.or_zero (distance (moonCoords M (toDays ts)))).
  change (distance (moonCoords M (toDays ts)))
    with (F64.or_zero (moon_distance M (toDays ts))).
  change (parallacticAngle (getMoonPosition M ts lat lon))
    with (F64.or_zero (moon_pa M ts lat lon)).
  rewrite or_zero_idempotent.
  split; [reflexivity|]. split; [apply or_zero_regular|]. split; [apply or_zero_regular|].
  apply or_zero_in_range; [reflexivity|reflexivity|].
  intros N. unfold moon_pa in *. apply (atan2_range M L). exact N.
Qed.

Lemma getMoonPosition_regular_witness :
  is_nan (parallacticAngle (getMoonPosition Coarse.math infinity 50.5 nan)) = false /\
  (- PI <=? parallacticAngle (getMoonPosition Coarse.math 1371816000000 50.5 30.5)) = true.
Proof.
  destruct (getMoonPosition_distance_and_angle_regular Coarse.math coarse_laws
              infinity 50.5 nan) as (_ & _ & A & _).
  destruct (getMoonPosition_distance_and_angle_regular Coarse.math coarse_laws
              1371816000000 50.5 30.5) as (_ & _ & _ & B & _).
  split; [exact A|exact B].
Defined.

(** ** Positions at a NaN timestamp *)

Lemma siderealTime_nan lw : siderealTime nan lw = nan.
Proof. unfold siderealTime. rewrite mul_nan_r, add_nan_r, mul_nan_l, sub_nan_l. reflexivity. Qed.

Lemma azimuth_nan M (L : MathLaws M) phi dec : azimuth M nan phi dec = nan.
Proof. unfold azimuth. rewrite (sin_nan M L). apply (atan2_nan_l M L). Qed.

Lemma altitude_nan M (L : MathLaws M) phi dec : altitude M nan phi dec = nan.
Proof.
  unfold altitude. rewrite (cos_nan M L), mul_nan_r, add_nan_r. apply (asin_nan M L).
Qed.

Lemma moonCoords_nan M (L : MathLaws M) :
  rightAscension_ (moonCoords M nan) = nan /\ declination_ (moonCoords M nan) = nan /\
  distance (moonCoords M nan) = 0.
Proof.
  unfold moonCoords. simpl rightAscension_. simpl declination_. simpl distance.
  replace (lunarEclipticLongitude nan) with nan by reflexivity.
  replace (lunarMeanAnomaly nan) with nan by reflexivity.
  replace (lunarMeanDistance nan) with nan by reflexivity.
  rewrite (sin_nan M L), (cos_nan M L), !mul_nan_r, add_nan_l, sub_nan_r.
  unfold rightAscension, declination.
  rewrite (sin_nan M L), (cos_nan M L), !mul_nan_l, add_nan_l, (asin_nan M L),
    (atan2_nan_r M L).
  repeat split; reflexivity.
Qed.

(** X6: a NaN timestamp.  [getPosition] and [getMoonPosition] raise nothing:
    azimuth and altitude are NaN; the Sun position keeps the defaults 0 of
    its distance and parallactic angle, and for the Moon [|| 0] stores 0 in
    both. *)
Theorem positions_at_nan_timestamp M (L : MathLaws M) ts lat lon :
  is_nan ts = true ->
  (is_nan (azimuth_ (getPosition M ts lat lon)) = true /\
   is_nan (altitude_ (getPosition M ts lat lon)) = true /\
   pos_distance (getPosition M ts lat lon) = 0 /\
   parallacticAngle (getPosition M ts lat lon) = 0) /\
  (is_nan (azimuth_ (getMoonPosition M ts lat lon)) = true /\
   is_nan (altitude_ (getMoonPosition M ts lat lon)) = true /\
   pos_distance (getMoonPosition M ts lat lon) = 0 /\
   parallacticAngle (getMoonPosition M ts lat lon) = 0).
Proof.
  intros N. apply is_nan_eq in N. subst ts.
  destruct (sunCoords_nan M L) as [Hd Hr].
  destruct (moonCoords_nan M L) as (Mr & Md & Mz).
  split.
  - unfold getPosition. cbv zeta. cbn [azimuth_ altitude_ pos_distance parallacticAngle].
    rewrite toDays_nan.
    change (rightAscension M (eclipticLongitude M (solar_mean_anomaly nan)) 0.0)
      with (rightAscension_ (sunCoords M nan)).
    rewrite Hr, siderealTime_nan, sub_nan_l, (azimuth_nan M L), (altitude_nan M L).
    repeat split; reflexivity.
  - unfold getMoonPosition. cbv zeta. cbn [azimuth_ altitude_ pos_distance parallacticAngle].
    rewrite toDays_nan, Mr, Mz, siderealTime_nan, sub_nan_l.
    rewrite (azimuth_nan M L), (altitude_nan M L), add_nan_l, (sin_nan M L),
      (atan2_nan_l M L).
    repeat split; reflexivity.
Qed.

Lemma positions_at_nan_timestamp_witness :
  is_nan (azimuth_ (getPosition Coarse.math nan 50.5 30.5)) = true /\
  parallacticAngle (getMoonPosition Coarse.math nan 50.5 30.5) = 0.
Proof.
  destruct (positions_at_nan_timestamp Coarse.math coarse_laws nan 50.5 30.5 eq_refl)
    as [(A & _) (_ & _ & _ & B)].
  split; [exact A|exact B].
Defined.

(** ** [Math.round] and the cast to [i64] on every finite value *)

Lemma ceiling_exists (r : R) : exists c : Z, (IZR c - 1 < r <= IZR c)%R.
Proof.
  exists (1 - up (- r))%Z. destruct (archimed (- r)) as [A B].
  rewrite minus_IZR. lra.
Qed.

(** A float of magnitude 2^52 or more has no fractional bit. *)
Lemma finite_large_exponent x s m e :
  Prim2SF x = S754_finite s m e -> (bpow 52 <= F2R (Zpos m) e)%R -> (0 <= e)%Z.
Proof.
  intros E H. pose proof (Prim2SF_valid x) as V. rewrite E in V.
  destruct (valid_finite s m e V) as (_ & Hm & _).
  destruct (Z_lt_le_dec e 0) as [N|P]; [exfalso|exact P].
  assert (F2R (Zpos m) e < bpow 52)%R; [|lra].
  unfold F2R.
  pose proof (bpow_le e (-1) ltac:(lia)). pose proof (bpow_pos e).
  assert (IZR (Zpos m) < IZR (2 ^ 53))%R by (apply IZR_lt; exact Hm).
  assert (bpow 52 = IZR (2 ^ 53) * bpow (-1))%R as ->.
  { rewrite <- (bpow_IZR 53) by lia. rewrite <- bpow_add. reflexivity. }
  assert (0 < IZR (Zpos m))%R by (apply IZR_lt; lia).
  nra.
Qed.

Lemma sub_le_self x y : is_finite x = true -> is_finite y = true -> (0 <= B2R y)%R ->
  (x - y <=? x) = true.
Proof.
  intros Fx Fy Hy. rewrite leb_spec.
  apply (faithful_le (B2R x - B2R y)).
  - apply Prim2SF_valid.
  - apply sub_faithful; assumption.
  - apply Prim2SF_valid.
  - rewrite <- is_finite_spec. exact Fx.
  - unfold B2R in *. lra.
Qed.

(** [Math.round] of a float without fractional bits is the float itself. *)
Lemma round_large x : is_finite x = true -> (bpow 52 <= Rabs (B2R x))%R ->
  F64.round x = x /\ exists n, B2R x = IZR n.
Proof.
  intros F H. destruct B2R_half as [Fh Vh].
  pose proof (bpow_pos 52) as P52.
  unfold B2R in H. rewrite is_finite_spec in F.
  destruct (Prim2SF x) as [s|s| |s m e] eqn:E; try discriminate F.
  - simpl in H. rewrite Rabs_R0 in H. lra.
  - rewrite SF2R_finite, F2R_cond in H.
    pose proof (F2R_pos (Zpos m) e ltac:(lia)) as Pm.
    assert (bpow 52 <= F2R (Zpos m) e)%R as H'.
    { destruct s; [rewrite Rabs_Ropp in H|]; rewrite Rabs_pos_eq in H; lra. }
    pose proof (finite_large_exponent x s m e E H') as He.
    assert (F64.ceil x = x) as Ec.
    { unfold F64.ceil. rewrite E. destruct (Z.leb_spec 0 e); [reflexivity|lia]. }
    split.
    + unfold F64.round. rewrite Ec, sub_le_self; [reflexivity| |exact Fh|rewrite Vh; lra].
      rewrite is_finite_spec, E. reflexivity.
    + exists (cond_Zopp s (Zpos m) * 2 ^ e)%Z. unfold B2R. rewrite E, SF2R_finite.
      apply F2R_int. exact He.
Qed.

(** [Math.round] on a finite float: the integer [n] with
    [n - 1/2 <= x < n + 1/2]. *)
Lemma round_nearest x : is_finite x = true ->
  exists n, is_finite (F64.round x) = true /\ B2R (F64.round x) = IZR n /\
            (IZR n - / 2 <= B2R x < IZR n + / 2)%R.
Proof.
  intros F. destruct B2R_half as [Fh Vh]. destruct B2R_one as [F1 V1].
  destruct (Rlt_le_dec (Rabs (B2R x)) (bpow 52)) as [Small|Large].
  - destruct (ceiling_exists (B2R x)) as [c Hc].
    rewrite (bpow_IZR 52) in Small by lia. apply Rabs_def2 in Small.
    assert (- 2 ^ 52 < c <= 2 ^ 52)%Z as Bc.
    { split.
      - apply lt_IZR. rewrite opp_IZR. lra.
      - assert (IZR c < IZR (2 ^ 52) + 1)%R as H by lra.
        rewrite <- plus_IZR in H. apply lt_IZR in H. lia. }
    assert (2 ^ 53 = 2 * 2 ^ 52)%Z as P53 by reflexivity.
    destruct (ceil_spec x c F Hc ltac:(lia)) as [Fc Vc].
    assert (is_finite (F64.ceil x - 0.5) = true /\
            B2R (F64.ceil x - 0.5) = (IZR c - / 2)%R) as [Fs Vs].
    { apply faithful_value.
      - rewrite <- Vc, <- Vh. apply sub_faithful; assumption.
      - replace (IZR c - / 2)%R with (F2R (2 * c - 1) (-1)).
        + apply representable_F2R; [lia|lia|]. apply F2R_abs_lt; lia.
        + unfold F2R. rewrite bpow_m1, minus_IZR, mult_IZR. lra. }
    unfold F64.round.
    destruct (F64.ceil x - 0.5 <=? x) eqn:Hl.
    + exists c. apply leb_R in Hl; auto. rewrite Vs in Hl. repeat split; auto; lra.
    + exists (c - 1)%Z.
      assert (B2R x < IZR c - / 2)%R as Hlt.
      { destruct (Rlt_le_dec (B2R x) (IZR c - / 2)) as [A|A]; [exact A|].
        exfalso. assert ((F64.ceil x - 0.5 <=? x) = true) by (apply leb_R; auto; lra).
        congruence. }
      destruct (faithful_value (IZR (c - 1)) (F64.ceil x - 1.0)) as [Fr Vr].
      * replace (IZR (c - 1)) with (B2R (F64.ceil x) - B2R 1.0)%R
          by (rewrite Vc, V1, minus_IZR; ring).
        apply sub_faithful; assumption.
      * apply representable_IZR. lia.
      * rewrite minus_IZR in *. repeat split; auto; lra.
  - destruct (round_large x F Large) as [-> [n Hn]].
    exists n. rewrite Hn. repeat split; auto; lra.
Qed.

(** The cast of an integral float: its value, clamped to the [i64] range. *)
Lemma to_i64_int x n :
  is_finite x = true -> B2R x = IZR n ->
  F64.to_i64 x = Z.max F64.i64_min (Z.min F64.i64_max n).
Proof.
  intros F V. unfold F64.to_i64. unfold B2R in V. rewrite is_finite_spec in F.
  destruct (Prim2SF x) as [s|s| |s m e]; try discriminate F.
  - simpl in V. apply eq_IZR in V. subst n. reflexivity.
  - simpl in V.
    assert (Z.shiftl (Z.pos m) e = Z.abs n /\ cond_Zopp s (Z.abs n) = n) as [-> Hs].
    { destruct (Z.leb_spec 0 e) as [P|N].
      - rewrite Z.shiftl_mul_pow2 by lia. rewrite F2R_int in V by lia. apply eq_IZR in V.
        assert (0 < Z.pos m * 2 ^ e)%Z as Pp
          by (apply Z.mul_pos_pos; [lia|apply Z.pow_pos_nonneg; lia]).
        unfold cond_Zopp in *. destruct s; rewrite ?Z.mul_opp_l in V; lia.
      - rewrite Z.shiftl_div_pow2 by lia.
        rewrite <- F2R_e0, (F2R_change_exp n 0 e) in V by lia. apply F2R_inj in V.
        replace (0 - e)%Z with (- e)%Z in V by lia.
        assert (0 < 2 ^ (- e))%Z by (apply Z.pow_pos_nonneg; lia).
        assert (Z.pos m = Z.abs n * 2 ^ (- e) /\ cond_Zopp s (Z.abs n) = n)%Z as [Em Es].
        { unfold cond_Zopp in *. destruct s.
          - assert (n < 0)%Z by nia. rewrite Z.abs_neq by lia. split; lia.
          - assert (0 < n)%Z by nia. rewrite Z.abs_eq by lia. split; lia. }
        rewrite Em, Z.div_mul by lia. split; [reflexivity|exact Es]. }
    assert ((if s then (- Z.abs n)%Z else Z.abs n) = n) as -> by (destruct s; exact Hs).
    reflexivity.
Qed.

(** ** [fromJulian] on the Julian days of the binade of 2^21

    The Julian days from 2097152 to 4194303 are those of the years 1030 to
    6771. *)

Lemma B2R_4194303 : is_finite 4194303 = true /\ B2R 4194303 = 4194303%R.
Proof. apply (B2R_int 4194303 4194303 eq_refl). simpl. lia. Qed.

Lemma julian_range j :
  (0x1p+21 <=? j) = true -> (j <=? 4194303) = true ->
  is_finite j = true /\ (2097152 <= B2R j <= 4194303)%R.
Proof.
  intros H1 H2. destruct B2R_pow21 as [F21 V21]. destruct B2R_4194303 as [Fu Vu].
  destruct (leb_between j _ _ F21 Fu H1 H2) as [F B]. rewrite V21, Vu in B. auto.
Qed.

(** [j + 0.5 - J1970] is computed without rounding. *)
Lemma fromJulian_offset_exact j :
  is_finite j = true -> (2097152 <= B2R j <= 4194303)%R ->
  is_finite (j + 0.5 - J1970) = true /\
  B2R (j + 0.5 - J1970) = (B2R j + / 2 - 2440588)%R /\
  exists q, B2R (j + 0.5 - J1970) = F2R q (-31).
Proof.
  intros Fj Bj.
  destruct B2R_J1970 as [FJ VJ]. destruct B2R_half as [Fh Vh].
  destruct (binade_21_grid j Fj ltac:(lra)) as (n & Hn & Bn).
  assert (forall i, F2R i (-31) = IZR i / 2147483648)%R as HF.
  { intros i. unfold F2R. rewrite bpow_m31. reflexivity. }
  assert (n <= 2 ^ 53 - 2 ^ 31)%Z as Bn'.
  { apply le_IZR. change (2 ^ 53 - 2 ^ 31)%Z with 9007197107257344%Z.
    rewrite Hn, HF in Bj. lra. }
  destruct (faithful_value (B2R j + B2R 0.5) (j + 0.5)) as [Fc Vc].
  { apply add_faithful; auto. }
  { replace (B2R j + B2R 0.5)%R with (F2R (n + 2 ^ 30) (-31)).
    - apply representable_F2R; [lia|lia|apply F2R_abs_lt; lia].
    - rewrite HF, plus_IZR, Hn, HF, Vh. change (2 ^ 30)%Z with 1073741824%Z. lra. }
  destruct (faithful_value (B2R (j + 0.5) - B2R J1970) (j + 0.5 - J1970)) as [Fe Ve].
  { apply sub_faithful; auto. }
  { replace (B2R (j + 0.5) - B2R J1970)%R with (F2R (n + 2 ^ 30 - 2440588 * 2 ^ 31) (-31)).
    - apply representable_F2R; [lia|lia|apply F2R_abs_lt; lia].
    - rewrite HF, minus_IZR, plus_IZR, Vc, Hn, HF, Vh, VJ.
      change (2 ^ 30)%Z with 1073741824%Z. change (2440588 * 2 ^ 31)%Z with 5241122821505024%Z.
      lra. }
  rewrite Vc, Vh, VJ in Ve.
  split; [exact Fe|]. split; [exact Ve|].
  exists (n + 2 ^ 30 - 2440588 * 2 ^ 31)%Z.
  rewrite Ve, HF, minus_IZR, plus_IZR, Hn, HF.
  change (2 ^ 30)%Z with 1073741824%Z. change (2440588 * 2 ^ 31)%Z with 5241122821505024%Z.
  lra.
Qed.

(** The scaled value is within 2^-5 ms of the exact one. *)
Lemma fromJulian_scaled_error j :
  is_finite j = true -> (2097152 <= B2R j <= 4194303)%R ->
  is_finite (fromJulian_scaled j) = true /\
  (Rabs (B2R (fromJulian_scaled j) - (B2R j - 2440587.5) * 86400000) <= / 32)%R.
Proof.
  intros Fj Bj. unfold fromJulian_scaled.
  destruct (fromJulian_offset_exact j Fj Bj) as (Fe & Ve & _).
  destruct B2R_MS as [FD VD].
  set (e := j + 0.5 - J1970) in *.
  destruct (faithful_error (B2R e * B2R MILLISECONDS_PER_DAY) (e * MILLISECONDS_PER_DAY) 48)
    as [Ff Ef]; try lia.
  { apply mul_faithful; auto. }
  { rewrite Ve, VD, bpow_48. apply Rabs_def1; lra. }
  rewrite Ve, VD in Ef. replace (48 - 53)%Z with (-5)%Z in Ef by lia. rewrite bpow_m5 in Ef.
  apply Rabs_le_inv in Ef.
  split; [exact Ff|]. apply Rabs_le. lra.
Qed.

(** The integer [fromJulian] returns is the one nearest to the scaled
    value; it is far inside the [i64] range. *)
Lemma fromJulian_i64_nearest j :
  is_finite j = true -> (2097152 <= B2R j <= 4194303)%R ->
  exists n, fromJulian_i64 j = n /\ (Z.abs n < 2 ^ 48)%Z /\
            (IZR n - / 2 <= B2R (fromJulian_scaled j) < IZR n + / 2)%R.
Proof.
  intros Fj Bj. destruct (fromJulian_scaled_error j Fj Bj) as [Ff Ef].
  apply Rabs_le_inv in Ef.
  destruct (round_nearest _ Ff) as (n & Fr & Vr & Hn).
  assert (Z.abs n < 2 ^ 48)%Z as Bn.
  { change (2 ^ 48)%Z with 281474976710656%Z.
    apply Z.abs_lt. split; apply lt_IZR; [rewrite opp_IZR|]; lra. }
  exists n. split; [|split; [exact Bn|exact Hn]].
  unfold fromJulian_i64, fromJulian_f64. apply (to_i64_spec _ _ Fr Vr).
  unfold F64.i64_min, F64.i64_max. assert (2 ^ 48 < 2 ^ 63 - 1)%Z by reflexivity. lia.
Qed.

Lemma fromJulian_signed j : F64.as_signed (fromJulian j) = fromJulian_i64 j.
Proof. unfold fromJulian. apply as_signed_to_u64. apply to_i64_range. Qed.

(** X7: accuracy of [fromJulian].  For a Julian day of the years 1030 to
    6771 the timestamp returned, read as a signed count, is within 17/32 ms
    of the exact value [(j - 2440587.5) * 86400000]: half a millisecond for
    the rounding to an integer, 1/32 for the one multiplication that
    rounds. *)
Theorem fromJulian_accuracy j :
  (0x1p+21 <=? j) = true -> (j <=? 4194303) = true ->
  (Rabs (IZR (F64.as_signed (fromJulian j)) - (B2R j - 2440587.5) * 86400000) <= 17 / 32)%R.
Proof.
  intros H1 H2. destruct (julian_range j H1 H2) as [Fj Bj].
  destruct (fromJulian_scaled_error j Fj Bj) as [Ff Ef]. apply Rabs_le_inv in Ef.
  destruct (fromJulian_i64_nearest j Fj Bj) as (n & En & _ & Hn).
  rewrite fromJulian_signed, En. apply Rabs_le. lra.
Qed.

(** Julian day 2456465.25 (21 June 2013, 18:00 UTC). *)
Lemma fromJulian_accuracy_witness :
  (Rabs (IZR (F64.as_signed (fromJulian 2456465.25))
         - (B2R 2456465.25 - 2440587.5) * 86400000) <= 17 / 32)%R.
Proof. apply fromJulian_accuracy; reflexivity. Defined.

Lemma faithful_finite_cmp v z x :
  faithful v (Prim2SF z) -> is_finite z = true -> representable x ->
  ((v <= x)%R -> (B2R z <= x)%R) /\ ((x <= v)%R -> (x <= B2R z)%R).
Proof.
  intros Fa F Rx. destruct (Fa x Rx) as [A B]. unfold B2R.
  rewrite is_finite_spec in F.
  destruct (Prim2SF z); try discriminate F;
    (split; intros H; [apply A in H|apply B in H]; exact H).
Qed.

(** X8: [fromJulian] keeps the order of Julian days.  Over the years 1030 to
    6771 a later Julian day never gives an earlier timestamp (read as a
    signed count). *)
Theorem fromJulian_monotone j1 j2 :
  (0x1p+21 <=? j1) = true -> (j1 <? j2) = true -> (j2 <=? 4194303) = true ->
  (F64.as_signed (fromJulian j1) <= F64.as_signed (fromJulian j2))%Z.
Proof.
  intros H1 H12 H2.
  destruct B2R_pow21 as [F21 V21]. destruct B2R_4194303 as [Fu Vu].
  destruct (leb_chain_finite _ _ _ _ F21 Fu H1 (ltb_leb _ _ H12) H2) as [F1 F2].
  apply leb_R in H1; auto. apply ltb_R in H12; auto. apply leb_R in H2; auto.
  rewrite V21 in H1. rewrite Vu in H2.
  assert (2097152 <= B2R j1 <= 4194303)%R as B1 by lra.
  assert (2097152 <= B2R j2 <= 4194303)%R as B2 by lra.
  destruct (fromJulian_offset_exact j1 F1 B1) as (Fe1 & Ve1 & q1 & Q1).
  destruct (fromJulian_offset_exact j2 F2 B2) as (Fe2 & Ve2 & q2 & Q2).
  destruct (fromJulian_scaled_error j1 F1 B1) as [Ff1 _].
  destruct (fromJulian_scaled_error j2 F2 B2) as [Ff2 _].
  destruct (fromJulian_i64_nearest j1 F1 B1) as (n1 & En1 & _ & Hn1).
  destruct (fromJulian_i64_nearest j2 F2 B2) as (n2 & En2 & _ & Hn2).
  rewrite !fromJulian_signed, En1, En2.
  destruct B2R_MS as [FD VD].
  assert (forall i, F2R i (-31) = IZR i / 2147483648)%R as HF.
  { intros i. unfold F2R. rewrite bpow_m31. reflexivity. }
  (* the two offsets are at least one step of the grid apart *)
  assert (q1 + 1 <= q2)%Z as Hq.
  { assert (q1 < q2)%Z; [|lia]. apply (F2R_lt_inv _ _ (-31)). rewrite <- Q1, <- Q2. lra. }
  apply IZR_le in Hq. rewrite plus_IZR in Hq.
  assert (B2R (j1 + 0.5 - J1970) + / 2147483648 <= B2R (j2 + 0.5 - J1970))%R as He.
  { rewrite Q1, Q2, !HF. lra. }
  set (v1 := (B2R (j1 + 0.5 - J1970) * B2R MILLISECONDS_PER_DAY)%R).
  set (v2 := (B2R (j2 + 0.5 - J1970) * B2R MILLISECONDS_PER_DAY)%R).
  assert (v1 + / 32 <= v2)%R as Hv by (unfold v1, v2; rewrite VD; lra).
  assert (Rabs v1 <= 152000000000000)%R as Bv1.
  { unfold v1. rewrite Ve1, VD. apply Rabs_le. lra. }
  apply Rabs_le_inv in Bv1.
  (* a multiple of 2^-5 between the two exact products *)
  destruct (ceiling_exists (v1 * 32)) as [c Hc].
  assert (Z.abs c <= 2 ^ 53)%Z as Bc.
  { change (2 ^ 53)%Z with 9007199254740992%Z.
    apply Z.abs_le. split; apply le_IZR; [rewrite opp_IZR|]; lra. }
  assert (representable (F2R c (-5))) as Rc.
  { apply representable_F2R; [exact Bc|lia|]. apply F2R_abs_lt; [exact Bc|lia]. }
  assert (F2R c (-5) = IZR c / 32)%R as Vc by (unfold F2R; rewrite bpow_m5; reflexivity).
  destruct (faithful_finite_cmp v1 (fromJulian_scaled j1) _
              (mul_faithful _ _ Fe1 FD) Ff1 Rc) as [A1 _].
  destruct (faithful_finite_cmp v2 (fromJulian_scaled j2) _
              (mul_faithful _ _ Fe2 FD) Ff2 Rc) as [_ A2].
  rewrite Vc in A1, A2.
  specialize (A1 ltac:(lra)). specialize (A2 ltac:(lra)).
  assert (IZR n1 < IZR n2 + 1)%R as Hn by lra.
  rewrite <- plus_IZR in Hn. apply lt_IZR in Hn. lia.
Qed.

(** Noon and 18:00 UTC of 21 June 2013. *)
Lemma fromJulian_monotone_witness :
  (F64.as_signed (fromJulian 2456465) <= F64.as_signed (fromJulian 2456465.25))%Z.
Proof. apply fromJulian_monotone; reflexivity. Defined.

Lemma fromJulian_i64_accuracy j :
  is_finite j = true -> (2097152 <= B2R j <= 4194303)%R ->
  (Rabs (IZR (fromJulian_i64 j) - (B2R j - 2440587.5) * 86400000) <= 17 / 32)%R.
Proof.
  intros Fj Bj.
  destruct (fromJulian_scaled_error j Fj Bj) as [Ff Ef]. apply Rabs_le_inv in Ef.
  destruct (fromJulian_i64_nearest j Fj Bj) as (n & En & _ & Hn).
  rewrite En. apply Rabs_le. lra.
Qed.

(** ** Noon, nadir and the mirrored times of [getTimes] *)

Lemma getTimes_pair_fields M (p : Pair) ts lat lon h :
  rise_field p (getTimes M ts lat lon h) = fromJulian (getTimes_j_rise M p ts lat lon h) /\
  set_field p (getTimes M ts lat lon h) = fromJulian (getTimes_j_set M p ts lat lon h).
Proof. destruct p; split; reflexivity. Qed.

(** Half a day before a Julian day of the binade: no rounding. *)
Lemma half_day_before j :
  is_finite j = true -> (2097153 <= B2R j <= 4194303)%R ->
  is_finite (j - 0.5) = true /\ B2R (j - 0.5) = (B2R j - / 2)%R.
Proof.
  intros Fj Bj. destruct B2R_half as [Fh Vh].
  destruct (binade_21_grid j Fj ltac:(lra)) as (n & Hn & Bn).
  rewrite <- Vh. apply faithful_value.
  - apply sub_faithful; auto.
  - replace (B2R j - B2R 0.5)%R with (F2R (n - 2 ^ 30) (-31)).
    + apply representable_F2R; [lia|lia|apply F2R_abs_lt; lia].
    + rewrite F2R_minus, <- Hn, Vh. unfold F2R. rewrite bpow_m31.
      change (2 ^ 30)%Z with 1073741824%Z. lra.
Qed.

(** X9: nadir and solar noon.  When the Julian moment of solar noon is one of
    the years 1030 to 6771, the nadir timestamp [getTimes] returns is twelve
    hours before the solar noon one, to the millisecond or one off. *)
Theorem getTimes_nadir_half_day_before_noon M ts lat lon h :
  (2097153 <=? getTimes_j_noon M ts lon) = true ->
  (getTimes_j_noon M ts lon <=? 4194303) = true ->
  (43199999 <= F64.as_signed (solarNoon (getTimes M ts lat lon h))
               - F64.as_signed (nadir (getTimes M ts lat lon h)) <= 43200001)%Z.
Proof.
  intros H1 H2.
  change (solarNoon (getTimes M ts lat lon h)) with (fromJulian (getTimes_j_noon M ts lon)).
  change (nadir (getTimes M ts lat lon h)) with (fromJulian (getTimes_j_noon M ts lon - 0.5)).
  set (j := getTimes_j_noon M ts lon) in *.
  destruct (B2R_int 2097153 2097153 eq_refl ltac:(simpl; lia)) as [Fl Vl].
  destruct B2R_4194303 as [Fu Vu].
  destruct (leb_between j _ _ Fl Fu H1 H2) as [Fj Bj]. rewrite Vl, Vu in Bj.
  destruct (half_day_before j Fj Bj) as [Fn Vn].
  pose proof (fromJulian_i64_accuracy j Fj ltac:(lra)) as A1.
  pose proof (fromJulian_i64_accuracy (j - 0.5) Fn ltac:(rewrite Vn; lra)) as A2.
  rewrite Vn in A2. apply Rabs_le_inv in A1, A2.
  rewrite !fromJulian_signed.
  set (a := fromJulian_i64 j) in *. set (b := fromJulian_i64 (j - 0.5)) in *.
  assert (IZR 43199998 < IZR (a - b) < IZR 43200002)%R as [Lo Hi]
    by (rewrite minus_IZR; lra).
  apply lt_IZR in Lo, Hi. lia.
Qed.

(** 21 June 2013 at longitude 30.5°E. *)
Lemma getTimes_nadir_witness :
  (43199999 <= F64.as_signed (solarNoon (getTimes Coarse.math 1371816000000 50.5 30.5 0))
               - F64.as_signed (nadir (getTimes Coarse.math 1371816000000 50.5 30.5 0))
            <= 43200001)%Z.
Proof. apply getTimes_nadir_half_day_before_noon; vm_compute; reflexivity. Defined.

(** The mirrored moment of two moments of the binade, noon first: its value
    is [2 * j_noon - j_set], without rounding. *)
Lemma mirror_value (j_noon j_set : float) :
  is_finite j_noon = true -> is_finite j_set = true ->
  (2097152 <= B2R j_noon)%R -> (B2R j_noon <= B2R j_set)%R -> (B2R j_set < 4194304)%R ->
  is_finite (j_noon - (j_set - j_noon)) = true /\
  B2R (j_noon - (j_set - j_noon)) = (2 * B2R j_noon - B2R j_set)%R.
Proof.
  intros Fn Fs H1 H2 H3.
  destruct (binade_21_grid j_noon Fn ltac:(lra)) as (n1 & E1 & B1).
  destruct (binade_21_grid j_set Fs ltac:(lra)) as (n2 & E2 & B2).
  assert (n1 <= n2)%Z as Hle by (apply (F2R_le_inv _ _ (-31)); rewrite <- E1, <- E2; exact H2).
  assert (forall i, (Z.abs i <= 2 ^ 53)%Z -> representable (F2R i (-31))) as Rep.
  { intros i Hi. apply representable_F2R; [exact Hi|lia|apply F2R_abs_lt; lia]. }
  destruct (faithful_value (B2R j_set - B2R j_noon) (j_set - j_noon)) as [Fd Vd].
  { apply sub_faithful; auto. }
  { rewrite E1, E2, <- F2R_minus. apply Rep. lia. }
  destruct (faithful_value (B2R j_noon - B2R (j_set - j_noon)) (j_noon - (j_set - j_noon)))
    as [Fr Vr].
  { apply sub_faithful; auto. }
  { rewrite Vd, E1, E2, <- !F2R_minus. apply Rep. lia. }
  split; [exact Fr|]. rewrite Vr, Vd. lra.
Qed.

(** X10: the two times of a pair around solar noon.  When the Julian moments
    of noon, of the evening time and of the mirrored morning time are of the
    years 1030 to 6771, noon not after the evening time, the morning
    timestamp is as long before the solar noon timestamp as the evening one
    is after it, up to 2 ms. *)
Theorem getTimes_pair_symmetric_around_noon M (p : Pair) ts lat lon h :
  (0x1p+21 <=? getTimes_j_rise M p ts lat lon h) = true ->
  (0x1p+21 <=? getTimes_j_noon M ts lon) = true ->
  (getTimes_j_noon M ts lon <=? getTimes_j_set M p ts lat lon h) = true ->
  (getTimes_j_set M p ts lat lon h <=? 4194303) = true ->
  (Z.abs ((F64.as_signed (solarNoon (getTimes M ts lat lon h))
           - F64.as_signed (rise_field p (getTimes M ts lat lon h)))
          - (F64.as_signed (set_field p (getTimes M ts lat lon h))
             - F64.as_signed (solarNoon (getTimes M ts lat lon h)))) <= 2)%Z.
Proof.
  intros Hr H1 H2 H3.
  destruct (getTimes_pair_fields M p ts lat lon h) as [-> ->].
  change (solarNoon (getTimes M ts lat lon h)) with (fromJulian (getTimes_j_noon M ts lon)).
  assert (getTimes_j_rise M p ts lat lon h
          = getTimes_j_noon M ts lon
            - (getTimes_j_set M p ts lat lon h - getTimes_j_noon M ts lon)) as Er by reflexivity.
  rewrite Er in *.
  set (jn := getTimes_j_noon M ts lon) in *. set (js := getTimes_j_set M p ts lat lon h) in *.
  destruct B2R_pow21 as [F21 V21]. destruct B2R_4194303 as [Fu Vu].
  destruct (leb_chain_finite _ _ _ _ F21 Fu H1 H2 H3) as [Fn Fs].
  apply leb_R in H1; auto. apply leb_R in H2; auto. apply leb_R in H3; auto.
  rewrite V21 in H1. rewrite Vu in H3.
  destruct (mirror_value jn js Fn Fs H1 H2 ltac:(lra)) as [Frr Vrr].
  apply leb_R in Hr; auto. rewrite V21, Vrr in Hr.
  pose proof (fromJulian_i64_accuracy jn Fn ltac:(lra)) as A1.
  pose proof (fromJulian_i64_accuracy js Fs ltac:(lra)) as A2.
  pose proof (fromJulian_i64_accuracy _ Frr ltac:(rewrite Vrr; lra)) as A3.
  rewrite Vrr in A3. apply Rabs_le_inv in A1, A2, A3.
  rewrite !fromJulian_signed.
  set (a := fromJulian_i64 jn) in *. set (b := fromJulian_i64 js) in *.
  set (c := fromJulian_i64 (jn - (js - jn))) in *.
  assert (IZR (-3) < IZR (a - c - (b - a)) < IZR 3)%R as [Lo Hi]
    by (rewrite !minus_IZR; lra).
  apply lt_IZR in Lo, Hi. lia.
Qed.

(** Sunrise and sunset of 21 June 2013 at 50.5°N 30.5°E. *)
Lemma getTimes_pair_symmetric_witness :
  (Z.abs ((F64.as_signed (solarNoon (getTimes Coarse.math 1371816000000 50.5 30.5 0))
           - F64.as_signed (rise_field PSunrise (getTimes Coarse.math 1371816000000 50.5 30.5 0)))
          - (F64.as_signed (set_field PSunrise (getTimes Coarse.math 1371816000000 50.5 30.5 0))
             - F64.as_signed (solarNoon (getTimes Coarse.math 1371816000000 50.5 30.5 0))))
   <= 2)%Z.
Proof. apply getTimes_pair_symmetric_around_noon; vm_compute; reflexivity. Defined.

(** ** [fromJulian] far from the epoch *)

Lemma leb_lower_cases b x : is_finite b = true -> (b <=? x) = true ->
  x = infinity \/ (is_finite x = true /\ (B2R b <= B2R x)%R).
Proof.
  intros Fb H. destruct (is_finite x) eqn:Fx.
  - right. split; [reflexivity|]. apply leb_R; assumption.
  - left. rewrite leb_spec in H. rewrite is_finite_spec in Fx, Fb.
    rewrite <- (SF2Prim_Prim2SF x).
    destruct (Prim2SF x) as [s|s| |s m e]; try discriminate Fx.
    + destruct s; [|reflexivity]. destruct (Prim2SF b) as [ | | |[|] ? ?]; discriminate.
    + destruct (Prim2SF b); discriminate.
Qed.

Lemma leb_upper_cases b x : is_finite b = true -> (x <=? b) = true ->
  x = neg_infinity \/ (is_finite x = true /\ (B2R x <= B2R b)%R).
Proof.
  intros Fb H. destruct (is_finite x) eqn:Fx.
  - right. split; [reflexivity|]. apply leb_R; assumption.
  - left. rewrite leb_spec in H. rewrite is_finite_spec in Fx, Fb.
    rewrite <- (SF2Prim_Prim2SF x).
    destruct (Prim2SF x) as [s|s| |s m e]; try discriminate Fx.
    + destruct s; [reflexivity|]. destruct (Prim2SF b) as [ | | |[|] ? ?]; discriminate.
    + discriminate.
Qed.

Lemma faithful_lower v z b :
  faithful v (Prim2SF z) -> is_finite b = true -> (B2R b <= v)%R -> (b <=? z) = true.
Proof.
  intros Fa Fb H. rewrite leb_spec. apply (faithful_ge v); auto using Prim2SF_valid.
  rewrite <- is_finite_spec. exact Fb.
Qed.

Lemma faithful_upper v z b :
  faithful v (Prim2SF z) -> is_finite b = true -> (v <= B2R b)%R -> (z <=? b) = true.
Proof.
  intros Fa Fb H. rewrite leb_spec. apply (faithful_le v); auto using Prim2SF_valid.
  rewrite <- is_finite_spec. exact Fb.
Qed.

Lemma B2R_pow63 : is_finite 0x1p+63 = true /\ B2R 0x1p+63 = IZR (2 ^ 63).
Proof.
  split; [reflexivity|]. unfold B2R.
  change (Prim2SF 0x1p+63) with (S754_finite false 4503599627370496 11).
  rewrite SF2R_finite. simpl cond_Zopp. rewrite F2R_int by lia. reflexivity.
Qed.

(** Rounding and the cast at or beyond 2^63, on either side. *)
Lemma to_i64_round_high f : (0x1p+63 <=? f) = true -> F64.to_i64 (F64.round f) = F64.i64_max.
Proof.
  intros H. destruct B2R_pow63 as [F63 V63].
  destruct (leb_lower_cases _ _ F63 H) as [->|[Ff Hf]]; [reflexivity|].
  rewrite V63 in Hf.
  assert (bpow 52 <= Rabs (B2R f))%R as Hl.
  { rewrite (bpow_IZR 52) by lia. rewrite Rabs_pos_eq.
    - apply Rle_trans with (2 := Hf). apply IZR_le. lia.
    - apply Rle_trans with (2 := Hf). apply IZR_le. lia. }
  destruct (round_large f Ff Hl) as [-> [n Hn]].
  rewrite (to_i64_int f n Ff Hn). rewrite Hn in Hf. apply le_IZR in Hf.
  unfold F64.i64_min, F64.i64_max. lia.
Qed.

Lemma to_i64_round_low f : (f <=? -0x1p+63) = true -> F64.to_i64 (F64.round f) = F64.i64_min.
Proof.
  intros H. destruct B2R_pow63 as [F63 V63].
  destruct (B2R_opp 0x1p+63) as [Fo Vo]. rewrite F63 in Fo. rewrite V63 in Vo.
  destruct (leb_upper_cases _ _ Fo H) as [->|[Ff Hf]]; [reflexivity|].
  rewrite Vo in Hf.
  assert (bpow 52 <= Rabs (B2R f))%R as Hl.
  { rewrite (bpow_IZR 52) by lia.
    assert (IZR (2 ^ 52) <= IZR (2 ^ 63))%R by (apply IZR_le; lia).
    assert (0 < IZR (2 ^ 52))%R by (apply IZR_lt; lia).
    rewrite Rabs_left by lra. lra. }
  destruct (round_large f Ff Hl) as [-> [n Hn]].
  rewrite (to_i64_int f n Ff Hn). rewrite Hn, <- opp_IZR in Hf. apply le_IZR in Hf.
  unfold F64.i64_min, F64.i64_max. lia.
Qed.

Lemma B2R_pow37 : is_finite 0x1p+37 = true /\ B2R 0x1p+37 = 137438953472%R.
Proof. apply (B2R_int 0x1p+37 137438953472 eq_refl). simpl. lia. Qed.

Lemma B2R_137436512884 : is_finite 137436512884 = true /\ B2R 137436512884 = 137436512884%R.
Proof. apply (B2R_int 137436512884 137436512884 eq_refl). simpl. lia. Qed.

Lemma B2R_137438953471 : is_finite 137438953471 = true /\ B2R 137438953471 = 137438953471%R.
Proof. apply (B2R_int 137438953471 137438953471 eq_refl). simpl. lia. Qed.

Lemma B2R_137441394059 : is_finite 137441394059 = true /\ B2R 137441394059 = 137441394059%R.
Proof. apply (B2R_int 137441394059 137441394059 eq_refl). simpl. lia. Qed.

(** X11: [fromJulian] saturates.  A Julian day of 2^37 or more, [+infinity]
    included, gives the largest [i64], 2^63 - 1; a Julian day of -2^37 or
    less, [-infinity] included, gives the smallest [i64], which the [u64]
    return type shows as 2^63.  Nothing traps and nothing wraps around. *)
Theorem fromJulian_saturates j :
  ((0x1p+37 <=? j) = true -> fromJulian j = (2 ^ 63 - 1)%Z) /\
  ((j <=? -0x1p+37) = true -> fromJulian j = (2 ^ 63)%Z).
Proof.
  destruct B2R_pow37 as [F37 V37]. destruct B2R_pow63 as [F63 V63].
  destruct B2R_137436512884 as [Fa Va]. destruct B2R_137441394059 as [Fb Vb].
  destruct B2R_half as [Fh Vh]. destruct B2R_J1970 as [FJ VJ]. destruct B2R_MS as [FD VD].
  assert (IZR (2 ^ 63) = 9223372036854775808)%R as P63 by reflexivity.
  split; intros H.
  - assert (F64.to_i64 (F64.round (fromJulian_scaled j)) = F64.i64_max) as E;
      [|unfold fromJulian, fromJulian_i64, fromJulian_f64; rewrite E; reflexivity].
    apply to_i64_round_high. unfold fromJulian_scaled.
    destruct (leb_lower_cases _ _ F37 H) as [->|[Fj Hj]]; [reflexivity|]. rewrite V37 in Hj.
    assert ((0x1p+37 <=? j + 0.5) = true) as Hc.
    { apply (faithful_lower _ _ _ (add_faithful j 0.5 Fj Fh) F37). rewrite V37, Vh. lra. }
    destruct (leb_lower_cases _ _ F37 Hc) as [->|[Fc Hc']]; [reflexivity|]. rewrite V37 in Hc'.
    assert ((137436512884 <=? j + 0.5 - J1970) = true) as He.
    { apply (faithful_lower _ _ _ (sub_faithful _ J1970 Fc FJ) Fa). rewrite Va, VJ. lra. }
    destruct (leb_lower_cases _ _ Fa He) as [->|[Fe He']]; [reflexivity|]. rewrite Va in He'.
    apply (faithful_lower _ _ _ (mul_faithful _ MILLISECONDS_PER_DAY Fe FD) F63).
    rewrite V63, P63, VD. lra.
  - assert (F64.to_i64 (F64.round (fromJulian_scaled j)) = F64.i64_min) as E;
      [|unfold fromJulian, fromJulian_i64, fromJulian_f64; rewrite E; reflexivity].
    apply to_i64_round_low. unfold fromJulian_scaled.
    destruct (B2R_opp 0x1p+37) as [Fo Vo]. rewrite F37 in Fo. rewrite V37 in Vo.
    destruct (B2R_opp 0x1p+63) as [Fo' Vo']. rewrite F63 in Fo'. rewrite V63, P63 in Vo'.
    destruct (B2R_opp 137441394059) as [Fq Vq]. rewrite Fb in Fq. rewrite Vb in Vq.
    destruct B2R_137438953471 as [Fp0 Vp0].
    destruct (B2R_opp 137438953471) as [Fp Vp]. rewrite Fp0 in Fp. rewrite Vp0 in Vp.
    destruct (leb_upper_cases _ _ Fo H) as [->|[Fj Hj]]; [reflexivity|]. rewrite Vo in Hj.
    assert ((j + 0.5 <=? -137438953471) = true) as Hc.
    { apply (faithful_upper _ _ _ (add_faithful j 0.5 Fj Fh) Fp). rewrite Vp, Vh. lra. }
    destruct (leb_upper_cases _ _ Fp Hc) as [->|[Fc Hc']]; [reflexivity|]. rewrite Vp in Hc'.
    assert ((j + 0.5 - J1970 <=? -137441394059) = true) as He.
    { apply (faithful_upper _ _ _ (sub_faithful _ J1970 Fc FJ) Fq). rewrite Vq, VJ. lra. }
    destruct (leb_upper_cases _ _ Fq He) as [->|[Fe He']]; [reflexivity|]. rewrite Vq in He'.
    apply (faithful_upper _ _ _ (mul_faithful _ MILLISECONDS_PER_DAY Fe FD) Fo').
    rewrite Vo', VD. lra.
Qed.

(** The Julian days 1e12 and -infinity. *)
Lemma fromJulian_saturates_witness :
  fromJulian 1e12 = (2 ^ 63 - 1)%Z /\ fromJulian neg_infinity = (2 ^ 63)%Z.
Proof.
  split.
  - apply (fromJulian_saturates 1e12). reflexivity.
  - apply (fromJulian_saturates neg_infinity). reflexivity.
Defined.

(** ** [toJulian] and [toDays] on millisecond timestamps *)

Lemma B2R_J2000 : is_finite J2000 = true /\ B2R J2000 = 2451545%R.
Proof. apply (B2R_int J2000 2451545 eq_refl). simpl. lia. Qed.

(** The subtraction of J2000 in [toDays] does not round. *)
Lemma toDays_exact t : (0 <= t < 2 ^ 47)%Z ->
  is_finite (toDays (F64.of_Z t)) = true /\
  B2R (toDays (F64.of_Z t)) = (B2R (toJulian (F64.of_Z t)) - 2451545)%R.
Proof.
  intros Ht. destruct (toJulian_error t Ht) as [Fj Ej]. apply Rabs_le_inv in Ej.
  destruct B2R_J2000 as [F2 V2]. unfold toDays.
  assert (0 <= IZR t < 140737488355328)%R as HT.
  { split; [apply IZR_le; lia|]. apply (IZR_lt t (2 ^ 47)). lia. }
  set (j := toJulian (F64.of_Z t)) in *.
  destruct (binade_21_grid j Fj ltac:(lra)) as (n & Hn & Bn).
  rewrite <- V2. apply faithful_value.
  - apply sub_faithful; auto.
  - replace (B2R j - B2R J2000)%R with (F2R (n - 2451545 * 2 ^ 31) (-31)).
    + apply representable_F2R; [lia|lia|apply F2R_abs_lt; lia].
    + rewrite F2R_minus, <- Hn, V2. unfold F2R. rewrite bpow_m31.
      change (2451545 * 2 ^ 31)%Z with 5264652799836160%Z. lra.
Qed.

(** X12: accuracy of [toJulian] and [toDays].  For a timestamp of the first
    2^47 milliseconds after the epoch (until the year 6429), the Julian day
    and the day count since J2000 are within 2^-30 day (80 microseconds) of
    the exact values [t / 86400000 + 2440587.5] and
    [t / 86400000 - 10957.5]. *)
Theorem toJulian_toDays_accuracy t : (0 <= t < 2 ^ 47)%Z ->
  (Rabs (B2R (toJulian (F64.of_Z t)) - (IZR t / 86400000 + 2440587.5)) <= / 1073741824)%R /\
  (Rabs (B2R (toDays (F64.of_Z t)) - (IZR t / 86400000 - 10957.5)) <= / 1073741824)%R.
Proof.
  intros Ht. destruct (toJulian_error t Ht) as [Fj Ej].
  destruct (toDays_exact t Ht) as [Fd Vd].
  split; [exact Ej|]. rewrite Vd. apply Rabs_le_inv in Ej. apply Rabs_le. lra.
Qed.

(** The timestamp 1371816000000 (21 June 2013, 12:00 UTC). *)
Lemma toJulian_toDays_accuracy_witness :
  (Rabs (B2R (toJulian (F64.of_Z 1371816000000))
         - (IZR 1371816000000 / 86400000 + 2440587.5)) <= / 1073741824)%R /\
  (Rabs (B2R (toDays (F64.of_Z 1371816000000))
         - (IZR 1371816000000 / 86400000 - 10957.5)) <= / 1073741824)%R.
Proof. apply (toJulian_toDays_accuracy 1371816000000). split; [lia|reflexivity]. Defined.

(** X13: [toJulian] and [toDays] are strictly increasing on the timestamps of
    the first 2^47 milliseconds after the epoch: a later millisecond has a
    later Julian day, so distinct timestamps never share one. *)
Theorem toJulian_strictly_increasing t1 t2 :
  (0 <= t1)%Z -> (t1 < t2)%Z -> (t2 < 2 ^ 47)%Z ->
  (toJulian (F64.of_Z t1) <? toJulian (F64.of_Z t2)) = true /\
  (toDays (F64.of_Z t1) <? toDays (F64.of_Z t2)) = true.
Proof.
  intros H0 H12 H2.
  destruct (toJulian_error t1 ltac:(lia)) as [F1 E1].
  destruct (toJulian_error t2 ltac:(lia)) as [F2 E2].
  destruct (toDays_exact t1 ltac:(lia)) as [Fd1 Vd1].
  destruct (toDays_exact t2 ltac:(lia)) as [Fd2 Vd2].
  apply Rabs_le_inv in E1, E2.
  assert (IZR t1 + 1 <= IZR t2)%R as Ht.
  { rewrite <- plus_IZR. apply IZR_le. lia. }
  assert (B2R (toJulian (F64.of_Z t1)) < B2R (toJulian (F64.of_Z t2)))%R as Hlt by lra.
  split; apply ltb_R; auto. lra.
Qed.

(** Two consecutive milliseconds of 21 June 2013. *)
Lemma toJulian_strictly_increasing_witness :
  (toJulian (F64.of_Z 1371816000000) <? toJulian (F64.of_Z 1371816000001)) = true /\
  (toDays (F64.of_Z 1371816000000) <? toDays (F64.of_Z 1371816000001)) = true.
Proof. apply toJulian_strictly_increasing; [lia|lia|reflexivity]. Defined.

(** ** The Julian cycle number *)

Lemma round_not_finite x : is_finite x = false -> F64.round x = x.
Proof.
  intros F. rewrite is_finite_spec in F. rewrite <- (SF2Prim_Prim2SF x).
  destruct (Prim2SF x) as [s|s| |s m e]; try discriminate F.
  - destruct s; reflexivity.
  - reflexivity.
Qed.

(** X14: the cycle number [julianCycle] returns is a whole number.  When the
    value handed to [Math.round], [d - J0 - lw / (2 * PI)] as computed, is
    finite, the result is the integer [n] with [n - 1/2 <= value < n + 1/2]
    (a tie goes up); an infinite or NaN value is returned as it is. *)
Theorem julianCycle_nearest_integer d lw :
  (is_finite (d - J0 - lw / (2.0 * PI)) = true ->
   exists n : Z,
     is_finite (julianCycle d lw) = true /\ B2R (julianCycle d lw) = IZR n /\
     (IZR n - / 2 <= B2R (d - J0 - lw / (2.0 * PI)) < IZR n + / 2)%R) /\
  (is_finite (d - J0 - lw / (2.0 * PI)) = false ->
   julianCycle d lw = d - J0 - lw / (2.0 * PI)).
Proof.
  unfold julianCycle. split; intros F.
  - apply round_nearest. exact F.
  - apply round_not_finite. exact F.
Qed.

(** Day 4919.5 after J2000 at longitude 30.5°E, and an infinite day. *)
Lemma julianCycle_nearest_integer_witness :
  (exists n : Z,
     is_finite (julianCycle 4919.5 (getTimes_lw 30.5)) = true /\
     B2R (julianCycle 4919.5 (getTimes_lw 30.5)) = IZR n /\
     (IZR n - / 2 <= B2R (4919.5 - J0 - getTimes_lw 30.5 / (2.0 * PI)) < IZR n + / 2)%R) /\
  julianCycle infinity 0 = infinity.
Proof.
  split.
  - apply (julianCycle_nearest_integer 4919.5 (getTimes_lw 30.5)). reflexivity.
  - apply (julianCycle_nearest_integer infinity 0). reflexivity.
Defined.

(** ** The refraction term *)

Lemma B2R_literal c m e :
  Prim2SF c = S754_finite false m e ->
  is_finite c = true /\ B2R c = (IZR (Zpos m) * bpow e)%R.
Proof.
  intros E. split; [rewrite is_finite_spec, E; reflexivity|].
  unfold B2R. rewrite E, SF2R_finite. reflexivity.
Qed.

Lemma div_ge_of_mul c D X : (0 < D)%R -> (X * D <= c)%R -> (X <= c / D)%R.
Proof.
  intros HD H. apply (Rmult_le_reg_r D); [exact HD|].
  unfold Rdiv. rewrite Rmult_assoc, Rinv_l by lra. lra.
Qed.

Lemma div_le_of_mul c D X : (0 < D)%R -> (c <= X * D)%R -> (c / D <= X)%R.
Proof.
  intros HD H. apply (Rmult_le_reg_r D); [exact HD|].
  unfold Rdiv. rewrite Rmult_assoc, Rinv_l by lra. lra.
Qed.

(** The three constants of [astro_refraction] and the two bounds. *)
Lemma refraction_constants :
  (is_finite 0.08901179 = true /\ (0.0890117 <= B2R 0.08901179 <= 0.0890118)%R) /\
  (is_finite 0.00312536 = true /\ (0.0031253 <= B2R 0.00312536 <= 0.0031254)%R) /\
  (is_finite 0.0002967 = true /\ (0.0002966 <= B2R 0.0002967 <= 0.0002968)%R) /\
  (is_finite 0.035 = true /\ (0.0349999 <= B2R 0.035 <= 0.0350001)%R) /\
  (is_finite 0.0085 = true /\ (0.0084999 <= B2R 0.0085 <= 0.0085001)%R).
Proof.
  repeat split; try reflexivity.
  all: match goal with
       | |- context [B2R ?c] =>
           let sf := eval vm_compute in (Prim2SF c) in
           match sf with
           | S754_finite false ?m ?e =>
               destruct (B2R_literal c m e eq_refl) as [_ ->];
               let k := eval vm_compute in (- e)%Z in
               change (bpow e) with (bpow (- k)); rewrite (bpow_neg k) by lia
           end
       end.
  all: match goal with |- context [IZR (2 ^ ?k)] =>
         let v := eval vm_compute in (2 ^ k)%Z in change (2 ^ k)%Z with v end.
  all: lra.
Qed.

Lemma B2R_eighth : is_finite 0.125 = true /\ B2R 0.125 = (/ 8)%R.
Proof.
  destruct (B2R_dyadic 0.125 1 3 eq_refl ltac:(lia) ltac:(simpl; lia)) as [F V].
  split; [exact F|]. rewrite V. change (2 ^ 3)%Z with 8%Z. lra.
Qed.

(** The quotient handed to [tan], for a denominator of 0.035 or more. *)
Lemma refraction_quotient d2 : (0.035 <=? d2) = true ->
  (0 <=? 0.0002967 / d2) = true /\ (0.0002967 / d2 <=? 0.0085) = true.
Proof.
  destruct refraction_constants as (_ & _ & [F3 B3] & [FL BL] & [FU BU]).
  intros H. destruct (leb_lower_cases _ _ FL H) as [->|[Fd Hd]]; [split; reflexivity|].
  assert (0 < B2R d2)%R as Pd by lra.
  apply between_leb; [reflexivity|exact FU|]. rewrite B2R_zero.
  apply (faithful_between (B2R 0.0002967 / B2R d2) _ 0 0.0085);
    [apply div_faithful; auto; lra|reflexivity|exact FU|].
  rewrite B2R_zero. split.
  - apply Rlt_le, Rdiv_lt_0_compat; lra.
  - apply div_le_of_mul; [exact Pd|]. nra.
Qed.

(** The denominator is at least 0.035, whatever the altitude at or above
    the horizon. *)
Lemma refraction_denominator hh : (0 <=? hh) = true ->
  (0.035 <=? hh + 0.00312536 / (hh + 0.08901179)) = true.
Proof.
  destruct refraction_constants as ([F1 B1] & [F2 B2] & _ & [FL BL] & _).
  destruct B2R_one as [Fo Vo]. destruct B2R_eighth as [Fe Ve].
  intros H. destruct (leb_lower_cases 0 hh eq_refl H) as [->|[Fh Hh]]; [reflexivity|].
  rewrite B2R_zero in Hh.
  pose proof (add_faithful hh 0.08901179 Fh F1) as Fa1.
  destruct (Rle_lt_dec (B2R 0.035) (B2R hh)) as [Big|Small].
  - assert (is_finite (0.00312536 / (hh + 0.08901179)) = true /\
            (0 <= B2R (0.00312536 / (hh + 0.08901179)))%R) as [Fq Hq].
    { pose proof (faithful_lower _ _ 0.08901179 Fa1 F1 ltac:(lra)) as Hl.
      destruct (leb_lower_cases _ _ F1 Hl) as [E|[Fd1 Hd1]].
      - rewrite E. split; [reflexivity|].
        change (0.00312536 / infinity) with 0. rewrite B2R_zero. lra.
      - assert (0 < B2R (hh + 0.08901179))%R as Pd by lra.
        destruct (faithful_between (B2R 0.00312536 / B2R (hh + 0.08901179))
                    (0.00312536 / (hh + 0.08901179)) 0 1.0)
          as [Fq Bq]; [apply div_faithful; auto; lra|reflexivity|exact Fo| |].
        + rewrite B2R_zero, Vo. split.
          * apply Rlt_le, Rdiv_lt_0_compat; lra.
          * apply div_le_of_mul; [exact Pd|]. lra.
        + rewrite B2R_zero in Bq. split; [exact Fq|lra]. }
    apply (faithful_lower _ _ 0.035 (add_faithful hh _ Fh Fq) FL). lra.
  - assert (bpow (-2) = / 4)%R as P2 by (apply (bpow_neg 2); lia).
    assert (bpow (-4) = / 16)%R as P4 by (apply (bpow_neg 4); lia).
    assert (bpow (-55) = / 36028797018963968)%R as P55 by (apply (bpow_neg 55); lia).
    assert (bpow (-57) = / 144115188075855872)%R as P57 by (apply (bpow_neg 57); lia).
    destruct (faithful_error _ (hh + 0.08901179) (-2) Fa1) as [Fd1 Ed1]; try lia.
    { rewrite P2. apply Rabs_def1; lra. }
    replace (-2 - 53)%Z with (-55)%Z in Ed1 by lia. rewrite P55 in Ed1.
    apply Rabs_le_inv in Ed1.
    set (d1 := hh + 0.08901179) in *.
    assert (0.089 <= B2R d1)%R as Ld1 by lra.
    assert ((0.03507 - B2R hh) <= B2R 0.00312536 / B2R d1)%R as Hnl.
    { apply div_ge_of_mul; [lra|]. nra. }
    destruct (faithful_error (B2R 0.00312536 / B2R d1) (0.00312536 / d1) (-4)) as [Fq Eq];
      try lia.
    { apply div_faithful; auto. lra. }
    { rewrite P4. apply Rabs_def1.
      - apply Rle_lt_trans with (0.04)%R; [|lra]. apply div_le_of_mul; lra.
      - apply Rlt_le_trans with 0%R; [lra|]. apply Rlt_le, Rdiv_lt_0_compat; lra. }
    replace (-4 - 53)%Z with (-57)%Z in Eq by lia. rewrite P57 in Eq.
    apply Rabs_le_inv in Eq.
    apply (faithful_lower _ _ 0.035 (add_faithful hh _ Fh Fq) FL). lra.
Qed.

Lemma leb_zero_not_ltb h : (h <=? 0) = true -> (h <? 0) = false ->
  h = 0 \/ h = neg_zero.
Proof.
  rewrite leb_spec, ltb_spec. change (Prim2SF 0) with (S754_zero false).
  intros H1 H2. rewrite <- (SF2Prim_Prim2SF h).
  destruct (Prim2SF h) as [s|s| |s m e]; try discriminate H1.
  - destruct s; [right|left]; reflexivity.
  - destruct s; [discriminate H2|discriminate H1].
  - destruct s; [discriminate H2|discriminate H1].
Qed.

(** X15: the refraction term of the Moon's altitude.  At or below the horizon
    it is the term of the horizon itself; and for every altitude that is not
    NaN, [+infinity] included, the angle handed to [tan] lies in
    [0, 0.0085] radians: the denominators never vanish and the correction
    stays far from a pole of the tangent. *)
Theorem astro_refraction_clamped_and_bounded M h :
  ((h <=? 0) = true -> astro_refraction M h = astro_refraction M 0) /\
  (is_nan h = false ->
   exists a, astro_refraction M h = m_tan M a /\
             (0 <=? a) = true /\ (a <=? 0.0085) = true).
Proof.
  split.
  - intros H. unfold astro_refraction.
    destruct (h <? 0.0) eqn:Hl; [reflexivity|].
    destruct (leb_zero_not_ltb h H Hl) as [->| ->]; reflexivity.
  - intros N. unfold astro_refraction.
    set (hh := if h <? 0.0 then 0.0 else h).
    assert ((0 <=? hh) = true) as Hh.
    { unfold hh. destruct (h <? 0.0) eqn:Hl; [reflexivity|].
      apply ltb_false_leb; [exact Hl|exact N|reflexivity]. }
    exists (0.0002967 / (hh + 0.00312536 / (hh + 0.08901179))).
    split; [reflexivity|].
    apply refraction_quotient, refraction_denominator. exact Hh.
Qed.

(** The altitudes -0.3 and 0.7 radians. *)
Lemma astro_refraction_witness :
  astro_refraction Coarse.math (-0.3) = astro_refraction Coarse.math 0 /\
  exists a, astro_refraction Coarse.math 0.7 = m_tan Coarse.math a /\
            (0 <=? a) = true /\ (a <=? 0.0085) = true.
Proof.
  split.
  - apply (astro_refraction_clamped_and_bounded Coarse.math (-0.3)). reflexivity.
  - apply (astro_refraction_clamped_and_bounded Coarse.math 0.7). reflexivity.
Defined.

(** ** The solar day [getTimes] works on *)

Lemma B2R_two_pi :
  is_finite (2.0 * PI) = true /\ (6.28 <= B2R (2.0 * PI) <= 6.29)%R.
Proof.
  destruct (B2R_literal (2.0 * PI) 7074237752028440 (-50) eq_refl) as [F V].
  split; [exact F|]. rewrite V.
  change (bpow (-50)) with (bpow (- (50))). rewrite (bpow_neg 50) by lia.
  change (2 ^ 50)%Z with 1125899906842624%Z. lra.
Qed.

Lemma B2R_TO_RAD : is_finite TO_RAD = true /\ (0.01745 <= B2R TO_RAD <= 0.01746)%R.
Proof.
  destruct (B2R_literal TO_RAD 5030569068109113 (-58) eq_refl) as [F V].
  split; [exact F|]. rewrite V.
  change (bpow (-58)) with (bpow (- (58))). rewrite (bpow_neg 58) by lia.
  change (2 ^ 58)%Z with 288230376151711744%Z. lra.
Qed.

Lemma B2R_J0 : is_finite J0 = true /\ (0.0008 <= B2R J0 <= 0.001)%R.
Proof.
  destruct (B2R_literal J0 8301034833169298 (-63) eq_refl) as [F V].
  split; [exact F|]. rewrite V.
  change (bpow (-63)) with (bpow (- (63))). rewrite (bpow_neg 63) by lia.
  change (2 ^ 63)%Z with 9223372036854775808%Z. lra.
Qed.

(** The cycle number: a bounded integer within half a day of the value it
    rounds. *)
Lemma julianCycle_bounded d lw :
  is_finite d = true -> (Rabs (B2R d) <= 2097152)%R ->
  is_finite lw = true -> (Rabs (B2R lw) <= 8)%R ->
  is_finite (julianCycle d lw) = true /\
  (Rabs (B2R (julianCycle d lw)) <= 2097156)%R /\
  (Rabs (B2R (julianCycle d lw) - (B2R d - B2R J0 - B2R lw / B2R (2.0 * PI)))
   <= / 2 + / 536870912)%R.
Proof.
  intros Fd Bd Fl Bl. apply Rabs_le_inv in Bd, Bl.
  destruct B2R_two_pi as [Ft Bt]. destruct B2R_J0 as [F0 B0].
  assert (bpow (-31) = / 2147483648)%R as P31 by exact bpow_m31.
  assert (bpow (-52) = / 4503599627370496)%R as P52 by (apply (bpow_neg 52); lia).
  assert (bpow 1 = 2)%R as P1 by (apply (bpow_IZR 1); lia).
  unfold julianCycle.
  set (tp := 2.0 * PI) in *.
  assert (- 1.3 <= B2R lw / B2R tp <= 1.3)%R as Bq.
  { split; [apply div_ge_of_mul|apply div_le_of_mul]; nra. }
  destruct (faithful_error (B2R d - B2R J0) (d - J0) 22 (sub_faithful d J0 Fd F0))
    as [F1 E1]; try lia.
  { rewrite bpow_22. apply Rabs_def1; lra. }
  replace (22 - 53)%Z with (-31)%Z in E1 by lia. rewrite P31 in E1. apply Rabs_le_inv in E1.
  destruct (faithful_error (B2R lw / B2R tp) (lw / tp) 1) as [F2 E2]; try lia.
  { apply div_faithful; auto. lra. }
  { rewrite P1. apply Rabs_def1; lra. }
  replace (1 - 53)%Z with (-52)%Z in E2 by lia. rewrite P52 in E2. apply Rabs_le_inv in E2.
  destruct (faithful_error (B2R (d - J0) - B2R (lw / tp)) (d - J0 - lw / tp) 22
              (sub_faithful _ _ F1 F2)) as [F3 E3]; try lia.
  { rewrite bpow_22. apply Rabs_def1; lra. }
  replace (22 - 53)%Z with (-31)%Z in E3 by lia. rewrite P31 in E3. apply Rabs_le_inv in E3.
  destruct (round_nearest _ F3) as (n & Fn & Vn & Hn).
  split; [exact Fn|]. rewrite Vn. split; apply Rabs_le; lra.
Qed.

(** [approxTransit] for an hour angle of [0, 4] and a bounded cycle number:
    the value of its formula, within 2^-30 day. *)
Lemma approxTransit_value x lw n :
  is_finite x = true -> (0 <= B2R x <= 4)%R ->
  is_finite lw = true -> (Rabs (B2R lw) <= 8)%R ->
  is_finite n = true -> (Rabs (B2R n) <= 2097156)%R ->
  is_finite (approxTransit x lw n) = true /\
  (Rabs (B2R (approxTransit x lw n)
         - (B2R J0 + (B2R x + B2R lw) / B2R (2.0 * PI) + B2R n)) <= / 1073741824)%R.
Proof.
  intros Fx Bx Fl Bl Fn Bn. apply Rabs_le_inv in Bl, Bn.
  destruct B2R_two_pi as [Ft Bt]. destruct B2R_J0 as [F0 B0].
  assert (bpow (-31) = / 2147483648)%R as P31 by exact bpow_m31.
  assert (bpow (-52) = / 4503599627370496)%R as P52 by (apply (bpow_neg 52); lia).
  assert (bpow (-51) = / 2251799813685248)%R as P51 by (apply (bpow_neg 51); lia).
  assert (bpow (-49) = / 562949953421312)%R as P49 by (apply (bpow_neg 49); lia).
  assert (bpow 1 = 2)%R as P1 by (apply (bpow_IZR 1); lia).
  assert (bpow 2 = 4)%R as P2 by (apply (bpow_IZR 2); lia).
  assert (bpow 4 = 16)%R as P4 by (apply (bpow_IZR 4); lia).
  unfold approxTransit.
  set (tp := 2.0 * PI) in *.
  destruct (faithful_error (B2R x + B2R lw) (x + lw) 4 (add_faithful _ _ Fx Fl))
    as [F1 E1]; try lia.
  { rewrite P4. apply Rabs_def1; lra. }
  replace (4 - 53)%Z with (-49)%Z in E1 by lia. rewrite P49 in E1. apply Rabs_le_inv in E1.
  assert (- 1.92 <= (B2R x + B2R lw) / B2R tp <= 1.92)%R as Bq.
  { split; [apply div_ge_of_mul|apply div_le_of_mul]; nra. }
  assert (Rabs (B2R (x + lw) / B2R tp - (B2R x + B2R lw) / B2R tp) <= / 1125899906842624)%R
    as Eq.
  { replace (B2R (x + lw) / B2R tp - (B2R x + B2R lw) / B2R tp)%R
      with ((B2R (x + lw) - (B2R x + B2R lw)) / B2R tp)%R by (field; lra).
    apply Rabs_le. split; [apply div_ge_of_mul|apply div_le_of_mul]; nra. }
  apply Rabs_le_inv in Eq.
  destruct (faithful_error (B2R (x + lw) / B2R tp) ((x + lw) / tp) 1) as [F2 E2]; try lia.
  { apply div_faithful; auto. lra. }
  { rewrite P1. apply Rabs_def1; lra. }
  replace (1 - 53)%Z with (-52)%Z in E2 by lia. rewrite P52 in E2. apply Rabs_le_inv in E2.
  destruct (faithful_error (B2R J0 + B2R ((x + lw) / tp)) (J0 + (x + lw) / tp) 2
              (add_faithful _ _ F0 F2)) as [F3 E3]; try lia.
  { rewrite P2. apply Rabs_def1; lra. }
  replace (2 - 53)%Z with (-51)%Z in E3 by lia. rewrite P51 in E3. apply Rabs_le_inv in E3.
  destruct (faithful_error (B2R (J0 + (x + lw) / tp) + B2R n) (J0 + (x + lw) / tp + n) 22
              (add_faithful _ _ F3 Fn)) as [F4 E4]; try lia.
  { rewrite bpow_22. apply Rabs_def1; lra. }
  replace (22 - 53)%Z with (-31)%Z in E4 by lia. rewrite P31 in E4. apply Rabs_le_inv in E4.
  split; [exact F4|]. apply Rabs_le. lra.
Qed.

(** The approximate transit of the cycle [julianCycle] picks is within half
    a day of the day value it was picked for. *)
Lemma approxTransit_near d lw :
  is_finite d = true -> (Rabs (B2R d) <= 2097152)%R ->
  is_finite lw = true -> (Rabs (B2R lw) <= 8)%R ->
  is_finite (approxTransit 0.0 lw (julianCycle d lw)) = true /\
  (Rabs (B2R (approxTransit 0.0 lw (julianCycle d lw)) - B2R d) <= / 2 + / 268435456)%R.
Proof.
  intros Fd Bd Fl Bl.
  destruct (julianCycle_bounded d lw Fd Bd Fl Bl) as (Fn & Bn & En).
  destruct (approxTransit_value 0.0 lw _ eq_refl ltac:(rewrite B2R_zero; lra) Fl Bl Fn Bn)
    as [Fa Ea].
  rewrite B2R_zero, Rplus_0_l in Ea. apply Rabs_le_inv in En, Ea.
  split; [exact Fa|]. apply Rabs_le. lra.
Qed.

Lemma getTimes_lw_range lon :
  (-360 <=? lon) = true -> (lon <=? 360) = true ->
  is_finite (getTimes_lw lon) = true /\ (Rabs (B2R (getTimes_lw lon)) <= 8)%R.
Proof.
  intros H1 H2. unfold getTimes_lw.
  destruct (B2R_int 360 360 eq_refl ltac:(simpl; lia)) as [Fu Vu].
  destruct (B2R_opp 360) as [Fo Vo]. rewrite Fu in Fo. rewrite Vu in Vo.
  destruct (leb_between lon _ _ Fo Fu H1 H2) as [Fl Bl]. rewrite Vo, Vu in Bl.
  destruct (B2R_opp lon) as [Fn Vn]. rewrite Fl in Fn.
  destruct B2R_TO_RAD as [Ft Bt].
  destruct (B2R_int 8 8 eq_refl ltac:(simpl; lia)) as [F8 V8].
  destruct (B2R_opp 8) as [Fm Vm]. rewrite F8 in Fm. rewrite V8 in Vm.
  destruct (faithful_between (B2R (- lon) * B2R TO_RAD) (- lon * TO_RAD) _ 8
              (mul_faithful _ _ Fn Ft) Fm F8) as [F B].
  { rewrite Vm, V8, Vn. split; nra. }
  rewrite Vm, V8 in B. split; [exact F|]. apply Rabs_le. lra.
Qed.

(** X16: the solar day [getTimes] works on.  For a timestamp of the first 2^47
    milliseconds after the epoch and a longitude of [-360, 360] degrees, the
    approximate transit [ds], from which solar noon and every other moment
    are computed, is within half a day (and 2^-27) of the timestamp's exact
    day count since J2000, [t / 86400000 - 10957.5]. *)
Theorem getTimes_transit_within_half_day t lon :
  (0 <= t < 2 ^ 47)%Z -> (-360 <=? lon) = true -> (lon <=? 360) = true ->
  is_finite (approxTransit 0.0 (getTimes_lw lon) (getTimes_n (F64.of_Z t) lon)) = true /\
  (Rabs (B2R (approxTransit 0.0 (getTimes_lw lon) (getTimes_n (F64.of_Z t) lon))
         - (IZR t / 86400000 - 10957.5)) <= / 2 + / 134217728)%R.
Proof.
  intros Ht H1 H2.
  destruct (toJulian_error t Ht) as [_ Ej]. apply Rabs_le_inv in Ej.
  destruct (toDays_exact t Ht) as [Fd Vd].
  destruct (getTimes_lw_range lon H1 H2) as [Fl Bl].
  assert (0 <= IZR t < 140737488355328)%R as HT.
  { split; [apply IZR_le; lia|]. apply (IZR_lt t (2 ^ 47)). lia. }
  unfold getTimes_n.
  destruct (approxTransit_near (toDays (F64.of_Z t)) (getTimes_lw lon) Fd) as [F E]; auto.
  { rewrite Vd. apply Rabs_le. lra. }
  split; [exact F|]. apply Rabs_le_inv in E. rewrite Vd in E. apply Rabs_le. lra.
Qed.

(** 21 June 2013, 12:00 UTC, longitude 30.5°E. *)
Lemma getTimes_transit_witness :
  is_finite (approxTransit 0.0 (getTimes_lw 30.5)
               (getTimes_n (F64.of_Z 1371816000000) 30.5)) = true /\
  (Rabs (B2R (approxTransit 0.0 (getTimes_lw 30.5) (getTimes_n (F64.of_Z 1371816000000) 30.5))
         - (IZR 1371816000000 / 86400000 - 10957.5)) <= / 2 + / 134217728)%R.
Proof.
  apply (getTimes_transit_within_half_day 1371816000000 30.5);
    [split; [lia|reflexivity]|reflexivity|reflexivity].
Defined.

(** ** From a Julian day to a timestamp and back *)

(** X17: the round trip that starts from a Julian day.  For a Julian day
    between 2440588 (1 January 1970, noon) and 4069000 (the year 6428),
    [fromJulian] returns a timestamp of [0, 2^47), and [toJulian] of that
    timestamp is within one millisecond, 1/86400000 day, of the Julian day
    it came from. *)
Theorem toJulian_fromJulian_roundtrip j :
  (2440588 <=? j) = true -> (j <=? 4069000) = true ->
  (0 <= fromJulian j < 2 ^ 47)%Z /\
  (Rabs (B2R (toJulian (F64.of_Z (fromJulian j))) - B2R j) <= / 86400000)%R.
Proof.
  intros H1 H2.
  destruct (B2R_int 4069000 4069000 eq_refl ltac:(simpl; lia)) as [Fu Vu].
  destruct B2R_J1970 as [FJ VJ]. change 2440588 with J1970 in H1.
  destruct (leb_between j _ _ FJ Fu H1 H2) as [Fj Bj]. rewrite VJ, Vu in Bj.
  pose proof (fromJulian_i64_accuracy j Fj ltac:(lra)) as A. apply Rabs_le_inv in A.
  assert (0 <= fromJulian_i64 j < 2 ^ 47)%Z as Bn.
  { change (2 ^ 47)%Z with 140737488355328%Z.
    split; [apply le_IZR|apply lt_IZR]; lra. }
  assert (fromJulian j = fromJulian_i64 j) as E.
  { unfold fromJulian, F64.to_u64. apply Z.mod_small.
    assert (2 ^ 47 < 2 ^ 64)%Z by reflexivity. lia. }
  rewrite E. split; [exact Bn|].
  destruct (toJulian_error _ Bn) as [_ Ej]. apply Rabs_le_inv in Ej.
  apply Rabs_le. lra.
Qed.

(** Julian day 2456465.25 (21 June 2013, 18:00 UTC). *)
Lemma toJulian_fromJulian_roundtrip_witness :
  (0 <= fromJulian 2456465.25 < 2 ^ 47)%Z /\
  (Rabs (B2R (toJulian (F64.of_Z (fromJulian 2456465.25))) - B2R 2456465.25)
   <= / 86400000)%R.
Proof. apply toJulian_fromJulian_roundtrip; reflexivity. Defined.

(** ** The side of the Moon's phase *)

Lemma phase_side M (L : MathLaws M) y x :
  (0 <=? m_atan2 M y x) = true ->
  (0.5 + 0.5 * m_atan2 M y x * -1.0 / PI <=? 0.5) = true /\
  (0.5 <=? 0.5 + 0.5 * m_atan2 M y x * 1.0 / PI) = true.
Proof.
  intros H0. set (inc := m_atan2 M y x) in *.
  destruct (leb_not_nan _ _ H0) as [_ Ni].
  destruct (atan2_range M L y x Ni) as [_ Hi]. fold inc in Hi.
  destruct B2R_PI as [Fpi Vpi].
  assert (is_finite 0 = true) as F0 by reflexivity.
  destruct (leb_between _ _ _ F0 Fpi H0 Hi) as [Fi Bi]. rewrite B2R_zero, Vpi in Bi.
  destruct B2R_half as [Fh Vh]. destruct B2R_one as [F1 V1]. destruct B2R_m1 as [Fm1 Vm1].
  destruct B2R_half_pi as [Fhp Vhp].
  destruct (B2R_opp 0x1.921fb54442d18p+0) as [Fnhp Vnhp]. rewrite Fhp in Fnhp. rewrite Vhp in Vnhp.
  destruct (B2R_opp 0.5) as [Fnh Vnh]. rewrite Fh in Fnh. rewrite Vh in Vnh.
  assert (B2R PI <> 0%R) as Npi by (rewrite Vpi; lra).
  destruct (faithful_between _ _ _ _ (mul_faithful 0.5 inc Fh Fi) F0 Fhp) as [Fu Bu].
  { rewrite B2R_zero, Vhp, Vh. lra. }
  rewrite B2R_zero, Vhp in Bu.
  split.
  - destruct (faithful_between _ _ _ _ (mul_faithful (0.5 * inc) (-1.0) Fu Fm1) Fnhp F0)
      as [Fw Bw].
    { rewrite Vnhp, B2R_zero, Vm1. lra. }
    rewrite Vnhp, B2R_zero in Bw.
    destruct (faithful_between _ _ _ _ (div_faithful (0.5 * inc * -1.0) PI Fw Fpi Npi) Fnh F0)
      as [Fz Bz].
    { rewrite Vnh, B2R_zero, Vpi. lra. }
    rewrite Vnh, B2R_zero in Bz.
    apply (faithful_upper _ _ 0.5 (add_faithful 0.5 _ Fh Fz) Fh). lra.
  - destruct (faithful_between _ _ _ _ (mul_faithful (0.5 * inc) 1.0 Fu F1) F0 Fhp)
      as [Fw Bw].
    { rewrite Vhp, B2R_zero, V1. lra. }
    rewrite Vhp, B2R_zero in Bw.
    destruct (faithful_between _ _ _ _ (div_faithful (0.5 * inc * 1.0) PI Fw Fpi Npi) F0 Fh)
      as [Fz Bz].
    { rewrite Vh, B2R_zero, Vpi. lra. }
    rewrite Vh, B2R_zero in Bz.
    apply (faithful_lower _ _ 0.5 (add_faithful 0.5 _ Fh Fz) Fh). lra.
Qed.

(** X18: the bright limb angle and the side of the phase.  The angle
    [getMoonIllumination] returns is in [-PI, PI] unless it is NaN; and when
    the phase angle [inc] is not negative, the phase is at most 0.5 for a
    negative angle (the Moon waxes) and at least 0.5 otherwise. *)
Theorem getMoonIllumination_angle_and_phase_side M (L : MathLaws M) ts :
  (is_nan (angle (getMoonIllumination M ts)) = false ->
   (- PI <=? angle (getMoonIllumination M ts)) = true /\
   (angle (getMoonIllumination M ts) <=? PI) = true) /\
  ((0 <=? illum_inc M ts) = true ->
   ((angle (getMoonIllumination M ts) <? 0) = true ->
    (phase (getMoonIllumination M ts) <=? 0.5) = true) /\
   ((angle (getMoonIllumination M ts) <? 0) = false ->
    (0.5 <=? phase (getMoonIllumination M ts)) = true)).
Proof.
  split.
  - intros N. apply (atan2_range M L). exact N.
  - intros H. unfold illum_inc, illum_phi in H. cbv zeta in H.
    destruct (phase_side M L _ _ H) as [A B].
    unfold getMoonIllumination. cbv zeta. cbn [angle phase].
    split; intros Hs; rewrite Hs; [exact A|exact B].
Qed.

(** 21 June 2013 (the Moon waxes) and 28 June 2013 (it wanes), 12:00 UTC. *)
Lemma getMoonIllumination_phase_side_witness :
  (phase (getMoonIllumination Coarse.math 1371816000000) <=? 0.5) = true /\
  (0.5 <=? phase (getMoonIllumination Coarse.math 1372420800000)) = true.
Proof.
  destruct (getMoonIllumination_angle_and_phase_side Coarse.math coarse_laws 1371816000000)
    as [_ A].
  destruct (getMoonIllumination_angle_and_phase_side Coarse.math coarse_laws 1372420800000)
    as [_ B].
  split.
  - apply A; vm_compute; reflexivity.
  - apply B; vm_compute; reflexivity.
Defined.

(** ** Solar noon and the timestamp *)

Lemma solar_transit_constants :
  (is_finite 0.0053 = true /\ (0.005299 <= B2R 0.0053 <= 0.00530000001)%R) /\
  (is_finite 0.0069 = true /\ (0.006899 <= B2R 0.0069 <= 0.00690000001)%R).
Proof.
  repeat split; try reflexivity.
  all: match goal with
       | |- context [B2R ?c] =>
           let sf := eval vm_compute in (Prim2SF c) in
           match sf with
           | S754_finite false ?m ?e =>
               destruct (B2R_literal c m e eq_refl) as [_ ->];
               let k := eval vm_compute in (- e)%Z in
               change (bpow e) with (bpow (- k)); rewrite (bpow_neg k) by lia
           end
       end.
  all: match goal with |- context [IZR (2 ^ ?k)] =>
         let v := eval vm_compute in (2 ^ k)%Z in change (2 ^ k)%Z with v end.
  all: lra.
Qed.

(** The transit moment for two sines of [-1, 1]: the sum of its formula,
    within 3 * 2^-31 day; the two periodic terms are at most 0.0053 and
    0.0069 day. *)
Lemma solarTransitJ_value M ds m l :
  is_finite ds = true -> (-12000 <= B2R ds <= 1700000)%R ->
  (-1.0 <=? m_sin M m) = true -> (m_sin M m <=? 1.0) = true ->
  (-1.0 <=? m_sin M (2.0 * l)) = true -> (m_sin M (2.0 * l) <=? 1.0) = true ->
  is_finite (solarTransitJ M ds m l) = true /\
  (Rabs (B2R (0.0053 * m_sin M m)) <= 0.0053000001)%R /\
  (Rabs (B2R (0.0069 * m_sin M (2.0 * l))) <= 0.0069000001)%R /\
  (Rabs (B2R (solarTransitJ M ds m l)
         - (2451545 + B2R ds + B2R (0.0053 * m_sin M m) - B2R (0.0069 * m_sin M (2.0 * l))))
   <= 3 / 2147483648)%R.
Proof.
  intros Fd Bd A1 A2 C1 C2. unfold solarTransitJ.
  destruct solar_transit_constants as ([Fa Ba] & [Fb Bb]).
  destruct B2R_m1 as [Fm Vm]. destruct B2R_one as [Fo Vo]. destruct B2R_J2000 as [FJ VJ].
  destruct (leb_between _ _ _ Fm Fo A1 A2) as [Fs1 Bs1]. rewrite Vm, Vo in Bs1.
  destruct (leb_between _ _ _ Fm Fo C1 C2) as [Fs2 Bs2]. rewrite Vm, Vo in Bs2.
  assert (bpow (-31) = / 2147483648)%R as P31 by exact bpow_m31.
  assert (bpow (-7) = / 128)%R as P7 by (apply (bpow_neg 7); lia).
  assert (bpow (-60) = / 1152921504606846976)%R as P60 by (apply (bpow_neg 60); lia).
  set (s1 := m_sin M m) in *. set (s2 := m_sin M (2.0 * l)) in *.
  destruct (faithful_error (B2R J2000 + B2R ds) (J2000 + ds) 22 (add_faithful _ _ FJ Fd))
    as [F1 E1]; try lia.
  { rewrite bpow_22, VJ. apply Rabs_def1; lra. }
  replace (22 - 53)%Z with (-31)%Z in E1 by lia. rewrite P31, VJ in E1.
  apply Rabs_le_inv in E1.
  destruct (faithful_error (B2R 0.0053 * B2R s1) (0.0053 * s1) (-7) (mul_faithful _ _ Fa Fs1))
    as [F2 E2]; try lia.
  { rewrite P7. apply Rabs_def1; nra. }
  replace (-7 - 53)%Z with (-60)%Z in E2 by lia. rewrite P60 in E2. apply Rabs_le_inv in E2.
  assert (- 0.0053000001 <= B2R (0.0053 * s1) <= 0.0053000001)%R as B2 by nra.
  destruct (faithful_error (B2R (J2000 + ds) + B2R (0.0053 * s1)) (J2000 + ds + 0.0053 * s1) 22
              (add_faithful _ _ F1 F2)) as [F3 E3]; try lia.
  { rewrite bpow_22. apply Rabs_def1; lra. }
  replace (22 - 53)%Z with (-31)%Z in E3 by lia. rewrite P31 in E3. apply Rabs_le_inv in E3.
  destruct (faithful_error (B2R 0.0069 * B2R s2) (0.0069 * s2) (-7) (mul_faithful _ _ Fb Fs2))
    as [F4 E4]; try lia.
  { rewrite P7. apply Rabs_def1; nra. }
  replace (-7 - 53)%Z with (-60)%Z in E4 by lia. rewrite P60 in E4. apply Rabs_le_inv in E4.
  assert (- 0.0069000001 <= B2R (0.0069 * s2) <= 0.0069000001)%R as B4 by nra.
  destruct (faithful_error (B2R (J2000 + ds + 0.0053 * s1) - B2R (0.0069 * s2))
              (J2000 + ds + 0.0053 * s1 - 0.0069 * s2) 22
              (sub_faithful _ _ F3 F4)) as [F5 E5]; try lia.
  { rewrite bpow_22. apply Rabs_def1; lra. }
  replace (22 - 53)%Z with (-31)%Z in E5 by lia. rewrite P31 in E5. apply Rabs_le_inv in E5.
  split; [exact F5|]. repeat split; apply Rabs_le; lra.
Qed.

(** So it is within 0.0122 day of [J2000 + ds]. *)
Lemma solarTransitJ_near M ds m l :
  is_finite ds = true -> (-12000 <= B2R ds <= 1700000)%R ->
  (-1.0 <=? m_sin M m) = true -> (m_sin M m <=? 1.0) = true ->
  (-1.0 <=? m_sin M (2.0 * l)) = true -> (m_sin M (2.0 * l) <=? 1.0) = true ->
  is_finite (solarTransitJ M ds m l) = true /\
  (Rabs (B2R (solarTransitJ M ds m l) - (2451545 + B2R ds)) <= 0.0122 + / 500000000)%R.
Proof.
  intros Fd Bd A1 A2 C1 C2.
  destruct (solarTransitJ_value M ds m l Fd Bd A1 A2 C1 C2) as (F & P1 & P2 & E).
  apply Rabs_le_inv in P1, P2, E. split; [exact F|]. apply Rabs_le. lra.
Qed.

(** X19: solar noon and the timestamp.  For a timestamp [t] of the first 2^47
    milliseconds after the epoch and a longitude of [-360, 360] degrees,
    when the two sines of the transit formula are in [-1, 1], the solar noon
    [getTimes] returns (read as a signed count) is within 44254082 ms of [t]:
    half a day for the choice of the cycle, 0.0122 day for the equation of
    time, 2 ms for the roundings. *)
Theorem getTimes_solarNoon_near_timestamp M t lat lon h :
  (0 <= t < 2 ^ 47)%Z -> (-360 <=? lon) = true -> (lon <=? 360) = true ->
  (-1.0 <=? m_sin M (getTimes_m (F64.of_Z t) lon)) = true ->
  (m_sin M (getTimes_m (F64.of_Z t) lon) <=? 1.0) = true ->
  (-1.0 <=? m_sin M (2.0 * getTimes_l M (F64.of_Z t) lon)) = true ->
  (m_sin M (2.0 * getTimes_l M (F64.of_Z t) lon) <=? 1.0) = true ->
  (Z.abs (F64.as_signed (solarNoon (getTimes M (F64.of_Z t) lat lon h)) - t) <= 44254082)%Z.
Proof.
  intros Ht H1 H2 A1 A2 C1 C2.
  change (solarNoon (getTimes M (F64.of_Z t) lat lon h))
    with (fromJulian (getTimes_j_noon M (F64.of_Z t) lon)).
  rewrite fromJulian_signed. unfold getTimes_j_noon.
  assert (0 <= IZR t < 140737488355328)%R as HT.
  { split; [apply IZR_le; lia|]. apply (IZR_lt t (2 ^ 47)). lia. }
  destruct (toJulian_error t Ht) as [_ Ej]. apply Rabs_le_inv in Ej.
  destruct (toDays_exact t Ht) as [Fd Vd].
  destruct (getTimes_lw_range lon H1 H2) as [Fl Bl].
  destruct (approxTransit_near (toDays (F64.of_Z t)) (getTimes_lw lon) Fd) as [F E]; auto.
  { rewrite Vd. apply Rabs_le. lra. }
  apply Rabs_le_inv in E. rewrite Vd in E.
  fold (getTimes_n (F64.of_Z t) lon) in F, E.
  set (ds := approxTransit 0.0 (getTimes_lw lon) (getTimes_n (F64.of_Z t) lon)) in *.
  destruct (solarTransitJ_near M ds (getTimes_m (F64.of_Z t) lon)
              (getTimes_l M (F64.of_Z t) lon) F ltac:(lra) A1 A2 C1 C2) as [Fj Bj].
  apply Rabs_le_inv in Bj.
  set (j := solarTransitJ M ds _ _) in *.
  pose proof (fromJulian_i64_accuracy j Fj ltac:(lra)) as A. apply Rabs_le_inv in A.
  apply Z.abs_le.
  assert (IZR (-44254083) < IZR (fromJulian_i64 j - t) < IZR 44254083)%R as [Lo Hi]
    by (rewrite minus_IZR; lra).
  apply lt_IZR in Lo, Hi. lia.
Qed.

(** 21 June 2013, 12:00 UTC, at 50.5°N 30.5°E: solar noon is 7136700 ms
    earlier. *)
Lemma getTimes_solarNoon_witness :
  (Z.abs (F64.as_signed (solarNoon (getTimes Coarse.math (F64.of_Z 1371816000000) 50.5 30.5 0))
          - 1371816000000) <= 44254082)%Z.
Proof.
  apply getTimes_solarNoon_near_timestamp;
    try (vm_compute; reflexivity). split; [lia|reflexivity].
Defined.

(** ** Evening and morning times around solar noon *)

Lemma B2R_two_pi_exact : B2R (2.0 * PI) = (2 * B2R PI)%R.
Proof.
  destruct (B2R_literal (2.0 * PI) 7074237752028440 (-50) eq_refl) as [_ ->].
  destruct B2R_PI as [_ ->].
  change (bpow (-50)) with (bpow (- (50))). rewrite (bpow_neg 50) by lia.
  change (2 ^ 50)%Z with 1125899906842624%Z. lra.
Qed.

(** The mirrored moment of two moments of the binade at most a day apart:
    [2 * j_noon - j_set], without rounding. *)
Lemma mirror_value_near (j_noon j_set : float) :
  is_finite j_noon = true -> is_finite j_set = true ->
  (2097153 <= B2R j_noon <= 4194302)%R -> (2097153 <= B2R j_set <= 4194302)%R ->
  (Rabs (B2R j_set - B2R j_noon) <= 1)%R ->
  is_finite (j_noon - (j_set - j_noon)) = true /\
  B2R (j_noon - (j_set - j_noon)) = (2 * B2R j_noon - B2R j_set)%R.
Proof.
  intros Fn Fs Bn Bs Hd. apply Rabs_le_inv in Hd.
  destruct (binade_21_grid j_noon Fn ltac:(lra)) as (n1 & E1 & B1).
  destruct (binade_21_grid j_set Fs ltac:(lra)) as (n2 & E2 & B2).
  assert (forall i, F2R i (-31) = IZR i / 2147483648)%R as HF.
  { intros i. unfold F2R. rewrite bpow_m31. reflexivity. }
  rewrite E1, E2, !HF in Hd. rewrite E1, HF in Bn. rewrite E2, HF in Bs.
  assert (- 2147483648 <= n2 - n1 <= 2147483648)%Z as Hn.
  { split; apply le_IZR; rewrite minus_IZR; lra. }
  assert (n1 <= 9007194959773696)%Z as Hn1 by (apply le_IZR; lra).
  assert (2 ^ 53 = 9007199254740992)%Z as P53 by reflexivity.
  assert (2 ^ 52 = 4503599627370496)%Z as P52 by reflexivity.
  assert (forall i, (Z.abs i <= 2 ^ 53)%Z -> representable (F2R i (-31))) as Rep.
  { intros i Hi. apply representable_F2R; [exact Hi|lia|apply F2R_abs_lt; lia]. }
  destruct (faithful_value (B2R j_set - B2R j_noon) (j_set - j_noon)) as [Fd Vd].
  { apply sub_faithful; auto. }
  { rewrite E1, E2, <- F2R_minus. apply Rep. lia. }
  destruct (faithful_value (B2R j_noon - B2R (j_set - j_noon)) (j_noon - (j_set - j_noon)))
    as [Fr Vr].
  { apply sub_faithful; auto. }
  { rewrite Vd, E1, E2, <- !F2R_minus. apply Rep. lia. }
  split; [exact Fr|]. rewrite Vr, Vd. lra.
Qed.

(** X20: the evening and the morning time of a pair around solar noon.  For a
    timestamp of the first 2^47 milliseconds after the epoch and a longitude
    of [-360, 360] degrees, when the two sines of the transit formula are in
    [-1, 1] and the hour angle of the pair is in [0, PI], the evening
    timestamp is not before solar noon and at most twelve hours after it,
    and the morning timestamp is not after solar noon and at most twelve
    hours before it, each up to one millisecond. *)
Theorem getTimes_pair_within_half_day_of_noon M (p : Pair) t lat lon h :
  (0 <= t < 2 ^ 47)%Z -> (-360 <=? lon) = true -> (lon <=? 360) = true ->
  (-1.0 <=? m_sin M (getTimes_m (F64.of_Z t) lon)) = true ->
  (m_sin M (getTimes_m (F64.of_Z t) lon) <=? 1.0) = true ->
  (-1.0 <=? m_sin M (2.0 * getTimes_l M (F64.of_Z t) lon)) = true ->
  (m_sin M (2.0 * getTimes_l M (F64.of_Z t) lon) <=? 1.0) = true ->
  (0 <=? hourAngle M (calc_h0 (threshold p) (observerAngle h)) (lat * TO_RAD)
           (getTimes_dec M (F64.of_Z t) lon)) = true ->
  (hourAngle M (calc_h0 (threshold p) (observerAngle h)) (lat * TO_RAD)
     (getTimes_dec M (F64.of_Z t) lon) <=? PI) = true ->
  (-1 <= F64.as_signed (set_field p (getTimes M (F64.of_Z t) lat lon h))
         - F64.as_signed (solarNoon (getTimes M (F64.of_Z t) lat lon h)) <= 43200001)%Z /\
  (-1 <= F64.as_signed (solarNoon (getTimes M (F64.of_Z t) lat lon h))
         - F64.as_signed (rise_field p (getTimes M (F64.of_Z t) lat lon h)) <= 43200001)%Z.
Proof.
  intros Ht H1 H2 A1 A2 C1 C2 W1 W2.
  destruct (getTimes_pair_fields M p (F64.of_Z t) lat lon h) as [-> ->].
  change (solarNoon (getTimes M (F64.of_Z t) lat lon h))
    with (fromJulian (getTimes_j_noon M (F64.of_Z t) lon)).
  assert (getTimes_j_rise M p (F64.of_Z t) lat lon h
          = getTimes_j_noon M (F64.of_Z t) lon
            - (getTimes_j_set M p (F64.of_Z t) lat lon h - getTimes_j_noon M (F64.of_Z t) lon))
    as -> by reflexivity.
  rewrite !fromJulian_signed.
  unfold getTimes_j_set, calc_j_set, get_set_j, getTimes_j_noon.
  set (w := hourAngle M _ _ _) in *.
  assert (0 <= IZR t < 140737488355328)%R as HT.
  { split; [apply IZR_le; lia|]. apply (IZR_lt t (2 ^ 47)). lia. }
  destruct (toJulian_error t Ht) as [_ Ej]. apply Rabs_le_inv in Ej.
  destruct (toDays_exact t Ht) as [Fd Vd].
  destruct (getTimes_lw_range lon H1 H2) as [Fl Bl].
  assert (Rabs (B2R (toDays (F64.of_Z t))) <= 2097152)%R as Bd
    by (rewrite Vd; apply Rabs_le; lra).
  destruct (julianCycle_bounded _ _ Fd Bd Fl Bl) as (Fn & Bn & _).
  destruct (approxTransit_near _ _ Fd Bd Fl Bl) as [_ End].
  apply Rabs_le_inv in End. rewrite Vd in End.
  fold (getTimes_n (F64.of_Z t) lon) in Fn, Bn, End.
  set (n := getTimes_n (F64.of_Z t) lon) in *. set (lw := getTimes_lw lon) in *.
  destruct B2R_PI as [Fpi Vpi]. destruct B2R_two_pi as [Ft Bt].
  pose proof B2R_two_pi_exact as Etp.
  destruct (leb_between w 0 PI eq_refl Fpi W1 W2) as [Fw Bw]. rewrite B2R_zero in Bw.
  assert (B2R PI <= 4)%R as Ppi by (rewrite Vpi; lra).
  destruct (approxTransit_value 0.0 lw n eq_refl ltac:(rewrite B2R_zero; lra) Fl Bl Fn Bn)
    as [Fds Eds].
  destruct (approxTransit_value w lw n Fw ltac:(lra) Fl Bl Fn Bn) as [Fa Ea].
  rewrite B2R_zero, Rplus_0_l in Eds. apply Rabs_le_inv in Eds, Ea.
  set (ds := approxTransit 0.0 lw n) in *. set (a := approxTransit w lw n) in *.
  (* the hour angle moves the transit by at most half a day *)
  assert (0 <= B2R w / B2R (2.0 * PI) <= / 2)%R as Hw.
  { split; [apply div_ge_of_mul|apply div_le_of_mul]; lra. }
  assert ((B2R w + B2R lw) / B2R (2.0 * PI)
          = B2R lw / B2R (2.0 * PI) + B2R w / B2R (2.0 * PI))%R as Esum by (field; lra).
  rewrite Esum in Ea.
  set (m := getTimes_m (F64.of_Z t) lon) in *. set (l := getTimes_l M (F64.of_Z t) lon) in *.
  destruct (solarTransitJ_value M ds m l Fds ltac:(lra) A1 A2 C1 C2) as (Fjn & P1 & P2 & Ejn).
  destruct (solarTransitJ_value M a m l Fa ltac:(lra) A1 A2 C1 C2) as (Fjs & _ & _ & Ejs).
  apply Rabs_le_inv in P1, P2, Ejn, Ejs.
  set (jn := solarTransitJ M ds m l) in *. set (js := solarTransitJ M a m l) in *.
  destruct (mirror_value_near jn js Fjn Fjs ltac:(lra) ltac:(lra)) as [Fjr Vjr].
  { apply Rabs_le. lra. }
  pose proof (fromJulian_i64_accuracy jn Fjn ltac:(lra)) as An.
  pose proof (fromJulian_i64_accuracy js Fjs ltac:(lra)) as As.
  pose proof (fromJulian_i64_accuracy _ Fjr ltac:(rewrite Vjr; lra)) as Ar.
  rewrite Vjr in Ar. apply Rabs_le_inv in An, As, Ar.
  set (fn := fromJulian_i64 jn) in *. set (fs := fromJulian_i64 js) in *.
  set (fr := fromJulian_i64 (jn - (js - jn))) in *.
  assert (IZR (-2) < IZR (fs - fn) < IZR 43200002)%R as [Lo1 Hi1]
    by (rewrite minus_IZR; lra).
  assert (IZR (-2) < IZR (fn - fr) < IZR 43200002)%R as [Lo2 Hi2]
    by (rewrite minus_IZR; lra).
  apply lt_IZR in Lo1, Hi1, Lo2, Hi2. lia.
Qed.

(** Sunrise and sunset of 21 June 2013 at 50.5°N 30.5°E. *)
Lemma getTimes_pair_within_half_day_witness :
  (-1 <= F64.as_signed (set_field PSunrise
                          (getTimes Coarse.math (F64.of_Z 1371816000000) 50.5 30.5 0))
         - F64.as_signed (solarNoon (getTimes Coarse.math (F64.of_Z 1371816000000) 50.5 30.5 0))
      <= 43200001)%Z /\
  (-1 <= F64.as_signed (solarNoon (getTimes Coarse.math (F64.of_Z 1371816000000) 50.5 30.5 0))
         - F64.as_signed (rise_field PSunrise
                            (getTimes Coarse.math (F64.of_Z 1371816000000) 50.5 30.5 0))
      <= 43200001)%Z.
Proof.
  apply getTimes_pair_within_half_day_of_noon;
    try (vm_compute; reflexivity). split; [lia|reflexivity].
Defined.

(** ** The round trip before the epoch *)

(** [toJulian] of a timestamp of the 2^44 milliseconds before the epoch (back
    to the year 1412): within 2^-30 day of the exact Julian day. *)
Lemma toJulian_error_before t : (- 2 ^ 44 <= t < 0)%Z ->
  is_finite (toJulian (F64.of_Z t)) = true /\
  (Rabs (B2R (toJulian (F64.of_Z t)) - (IZR t / 86400000 + 2440587.5)) <= / 1073741824)%R.
Proof.
  intros Ht. unfold toJulian.
  assert (2 ^ 44 < 2 ^ 53)%Z as P by reflexivity.
  destruct (of_Z_B2R t ltac:(lia)) as [Fx Vx].
  destruct B2R_MS as [FD VD]. destruct B2R_J1970 as [FJ VJ]. destruct B2R_half as [Fh Vh].
  assert (- 17592186044416 <= IZR t < 0)%R as HT.
  { split; [apply (IZR_le (- 2 ^ 44) t); lia|apply (IZR_lt t 0); lia]. }
  set (x := F64.of_Z t) in *.
  destruct (faithful_error (B2R x / B2R MILLISECONDS_PER_DAY) (x / MILLISECONDS_PER_DAY) 21)
    as [Fa Ea]; try lia.
  { apply div_faithful; auto. rewrite VD. lra. }
  { rewrite Vx, VD, bpow_21. apply Rabs_def1; lra. }
  rewrite Vx, VD in Ea. replace (21 - 53)%Z with (-32)%Z in Ea by lia. rewrite bpow_m32 in Ea.
  apply Rabs_le_inv in Ea.
  set (a := x / MILLISECONDS_PER_DAY) in *.
  destruct (faithful_error (B2R a - B2R 0.5) (a - 0.5) 21) as [Fb Eb]; try lia.
  { apply sub_faithful; auto. }
  { rewrite Vh, bpow_21. apply Rabs_def1; lra. }
  rewrite Vh in Eb. replace (21 - 53)%Z with (-32)%Z in Eb by lia. rewrite bpow_m32 in Eb.
  apply Rabs_le_inv in Eb.
  set (b := a - 0.5) in *.
  destruct (faithful_error (B2R b + B2R J1970) (b + J1970) 22) as [Fj Ej]; try lia.
  { apply add_faithful; auto. }
  { rewrite VJ, bpow_22. apply Rabs_def1; lra. }
  rewrite VJ in Ej. replace (22 - 53)%Z with (-31)%Z in Ej by lia. rewrite bpow_m31 in Ej.
  apply Rabs_le_inv in Ej.
  split; [exact Fj|]. apply Rabs_le. lra.
Qed.

(** X21: the round trip of a timestamp before the epoch.  For a negative [t]
    down to -2^44 (the year 1412), [fromJulian (toJulian t)] is the [u64]
    [t + 2^64], whose signed reading is [t] itself: the day is found back to
    the millisecond, and it is returned wrapped around. *)
Theorem fromJulian_toJulian_roundtrip_before_epoch (t : Z) :
  (- 2 ^ 44 <= t < 0)%Z ->
  fromJulian (toJulian (F64.of_Z t)) = (t + 2 ^ 64)%Z /\
  F64.as_signed (fromJulian (toJulian (F64.of_Z t))) = t.
Proof.
  intros Ht.
  destruct (toJulian_error_before t Ht) as [Fj Ej]. apply Rabs_le_inv in Ej.
  assert (- 17592186044416 <= IZR t < 0)%R as HT.
  { split; [apply (IZR_le (- 2 ^ 44) t); lia|apply (IZR_lt t 0); lia]. }
  set (j := toJulian (F64.of_Z t)) in *.
  assert (2097152 <= B2R j <= 4194303)%R as Bj by lra.
  destruct (fromJulian_scaled_error j Fj Bj) as [_ Ef]. apply Rabs_le_inv in Ef.
  destruct (fromJulian_i64_nearest j Fj Bj) as (n & En & _ & Hn).
  assert (n = t) as ->.
  { assert (IZR (t - 1) < IZR n < IZR (t + 1))%R as [Lo Hi]
      by (rewrite minus_IZR, plus_IZR; lra).
    apply lt_IZR in Lo, Hi. lia. }
  assert (2 ^ 44 < 2 ^ 63)%Z as P by reflexivity.
  assert (2 ^ 64 = 2 * 2 ^ 63)%Z as P' by reflexivity.
  split.
  - unfold fromJulian. rewrite En. unfold F64.to_u64.
    rewrite <- (Z.mod_add t 1 (2 ^ 64)) by lia. rewrite Z.mul_1_l.
    apply Z.mod_small. lia.
  - rewrite fromJulian_signed. exact En.
Qed.

(** The timestamp -14182940000 (20 July 1969, 20:17:40 UTC). *)
Lemma fromJulian_toJulian_roundtrip_before_epoch_witness :
  fromJulian (toJulian (F64.of_Z (-14182940000))) = (-14182940000 + 2 ^ 64)%Z /\
  F64.as_signed (fromJulian (toJulian (F64.of_Z (-14182940000)))) = (-14182940000)%Z.
Proof.
  apply (fromJulian_toJulian_roundtrip_before_epoch (-14182940000)).
  split; [apply Z.leb_le; reflexivity|lia].
Defined.

(** * Rounding to nearest, and the round trip over all exact timestamps *)

(** ** The arithmetic rounds to nearest *)

Lemma loc_of_shr_record_of_loc m l : loc_of_shr_record (shr_record_of_loc m l) = l.
Proof. destruct l as [|[| |]]; reflexivity. Qed.

(** One shift keeps the position. *)
Lemma shr_1_loc mrs e a : (0 <= shr_m mrs)%Z ->
  loc_at (loc_of_shr_record mrs) (F2R (shr_m mrs) e) (F2R (shr_m mrs + 1) e) a ->
  loc_at (loc_of_shr_record (shr_1 mrs))
         (F2R (shr_m (shr_1 mrs)) (e + 1)) (F2R (shr_m (shr_1 mrs) + 1) (e + 1)) a.
Proof.
  destruct mrs as [m r s]. simpl shr_m. intros Hm H.
  pose proof (bpow_pos e) as Pe.
  rewrite F2R_succ in H.
  destruct m as [|p|p]; [| |lia].
  - simpl shr_1. simpl shr_m. rewrite F2R_succ, !F2R_double, F2R_0 in *. rewrite bpow_add.
    replace (bpow 1) with 2%R by (symmetry; apply (bpow_IZR 1); lia).
    destruct r, s; simpl in *; lra.
  - destruct p as [p|p|]; simpl shr_1; simpl shr_m; rewrite F2R_succ, !F2R_double, bpow_add;
      replace (bpow 1) with 2%R by (symmetry; apply (bpow_IZR 1); lia).
    + assert (F2R (Z.pos p~1) e = 2 * F2R (Z.pos p) e + bpow e)%R as E.
      { unfold F2R. rewrite Pos2Z.inj_xI, plus_IZR, mult_IZR. ring. }
      rewrite E in H. destruct r, s; simpl in *; lra.
    + assert (F2R (Z.pos p~0) e = 2 * F2R (Z.pos p) e)%R as E.
      { unfold F2R. rewrite Pos2Z.inj_xO, mult_IZR. ring. }
      rewrite E in H. destruct r, s; simpl in *; lra.
    + assert (F2R 1 e = bpow e) as E by (unfold F2R; ring).
      rewrite E in H. rewrite F2R_0. destruct r, s; simpl in *; lra.
Qed.

Lemma iter_shr_1_loc n mrs e a : (0 <= shr_m mrs)%Z ->
  loc_at (loc_of_shr_record mrs) (F2R (shr_m mrs) e) (F2R (shr_m mrs + 1) e) a ->
  loc_at (loc_of_shr_record (Nat.iter n shr_1 mrs))
         (F2R (shr_m (Nat.iter n shr_1 mrs)) (e + Z.of_nat n))
         (F2R (shr_m (Nat.iter n shr_1 mrs) + 1) (e + Z.of_nat n)) a.
Proof.
  intros Hm H. induction n as [|n IH].
  - simpl. rewrite Z.add_0_r. exact H.
  - rewrite Nat.iter_succ.
    assert (0 <= shr_m (Nat.iter n shr_1 mrs))%Z as Hn.
    { destruct (iter_shr_1_spec n mrs Hm) as [-> _].
      apply Z.div_pos; [lia|apply Z.pow_pos_nonneg; lia]. }
    replace (e + Z.of_nat (S n))%Z with (e + Z.of_nat n + 1)%Z by lia.
    apply shr_1_loc; assumption.
Qed.

Lemma shr_loc m l e n a : (0 <= m)%Z ->
  loc_at l (F2R m e) (F2R (m + 1) e) a ->
  loc_at (loc_of_shr_record (fst (shr (shr_record_of_loc m l) e n)))
         (F2R (shr_m (fst (shr (shr_record_of_loc m l) e n))) (e + Z.max n 0))
         (F2R (shr_m (fst (shr (shr_record_of_loc m l) e n)) + 1) (e + Z.max n 0)) a.
Proof.
  intros Hm H. unfold shr. destruct n as [|p|p]; simpl fst.
  - simpl Z.max. rewrite Z.add_0_r, loc_of_shr_record_of_loc, shr_m_of_loc. exact H.
  - rewrite Z.max_l by lia. rewrite iter_pos_nat, <- (positive_nat_Z p).
    apply iter_shr_1_loc; rewrite ?shr_m_of_loc, ?loc_of_shr_record_of_loc; assumption.
  - rewrite Z.max_r by lia. rewrite Z.add_0_r, loc_of_shr_record_of_loc, shr_m_of_loc. exact H.
Qed.

(** The choice of [round_nearest_even] is within half a step. *)
Lemma round_nearest_even_near m l e a :
  loc_at l (F2R m e) (F2R (m + 1) e) a ->
  (Rabs (F2R (round_nearest_even m l) e - a) <= bpow e / 2)%R.
Proof.
  intros H. pose proof (bpow_pos e) as Pe. rewrite F2R_succ in H.
  destruct l as [|[| |]]; simpl in *.
  - subst a. rewrite Rminus_diag, Rabs_R0. lra.
  - destruct (Z.even m); rewrite ?F2R_succ, H; apply Rabs_le; lra.
  - apply Rabs_le; lra.
  - rewrite F2R_succ. apply Rabs_le; lra.
Qed.

(** The value [binary_round_aux] returns: the mantissa [round_nearest_even]
    picks after the shift, at the exponent of the format. *)
Lemma round_aux_value s mx ex lx :
  (0 <= mx)%Z -> (ex <= fexp prec emax (Zdigits2 mx + ex))%Z ->
  let e1 := fexp prec emax (Zdigits2 mx + ex) in
  let mrs := fst (shr (shr_record_of_loc mx lx) ex (e1 - ex)) in
  let m2 := round_nearest_even (shr_m mrs) (loc_of_shr_record mrs) in
  let r := binary_round_aux prec emax s mx ex lx in
  SFfinite r = true -> SF2R r = F2R (cond_Zopp s m2) e1.
Proof.
  intros Hmx Hlow e1 mrs m2 r.
  destruct (round_aux_struct s mx ex lx Hmx Hlow) as (m2' & H2 & Hm1 & Hm1l & _).
  fold e1 in H2, Hm1, Hm1l. clear m2' H2.
  set (m1 := (mx / 2 ^ (e1 - ex))%Z) in *.
  assert (-1074 <= e1)%Z as He1 by (unfold e1; rewrite fexp_eq; lia).
  destruct (shr_spec mx lx ex (e1 - ex) Hmx) as (S1 & S2 & S3).
  rewrite Z.max_l in S1, S2, S3 by lia.
  unfold r, binary_round_aux, shr_fexp. fold e1.
  unfold m2, mrs.
  destruct (shr (shr_record_of_loc mx lx) ex (e1 - ex)) as [mrs' e'] eqn:Esh.
  simpl fst in *; simpl snd in *. fold m1 in S2.
  replace (ex + (e1 - ex))%Z with e1 in S1 by lia. subst e'. rewrite S2.
  set (n2 := round_nearest_even m1 (loc_of_shr_record mrs')).
  assert (n2 = m1 \/ n2 = (m1 + 1)%Z) as Hn2.
  { destruct (round_nearest_even_cases m1 mrs') as [A|[A _]]; [left|right]; exact A. }
  assert (0 <= n2 <= 2 ^ 53)%Z as Hn2b by lia.
  destruct (shr_spec n2 loc_Exact e1 (fexp prec emax (Zdigits2 n2 + e1) - e1) ltac:(lia))
    as (T1 & T2 & _).
  destruct (shr (shr_record_of_loc n2 loc_Exact) e1 (fexp prec emax (Zdigits2 n2 + e1) - e1))
    as [mrs'' e''] eqn:Esh2.
  simpl fst in *; simpl snd in *. rewrite T2. subst e''.
  destruct (Z_lt_le_dec n2 (2 ^ 53)) as [Lt|Ge].
  - assert (Zdigits2 n2 <= 53)%Z as D2 by (apply Zdigits2_le; lia).
    rewrite fexp_eq. rewrite (Z.max_r (_ - e1) 0) by lia.
    rewrite Z.pow_0_r, Z.div_1_r, Z.add_0_r.
    destruct n2 as [|p|p] eqn:En2; [| |lia].
    + intros _. simpl. rewrite F2R_cond, F2R_0. destruct s; lra.
    + destruct (Z.leb_spec e1 (emax - prec)); [|discriminate]. intros _. reflexivity.
  - assert (n2 = 2 ^ 53)%Z as E2 by lia.
    rewrite E2. rewrite fexp_eq. change (Zdigits2 (2 ^ 53)) with 54%Z.
    rewrite (Z.max_l (54 + e1 - 53) (-1074)) by lia.
    replace (54 + e1 - 53 - e1)%Z with 1%Z by lia. change (Z.max 1 0) with 1%Z.
    change (2 ^ 53 / 2 ^ 1)%Z with (Z.pos (2 ^ 52)).
    destruct (Z.leb_spec (e1 + 1) (emax - prec)); [|discriminate]. intros _.
    rewrite SF2R_finite, !F2R_cond.
    replace (F2R (2 ^ 53) e1) with (F2R (Z.pos (2 ^ 52)) (e1 + 1)); [reflexivity|].
    rewrite <- F2R_shift by lia. reflexivity.
Qed.

Lemma round_aux_nearest (s : bool) mx ex lx (a : R) :
  (0 <= mx)%Z -> (ex <= fexp prec emax (Zdigits2 mx + ex))%Z ->
  loc_at lx (F2R mx ex) (F2R (mx + 1) ex) a ->
  nearest (if s then - a else a)%R (binary_round_aux prec emax s mx ex lx).
Proof.
  intros Hmx Hlow Hloc k Hk Hv Hfin.
  rewrite (round_aux_value s mx ex lx Hmx Hlow Hfin).
  set (e1 := fexp prec emax (Zdigits2 mx + ex)) in *.
  assert (-1074 <= e1)%Z as He1 by (unfold e1; rewrite fexp_eq; lia).
  pose proof (shr_loc mx lx ex (e1 - ex) a Hmx Hloc) as Hl.
  rewrite Z.max_l in Hl by lia. replace (ex + (e1 - ex))%Z with e1 in Hl by lia.
  apply round_nearest_even_near in Hl.
  set (m2 := round_nearest_even _ _) in *.
  (* the exponent is at most k - 53 *)
  assert (F2R mx ex <= a)%R as Hle.
  { pose proof (bpow_pos ex). rewrite F2R_succ in Hloc.
    destruct lx as [|[| |]]; simpl in Hloc; lra. }
  assert (0 <= a)%R as Pa by (pose proof (F2R_nonneg mx ex Hmx); lra).
  assert (Rabs (if s then - a else a) = a)%R as Ea.
  { destruct s; [rewrite Rabs_Ropp|]; apply Rabs_pos_eq; exact Pa. }
  rewrite Ea in Hv.
  assert (e1 <= k - 53)%Z as He.
  { unfold e1. rewrite fexp_eq.
    destruct (Z.eq_dec mx 0) as [Z0|NZ].
    - subst mx. simpl Zdigits2. unfold e1 in Hlow. rewrite fexp_eq in Hlow. simpl Zdigits2 in Hlow.
      lia.
    - assert (0 < mx)%Z as Pm by lia.
      pose proof (Zdigits2_bounds mx Pm) as [DL _].
      assert (Zdigits2 mx + ex <= k)%Z; [|lia].
      destruct (Z_le_gt_dec (Zdigits2 mx + ex) k) as [L|G]; [exact L|exfalso].
      assert (1 <= Zdigits2 mx)%Z by (apply (Zdigits2_ge mx 0); lia).
      assert (bpow k <= F2R mx ex)%R; [|lra].
      apply Rle_trans with (F2R (2 ^ (Zdigits2 mx - 1)) ex); [|apply F2R_le; exact DL].
      unfold F2R. rewrite <- (bpow_IZR (Zdigits2 mx - 1)) by lia. rewrite <- bpow_add.
      apply bpow_le. lia. }
  assert (bpow e1 / 2 <= bpow (k - 54))%R as Hb.
  { replace (k - 54)%Z with (k - 53 + -1)%Z by lia. rewrite bpow_add, bpow_m1.
    pose proof (bpow_le e1 (k - 53) He). lra. }
  rewrite F2R_cond.
  destruct s.
  - replace (- F2R m2 e1 - - a)%R with (- (F2R m2 e1 - a))%R by ring. rewrite Rabs_Ropp. lra.
  - lra.
Qed.

Lemma nearest_exact v r : SF2R r = v -> nearest v r.
Proof.
  intros E k _ _ _. rewrite E, Rminus_diag, Rabs_R0. apply Rlt_le, bpow_pos.
Qed.

Lemma binary_round_nearest s p e :
  nearest (F2R (cond_Zopp s (Zpos p)) e) (binary_round prec emax s p e).
Proof.
  unfold binary_round.
  destruct (shl_align_spec p e (fexp prec emax (Z.pos (digits2_pos p) + e))) as [S1 S2].
  destruct (shl_align p e (fexp prec emax (Z.pos (digits2_pos p) + e))) as [mz ez].
  simpl fst in *; simpl snd in *.
  set (E := fexp prec emax (Z.pos (digits2_pos p) + e)) in *.
  assert (F2R (Zpos mz) ez = F2R (Zpos p) e) as Ev.
  { rewrite S2, S1. symmetry. apply F2R_change_exp. lia. }
  assert (F2R (cond_Zopp s (Zpos p)) e = if s then (- F2R (Zpos mz) ez)%R else F2R (Zpos mz) ez) as ->.
  { rewrite Ev. destruct s; simpl; [apply F2R_neg|reflexivity]. }
  apply round_aux_nearest.
  - lia.
  - rewrite S2. rewrite Zdigits2_shift by lia. simpl Zdigits2.
    replace (Z.pos (digits2_pos p) + (e - Z.min e E) + ez)%Z with (Z.pos (digits2_pos p) + e)%Z by lia.
    fold E. lia.
  - reflexivity.
Qed.

Lemma binary_normalize_nearest M e sz :
  nearest (F2R M e) (binary_normalize prec emax M e sz).
Proof.
  destruct M as [|p|p]; simpl binary_normalize.
  - apply nearest_exact. simpl. rewrite F2R_0. reflexivity.
  - apply (binary_round_nearest false).
  - apply (binary_round_nearest true).
Qed.

Lemma SFadd_nearest x y :
  SFfinite x = true -> SFfinite y = true ->
  nearest (SF2R x + SF2R y) (SFadd prec emax x y).
Proof.
  intros Fx Fy.
  destruct x as [sx| | |sx mx ex], y as [sy| | |sy my ey]; try discriminate.
  - apply nearest_exact. destruct sx, sy; simpl; lra.
  - apply nearest_exact. simpl. lra.
  - apply nearest_exact. simpl. lra.
  - unfold SFadd.
    destruct (shl_align_spec mx ex (Z.min ex ey)) as [_ Sx].
    destruct (shl_align_spec my ey (Z.min ex ey)) as [_ Sy].
    rewrite Sx, Sy. rewrite !SF2R_finite.
    rewrite (Z.min_r ex (Z.min ex ey)), (Z.min_r ey (Z.min ex ey)) by lia.
    rewrite <- (F2R_cond_shift sx mx ex (Z.min ex ey)), <- (F2R_cond_shift sy my ey (Z.min ex ey)) by lia.
    rewrite <- F2R_plus.
    apply binary_normalize_nearest.
Qed.

Lemma SFsub_nearest x y :
  SFfinite x = true -> SFfinite y = true ->
  nearest (SF2R x - SF2R y) (SFsub prec emax x y).
Proof.
  intros Fx Fy.
  destruct x as [sx| | |sx mx ex], y as [sy| | |sy my ey]; try discriminate.
  - apply nearest_exact. destruct sx, sy; simpl; lra.
  - apply nearest_exact. simpl SFsub. rewrite !SF2R_finite. simpl SF2R.
    destruct sy; simpl cond_Zopp; rewrite ?F2R_neg; lra.
  - apply nearest_exact. simpl. lra.
  - unfold SFsub.
    destruct (shl_align_spec mx ex (Z.min ex ey)) as [_ Sx].
    destruct (shl_align_spec my ey (Z.min ex ey)) as [_ Sy].
    rewrite Sx, Sy. rewrite !SF2R_finite.
    rewrite (Z.min_r ex (Z.min ex ey)), (Z.min_r ey (Z.min ex ey)) by lia.
    rewrite <- (F2R_cond_shift sx mx ex (Z.min ex ey)), <- (F2R_cond_shift sy my ey (Z.min ex ey)) by lia.
    rewrite <- F2R_minus.
    apply binary_normalize_nearest.
Qed.

Lemma SFmul_nearest x y :
  valid_binary x = true -> valid_binary y = true ->
  SFfinite x = true -> SFfinite y = true ->
  nearest (SF2R x * SF2R y) (SFmul prec emax x y).
Proof.
  intros Vx Vy Fx Fy.
  destruct x as [sx| | |sx mx ex], y as [sy| | |sy my ey]; try discriminate.
  - apply nearest_exact. simpl. lra.
  - apply nearest_exact. simpl. lra.
  - apply nearest_exact. simpl. lra.
  - unfold SFmul. rewrite !SF2R_finite, F2R_mult, cond_Zopp_mul, F2R_cond.
    destruct (valid_finite _ _ _ Vx) as (Bex & Bmx & Bnx & _).
    destruct (valid_finite _ _ _ Vy) as (Bey & Bmy & Bny & _).
    rewrite <- Pos2Z.inj_mul.
    apply round_aux_nearest.
    + lia.
    + rewrite fexp_eq.
      destruct Bnx as [Nx|Sx].
      * assert (52 + 1 <= Zdigits2 (Z.pos (mx * my)))%Z by (apply Zdigits2_ge; nia). lia.
      * destruct Bny as [Ny|Sy]; [|lia].
        assert (52 + 1 <= Zdigits2 (Z.pos (mx * my)))%Z by (apply Zdigits2_ge; nia). lia.
    + reflexivity.
Qed.

(** The location [new_location] gives the remainder [k] of [nb] steps. *)
Lemma new_location_loc nb k lo hi :
  (0 < nb)%Z -> (0 <= k < nb)%Z -> (lo < hi)%R ->
  loc_at (new_location nb k) lo hi (lo + (hi - lo) * (IZR k / IZR nb))%R.
Proof.
  intros Hnb Hk Hlh.
  assert (0 < IZR nb)%R as Pn by (apply IZR_lt; lia).
  assert (forall c, (IZR k / IZR nb < c <-> IZR k < c * IZR nb)%R) as Hlt.
  { intros c. split; intros H.
    - apply (Rmult_lt_compat_r (IZR nb)) in H; [|exact Pn].
      unfold Rdiv in H. rewrite Rmult_assoc, Rinv_l, Rmult_1_r in H by lra. exact H.
    - apply (Rmult_lt_reg_r (IZR nb)); [exact Pn|].
      unfold Rdiv. rewrite Rmult_assoc, Rinv_l, Rmult_1_r by lra. exact H. }
  assert (forall c, (c < IZR k / IZR nb <-> c * IZR nb < IZR k)%R) as Hgt.
  { intros c. split; intros H.
    - apply (Rmult_lt_compat_r (IZR nb)) in H; [|exact Pn].
      unfold Rdiv in H. rewrite Rmult_assoc, Rinv_l, Rmult_1_r in H by lra. exact H.
    - apply (Rmult_lt_reg_r (IZR nb)); [exact Pn|].
      unfold Rdiv. rewrite Rmult_assoc, Rinv_l, Rmult_1_r by lra. exact H. }
  set (t := (IZR k / IZR nb)%R) in *.
  assert (forall (c : comparison), (2 * k ?= nb)%Z = c ->
            loc_at (loc_Inexact c) lo hi (lo + (hi - lo) * t)%R \/ k = 0%Z) as Hcmp.
  { intros c Hc. destruct (Z.eq_dec k 0) as [?|Nk]; [right; assumption|left].
    assert (0 < t)%R as Pt by (apply (Hgt 0%R); rewrite Rmult_0_l; apply IZR_lt; lia).
    destruct c; simpl.
    - apply Z.compare_eq in Hc.
      assert (t = / 2)%R as ->; [|lra].
      unfold t. apply (Rmult_eq_reg_r (IZR nb)); [|lra].
      unfold Rdiv. rewrite Rmult_assoc, Rinv_l, Rmult_1_r by lra.
      rewrite <- Hc, mult_IZR. lra.
    - apply Z.compare_lt_iff in Hc.
      assert (t < / 2)%R as Ht.
      { apply Hlt. apply IZR_lt in Hc. rewrite mult_IZR in Hc. lra. }
      split; nra.
    - apply Z.compare_gt_iff in Hc.
      assert (/ 2 < t < 1)%R as Ht.
      { split; [apply Hgt|apply Hlt].
        - apply IZR_lt in Hc. rewrite mult_IZR in Hc. lra.
        - rewrite Rmult_1_l. apply IZR_lt. lia. }
      split; nra. }
  assert (new_location nb k =
          if (k =? 0)%Z then loc_Exact
          else if Z.even nb then loc_Inexact (2 * k ?= nb)%Z
               else loc_Inexact (match (2 * k + 1 ?= nb)%Z with Gt => Gt | _ => Lt end)) as ->.
  { unfold new_location, new_location_even, new_location_odd.
    destruct (Z.even nb); reflexivity. }
  destruct (Z.eqb_spec k 0) as [K0|NK].
  - assert (t = 0)%R as -> by (unfold t; rewrite K0; unfold Rdiv; lra).
    simpl; lra.
  - destruct (Z.even nb) eqn:Ev.
    + destruct (Hcmp _ eq_refl) as [H|H]; [exact H|contradiction].
    + assert (Z.odd nb = true) as Od by (rewrite <- Z.negb_even, Ev; reflexivity).
      apply Z.odd_spec in Od. destruct Od as [h Eh].
      destruct (2 * k + 1 ?= nb)%Z eqn:C.
      * apply Z.compare_eq in C.
        destruct (Hcmp Lt) as [H|H]; [change (2 * k < nb)%Z; lia|exact H|contradiction].
      * change (2 * k + 1 < nb)%Z in C.
        destruct (Hcmp Lt) as [H|H]; [change (2 * k < nb)%Z; lia|exact H|contradiction].
      * change (2 * k + 1 > nb)%Z in C.
        destruct (Hcmp Gt) as [H|H]; [change (2 * k > nb)%Z; lia|exact H|contradiction].
Qed.

Lemma SFdiv_nearest x y :
  valid_binary x = true -> valid_binary y = true ->
  SFfinite x = true -> SFfinite y = true -> SF2R y <> 0%R ->
  nearest (SF2R x / SF2R y) (SFdiv prec emax x y).
Proof.
  intros Vx Vy Fx Fy Ny.
  destruct x as [sx| | |sx mx ex], y as [sy| | |sy my ey]; try discriminate; try (simpl in Ny; lra).
  - apply nearest_exact. simpl. unfold Rdiv. lra.
  - unfold SFdiv, SFdiv_core_binary.
    set (d1 := Zdigits2 (Z.pos mx)). set (d2 := Zdigits2 (Z.pos my)).
    set (e' := Z.min (fexp prec emax (d1 + ex - (d2 + ey))) (ex - ey)).
    set (s := (ex - ey - e')%Z).
    assert (0 <= s)%Z as Hs by (unfold s, e'; lia).
    set (m' := match s with Z.pos _ => Z.shiftl (Z.pos mx) s | 0%Z => Z.pos mx | Z.neg _ => 0%Z end).
    assert (m' = Z.pos mx * 2 ^ s)%Z as Em'.
    { unfold m'. destruct s as [|p|p] eqn:Es; [simpl; lia| |lia].
      apply Z.shiftl_mul_pow2. lia. }
    assert (0 < 2 ^ s)%Z as Hps by (apply Z.pow_pos_nonneg; lia).
    pose proof (Z_div_mod m' (Z.pos my) ltac:(lia)) as DM.
    destruct (Z.div_eucl m' (Z.pos my)) as [q r]. destruct DM as [DM Hr].
    assert (0 <= q)%Z as Hq by nia.
    set (a := (F2R (Z.pos mx) ex / F2R (Z.pos my) ey)%R).
    pose proof (F2R_pos (Z.pos mx) ex ltac:(lia)) as Px.
    pose proof (F2R_pos (Z.pos my) ey ltac:(lia)) as Py.
    assert ((SF2R (S754_finite sx mx ex) / SF2R (S754_finite sy my ey))%R
            = if xorb sx sy then (- a)%R else a) as ->.
    { rewrite !SF2R_finite, !F2R_cond. unfold a.
      destruct sx, sy; simpl; field; lra. }
    assert (a * IZR (Z.pos my) = IZR m' * bpow e')%R as Ea.
    { unfold a, F2R. rewrite Em', mult_IZR, <- (bpow_IZR s) by lia.
      replace ex with (s + e' + ey)%Z at 1 by (unfold s; lia).
      rewrite !bpow_add. pose proof (bpow_pos ey). field.
      split; [lra|]. apply not_0_IZR. lia. }
    assert (0 < IZR (Z.pos my))%R as Pmy by (apply IZR_lt; lia).
    pose proof (bpow_pos e') as Pe.
    apply round_aux_nearest.
    + exact Hq.
    + assert (d1 + ex - (d2 + ey) <= Zdigits2 q + e')%Z as Hd.
      { destruct (Z_le_gt_dec (d1 - d2 + s) 0) as [L|G].
        - pose proof (Zdigits2_nonneg q). unfold s in L. lia.
        - pose proof (Zdigits2_bounds (Z.pos mx) ltac:(lia)) as [L1 _].
          pose proof (Zdigits2_bounds (Z.pos my) ltac:(lia)) as [_ U2].
          fold d1 in L1. fold d2 in U2.
          assert (1 <= d1)%Z by (apply (Zdigits2_ge (Z.pos mx) 0); lia).
          assert (0 <= d2)%Z by apply Zdigits2_nonneg.
          assert (d1 - d2 + s - 1 + 1 <= Zdigits2 q)%Z as Hdq.
          { apply Zdigits2_ge; [lia|].
            assert (2 ^ (d1 - d2 + s - 1) * 2 ^ d2 = 2 ^ (d1 - 1) * 2 ^ s)%Z as Ep.
            { rewrite <- !Z.pow_add_r by lia. f_equal. lia. }
            assert (0 < 2 ^ (d1 - d2 + s - 1))%Z by (apply Z.pow_pos_nonneg; lia).
            destruct (Z_le_gt_dec (2 ^ (d1 - d2 + s - 1)) q) as [?|Gq]; [assumption|exfalso].
            assert (q + 1 <= 2 ^ (d1 - d2 + s - 1))%Z as Gq' by lia.
            assert (m' < (q + 1) * Z.pos my)%Z by nia.
            assert ((q + 1) * Z.pos my <= 2 ^ (d1 - d2 + s - 1) * Z.pos my)%Z by nia.
            assert (2 ^ (d1 - d2 + s - 1) * Z.pos my < 2 ^ (d1 - d2 + s - 1) * 2 ^ d2)%Z by nia.
            nia. }
          unfold s in Hdq. lia. }
      apply fexp_mono in Hd. unfold e' at 1. lia.
    + assert (F2R q e' + (F2R (q + 1) e' - F2R q e') * (IZR r / IZR (Z.pos my)) = a)%R as <-.
      { rewrite F2R_succ. unfold F2R.
        apply Rmult_eq_reg_r with (IZR (Z.pos my)); [|lra]. rewrite Ea, DM, plus_IZR, mult_IZR.
        field. lra. }
      apply new_location_loc; [lia|lia|].
      rewrite F2R_succ. lra.
Qed.

Lemma add_nearest x y : is_finite x = true -> is_finite y = true ->
  nearest (B2R x + B2R y) (Prim2SF (x + y)).
Proof.
  intros Fx Fy. rewrite is_finite_spec in Fx, Fy. rewrite add_spec.
  apply SFadd_nearest; assumption.
Qed.

Lemma sub_nearest x y : is_finite x = true -> is_finite y = true ->
  nearest (B2R x - B2R y) (Prim2SF (x - y)).
Proof.
  intros Fx Fy. rewrite is_finite_spec in Fx, Fy. rewrite sub_spec.
  apply SFsub_nearest; assumption.
Qed.

Lemma mul_nearest x y : is_finite x = true -> is_finite y = true ->
  nearest (B2R x * B2R y) (Prim2SF (x * y)).
Proof.
  intros Fx Fy. rewrite is_finite_spec in Fx, Fy. rewrite mul_spec.
  apply SFmul_nearest; auto using Prim2SF_valid.
Qed.

Lemma div_nearest x y : is_finite x = true -> is_finite y = true -> B2R y <> 0%R ->
  nearest (B2R x / B2R y) (Prim2SF (x / y)).
Proof.
  intros Fx Fy Ny. rewrite is_finite_spec in Fx, Fy. rewrite div_spec.
  apply SFdiv_nearest; auto using Prim2SF_valid.
Qed.

(** The error of a result rounded to nearest: half a unit in the last place. *)
Lemma nearest_error v z k :
  faithful v (Prim2SF z) -> nearest v (Prim2SF z) ->
  (Rabs v < bpow k)%R -> (-1074 <= k - 53)%Z -> (k <= 1023)%Z ->
  is_finite z = true /\ (Rabs (B2R z - v) <= bpow (k - 54))%R.
Proof.
  intros Hf Hn Hv Hlow Hk.
  destruct (faithful_error v z k Hf Hv Hlow Hk) as [F _].
  split; [exact F|]. apply Hn; auto. rewrite <- is_finite_spec. exact F.
Qed.

(** ** Sums that stay on a grid *)

Lemma F2R_abs_bound n g k :
  (0 <= k)%Z -> (Rabs (F2R n g) < bpow (g + k))%R -> (Z.abs n < 2 ^ k)%Z.
Proof.
  intros Hk H. unfold F2R in H. pose proof (bpow_pos g) as Pg.
  rewrite Rabs_mult, <- abs_IZR, (Rabs_right (bpow g)) in H by lra.
  rewrite bpow_add, (bpow_IZR k Hk) in H.
  apply lt_IZR. nra.
Qed.

Lemma representable_bpow k : (-1074 <= k <= 1023)%Z -> representable (bpow k).
Proof.
  intros Hk. replace (bpow k) with (F2R 1 k) by (unfold F2R; lra).
  apply representable_F2R; [simpl; lia|lia|].
  unfold F2R. rewrite Rmult_1_l, Rabs_right by (pose proof (bpow_pos k); lra).
  apply bpow_lt. lia.
Qed.

(** A result whose exact value is on the grid and small enough is exact. *)
Lemma exact_on_grid s r n g :
  faithful s (Prim2SF r) -> s = F2R n g -> (Rabs s < bpow (g + 53))%R ->
  (-1074 <= g)%Z -> (g + 53 <= 1024)%Z ->
  is_finite r = true /\ B2R r = s.
Proof.
  intros Hf Es Hs Hg Hk. apply faithful_value; [exact Hf|].
  rewrite Es in *. apply representable_F2R.
  - apply F2R_abs_bound in Hs; lia.
  - exact Hg.
  - eapply Rlt_le_trans; [exact Hs|]. apply bpow_le. lia.
Qed.

(** Order is kept by rounding, on both sides of zero. *)
Lemma faithful_abs_bounds v z lo hi :
  faithful v (Prim2SF z) -> is_finite z = true ->
  representable lo -> representable hi -> (0 <= lo)%R ->
  (lo <= Rabs v <= hi)%R -> (lo <= Rabs (B2R z) <= hi)%R.
Proof.
  intros Hf F Rl Rh P Hv.
  destruct (Rle_dec 0 v) as [Pv|Nv].
  - rewrite Rabs_right in Hv by lra.
    destruct (faithful_finite_cmp v z lo Hf F Rl) as [_ L].
    destruct (faithful_finite_cmp v z hi Hf F Rh) as [U _].
    specialize (L (proj1 Hv)). specialize (U (proj2 Hv)).
    rewrite Rabs_right by lra. lra.
  - rewrite Rabs_left in Hv by lra.
    destruct (faithful_finite_cmp v z (- lo) Hf F (representable_opp _ Rl)) as [U _].
    destruct (faithful_finite_cmp v z (- hi) Hf F (representable_opp _ Rh)) as [_ L].
    specialize (L ltac:(lra)). specialize (U ltac:(lra)).
    rewrite Rabs_left1 by lra. lra.
Qed.

(** One rounding on the grid: exact while the value fits on the grid of
    step [2^g]; past that, one rounding of at most a step, onto the double
    step, and exact from then on. *)
Lemma grid_round g r s v :
  (-1074 <= g)%Z -> (g + 54 <= 1023)%Z ->
  faithful s (Prim2SF r) -> nearest s (Prim2SF r) ->
  grid_near g s v -> (Rabs v + bpow g < bpow (g + 54))%R ->
  is_finite r = true /\ grid_near g (B2R r) v.
Proof.
  intros Hg Hk Hf Hn [[Esv [n En]]|[Hd [n En]]] Hv; pose proof (bpow_pos g) as Pg.
  - destruct (Rlt_dec (Rabs s) (bpow (g + 53))) as [Small|Large].
    + destruct (exact_on_grid s r n g Hf) as [F V]; auto; try lia.
      { rewrite Esv. exact En. }
      split; [exact F|]. left. split; [congruence|exists n; exact En].
    + destruct (nearest_error s r (g + 54) Hf Hn) as [F E]; try lia.
      { rewrite Esv. lra. }
      replace (g + 54 - 54)%Z with g in E by lia.
      split; [exact F|]. right. split; [rewrite <- Esv; exact E|].
      assert (bpow (g + 53) <= Rabs (B2R r) <= bpow (g + 54))%R as Hb.
      { apply (faithful_abs_bounds s); auto.
        - apply representable_bpow. lia.
        - apply representable_bpow. lia.
        - apply Rlt_le, bpow_pos.
        - rewrite <- Esv in Hv. lra. }
      destruct (finite_grid r (g + 53) F) as [n' Hn']; [lra|lia|].
      exists n'. rewrite Hn'. f_equal. lia.
  - assert (Rabs s < bpow (g + 1 + 53))%R as Hs.
    { replace (g + 1 + 53)%Z with (g + 54)%Z by lia.
      replace s with ((s - v) + v)%R by lra.
      eapply Rle_lt_trans; [apply Rabs_triang|]. lra. }
    destruct (exact_on_grid s r n (g + 1) Hf En Hs) as [F V]; try lia.
    split; [exact F|]. right. rewrite V. split; [exact Hd|exists n; exact En].
Qed.

Lemma grid_near_add g x v c m :
  c = F2R m (g + 1) -> grid_near g x v -> grid_near g (x + c) (v + c).
Proof.
  intros Ec [[E [n En]]|[Hd [n En]]].
  - left. split; [congruence|]. exists (n + 2 * m)%Z.
    rewrite F2R_plus, <- En, Ec. f_equal.
    rewrite Z.mul_comm. rewrite (F2R_change_exp m (g + 1) g) by lia.
    f_equal. replace (g + 1 - g)%Z with 1%Z by lia. reflexivity.
  - right. split.
    + replace (x + c - (v + c))%R with (x - v)%R by lra. exact Hd.
    + exists (n + m)%Z. rewrite F2R_plus, <- En, Ec. reflexivity.
Qed.

Lemma grid_add g z c v m :
  (-1074 <= g)%Z -> (g + 54 <= 1023)%Z ->
  is_finite z = true -> is_finite c = true -> B2R c = F2R m (g + 1) ->
  grid_near g (B2R z) v -> (Rabs (v + B2R c) + bpow g < bpow (g + 54))%R ->
  is_finite (z + c) = true /\ grid_near g (B2R (z + c)) (v + B2R c).
Proof.
  intros Hg Hk Fz Fc Ec Hz Hv.
  apply (grid_round g (z + c) (B2R z + B2R c)); auto.
  - apply add_faithful; auto.
  - apply add_nearest; auto.
  - apply (grid_near_add g _ _ _ m); auto.
Qed.

Lemma grid_sub g z c v m :
  (-1074 <= g)%Z -> (g + 54 <= 1023)%Z ->
  is_finite z = true -> is_finite c = true -> B2R c = F2R m (g + 1) ->
  grid_near g (B2R z) v -> (Rabs (v - B2R c) + bpow g < bpow (g + 54))%R ->
  is_finite (z - c) = true /\ grid_near g (B2R (z - c)) (v - B2R c).
Proof.
  intros Hg Hk Fz Fc Ec Hz Hv.
  apply (grid_round g (z - c) (B2R z - B2R c)); auto.
  - apply sub_faithful; auto.
  - apply sub_nearest; auto.
  - unfold Rminus. apply (grid_near_add g _ _ _ (- m)); auto.
    rewrite F2R_opp, Ec. reflexivity.
Qed.

(** ** The round trip through Julian days, over all exact timestamps *)

Lemma bpow_scale g k : (0 <= k)%Z -> bpow (g + k) = (IZR (2 ^ k) * bpow g)%R.
Proof. intros Hk. rewrite Z.add_comm, bpow_add, (bpow_IZR k Hk). reflexivity. Qed.

Lemma IZR_on_grid q g : (g <= 0)%Z -> IZR q = F2R (q * 2 ^ (- g)) g.
Proof.
  intros Hg. rewrite <- F2R_e0, (F2R_change_exp q 0 g Hg). f_equal.
Qed.

Lemma half_on_grid g : (g <= -1)%Z -> (/ 2)%R = F2R (2 ^ (- 1 - g)) g.
Proof.
  intros Hg. rewrite <- bpow_m1. replace (bpow (-1)) with (F2R 1 (-1)) by (unfold F2R; lra).
  rewrite (F2R_change_exp 1 (-1) g Hg). f_equal. lia.
Qed.

(** The four additions of the round trip, on a day count [a] of magnitude
    2^24 to 2^26: they round at most once, by at most one step of [a]'s
    grid. *)
Lemma julian_chain_grid g a :
  (-28 <= g <= -27)%Z -> is_finite a = true ->
  (bpow (g + 52) <= Rabs (B2R a) <= bpow (g + 53))%R ->
  is_finite (a - 0.5 + J1970 + 0.5 - J1970) = true /\
  (Rabs (B2R (a - 0.5 + J1970 + 0.5 - J1970) - B2R a) <= bpow g)%R.
Proof.
  intros Hg Fa Ha.
  destruct B2R_J1970 as [FJ VJ]. destruct B2R_half as [Fh Vh].
  pose proof (bpow_pos g) as Pg.
  pose proof (bpow_scale g 53 ltac:(lia)) as E53.
  pose proof (bpow_scale g 54 ltac:(lia)) as E54.
  change (IZR (2 ^ 53)) with 9007199254740992%R in E53.
  change (IZR (2 ^ 54)) with 18014398509481984%R in E54.
  assert (/ 268435456 <= bpow g)%R as Lg.
  { replace (/ 268435456)%R with (bpow (-28)) by (apply (bpow_neg 28); lia).
    apply bpow_le. lia. }
  assert (bpow g <= / 134217728)%R as Ug.
  { replace (/ 134217728)%R with (bpow (-27)) by (apply (bpow_neg 27); lia).
    apply bpow_le. lia. }
  assert (B2R 0.5 = F2R (2 ^ (- 1 - (g + 1))) (g + 1)) as Gh.
  { rewrite Vh. apply half_on_grid. lia. }
  assert (B2R J1970 = F2R (2440588 * 2 ^ (- (g + 1))) (g + 1)) as GJ.
  { rewrite VJ. apply IZR_on_grid. lia. }
  destruct (finite_grid a (g + 52) Fa) as [n0 Hn0]; [lra|lia|].
  replace (g + 52 - 52)%Z with g in Hn0 by lia.
  assert (grid_near g (B2R a) (B2R a)) as G0 by (left; split; [reflexivity|exists n0; exact Hn0]).
  set (v := B2R a) in *.
  assert (- bpow (g + 53) <= v <= bpow (g + 53))%R as Bv by (apply Rabs_le_inv; lra).
  destruct (grid_sub g a 0.5 v _ ltac:(lia) ltac:(lia) Fa Fh Gh G0) as [Fb Gb].
  { rewrite Vh. assert (Rabs (v - / 2) <= bpow (g + 53) + 1)%R by (apply Rabs_le; lra). lra. }
  destruct (grid_add g (a - 0.5) J1970 _ _ ltac:(lia) ltac:(lia) Fb FJ GJ Gb) as [Fj Gj].
  { rewrite Vh, VJ.
    assert (Rabs (v - / 2 + 2440588) <= bpow (g + 53) + 2440588)%R by (apply Rabs_le; lra). lra. }
  destruct (grid_add g (a - 0.5 + J1970) 0.5 _ _ ltac:(lia) ltac:(lia) Fj Fh Gh Gj) as [Fc Gc].
  { rewrite Vh, VJ.
    assert (Rabs (v - / 2 + 2440588 + / 2) <= bpow (g + 53) + 2440588)%R by (apply Rabs_le; lra).
    lra. }
  destruct (grid_sub g (a - 0.5 + J1970 + 0.5) J1970 _ _ ltac:(lia) ltac:(lia) Fc FJ GJ Gc)
    as [Fe Ge].
  { rewrite Vh, VJ.
    assert (Rabs (v - / 2 + 2440588 + / 2 - 2440588) <= bpow (g + 53))%R by (apply Rabs_le; lra).
    lra. }
  split; [exact Fe|].
  rewrite Vh, VJ in Ge.
  replace (v - / 2 + 2440588 + / 2 - 2440588)%R with v in Ge by lra.
  destruct Ge as [[E _]|[D _]]; [|exact D].
  rewrite E, Rminus_diag, Rabs_R0. lra.
Qed.

(** On a day count of magnitude 2^26 and more the four additions are exact. *)
Lemma julian_chain_exact a :
  is_finite a = true -> (67108864 <= Rabs (B2R a) <= 104249992)%R ->
  is_finite (a - 0.5 + J1970 + 0.5 - J1970) = true /\
  B2R (a - 0.5 + J1970 + 0.5 - J1970) = B2R a.
Proof.
  intros Fa Ha.
  destruct B2R_J1970 as [FJ VJ]. destruct B2R_half as [Fh Vh].
  assert (bpow 26 = 67108864)%R as E26 by (apply (bpow_IZR 26); lia).
  assert (bpow (-26 + 53) = 134217728)%R as E27 by (apply (bpow_IZR 27); lia).
  destruct (finite_grid a 26 Fa) as [n0 Hn0]; [lra|lia|].
  replace (26 - 52)%Z with (-26)%Z in Hn0 by lia.
  pose proof (half_on_grid (-26) ltac:(lia)) as Gh.
  pose proof (IZR_on_grid 2440588 (-26) ltac:(lia)) as GJ.
  set (v := B2R a) in *.
  assert (- 104249992 <= v <= 104249992)%R as Bv by (apply Rabs_le_inv; lra).
  destruct (exact_on_grid (v - B2R 0.5) (a - 0.5) (n0 - 2 ^ (- 1 - -26)) (-26)) as [Fb Vb];
    try lia.
  { apply sub_faithful; auto. }
  { rewrite F2R_minus, <- Hn0, <- Gh, Vh. reflexivity. }
  { rewrite Vh, E27. apply Rabs_def1; lra. }
  rewrite Vh in Vb.
  destruct (exact_on_grid (B2R (a - 0.5) + B2R J1970) (a - 0.5 + J1970)
              (n0 - 2 ^ (- 1 - -26) + 2440588 * 2 ^ (- -26)) (-26)) as [Fj Vj]; try lia.
  { apply add_faithful; auto. }
  { rewrite F2R_plus, F2R_minus, <- Hn0, <- Gh, <- GJ, Vb, VJ. reflexivity. }
  { rewrite Vb, VJ, E27. apply Rabs_def1; lra. }
  rewrite Vb, VJ in Vj.
  destruct (exact_on_grid (B2R (a - 0.5 + J1970) + B2R 0.5) (a - 0.5 + J1970 + 0.5)
              (n0 + 2440588 * 2 ^ (- -26)) (-26)) as [Fc Vc]; try lia.
  { apply add_faithful; auto. }
  { rewrite F2R_plus, <- Hn0, <- GJ, Vj, Vh. lra. }
  { rewrite Vj, Vh, E27. apply Rabs_def1; lra. }
  rewrite Vj, Vh in Vc.
  destruct (exact_on_grid (B2R (a - 0.5 + J1970 + 0.5) - B2R J1970) (a - 0.5 + J1970 + 0.5 - J1970)
              n0 (-26)) as [Fe Ve]; try lia.
  { apply sub_faithful; auto. }
  { rewrite <- Hn0, Vc, VJ. lra. }
  { rewrite Vc, VJ, E27. apply Rabs_def1; lra. }
  split; [exact Fe|]. rewrite Ve, Vc, VJ. lra.
Qed.

(** On a day count below 2^24 each of the four additions is within half a
    unit in the last place of numbers below 2^25. *)
Lemma julian_chain_small a :
  is_finite a = true -> (Rabs (B2R a) <= 16777216)%R ->
  is_finite (a - 0.5 + J1970 + 0.5 - J1970) = true /\
  (Rabs (B2R (a - 0.5 + J1970 + 0.5 - J1970) - B2R a) <= / 134217728)%R.
Proof.
  intros Fa Ha.
  destruct B2R_J1970 as [FJ VJ]. destruct B2R_half as [Fh Vh].
  assert (bpow 25 = 33554432)%R as E25 by (apply (bpow_IZR 25); lia).
  assert (bpow (25 - 54) = / 536870912)%R as Em by (apply (bpow_neg 29); lia).
  set (v := B2R a) in *. apply Rabs_le_inv in Ha.
  destruct (nearest_error (v - B2R 0.5) (a - 0.5) 25) as [Fb Eb]; try lia.
  { apply sub_faithful; auto. }
  { apply sub_nearest; auto. }
  { rewrite Vh, E25. apply Rabs_def1; lra. }
  rewrite Vh, Em in Eb. apply Rabs_le_inv in Eb.
  destruct (nearest_error (B2R (a - 0.5) + B2R J1970) (a - 0.5 + J1970) 25) as [Fj Ej]; try lia.
  { apply add_faithful; auto. }
  { apply add_nearest; auto. }
  { rewrite VJ, E25. apply Rabs_def1; lra. }
  rewrite VJ, Em in Ej. apply Rabs_le_inv in Ej.
  destruct (nearest_error (B2R (a - 0.5 + J1970) + B2R 0.5) (a - 0.5 + J1970 + 0.5) 25)
    as [Fc Ec]; try lia.
  { apply add_faithful; auto. }
  { apply add_nearest; auto. }
  { rewrite Vh, E25. apply Rabs_def1; lra. }
  rewrite Vh, Em in Ec. apply Rabs_le_inv in Ec.
  destruct (nearest_error (B2R (a - 0.5 + J1970 + 0.5) - B2R J1970)
              (a - 0.5 + J1970 + 0.5 - J1970) 25) as [Fe Ee]; try lia.
  { apply sub_faithful; auto. }
  { apply sub_nearest; auto. }
  { rewrite VJ, E25. apply Rabs_def1; lra. }
  rewrite VJ, Em in Ee. apply Rabs_le_inv in Ee.
  split; [exact Fe|]. apply Rabs_le. lra.
Qed.

Lemma day_count_abs t : (Rabs (IZR t / 86400000) = Rabs (IZR t) / 86400000)%R.
Proof.
  unfold Rdiv. rewrite Rabs_mult, (Rabs_right (/ 86400000)) by lra. reflexivity.
Qed.

(** Timestamps of fewer than 2^24 days. *)
Lemma roundtrip_scaled_small t : (Z.abs t < 1449551462400000)%Z ->
  is_finite (fromJulian_scaled (toJulian (F64.of_Z t))) = true /\
  (Rabs (B2R (fromJulian_scaled (toJulian (F64.of_Z t))) - IZR t) < 3 / 2)%R.
Proof.
  intros Ht. unfold fromJulian_scaled, toJulian.
  destruct (of_Z_B2R t) as [Fx Vx].
  { assert (1449551462400000 < 2 ^ 53)%Z by reflexivity. lia. }
  destruct B2R_MS as [FD VD].
  set (x := F64.of_Z t) in *.
  assert (Rabs (IZR t) < 1449551462400000)%R as HT by (rewrite <- abs_IZR; apply IZR_lt; exact Ht).
  pose proof (day_count_abs t) as EA.
  set (A := (IZR t / 86400000)%R) in *.
  assert (IZR t = A * 86400000)%R as ET by (unfold A; field).
  assert (bpow 24 = 16777216)%R as E24 by (apply (bpow_IZR 24); lia).
  assert (bpow (24 - 54) = / 1073741824)%R as Em by (apply (bpow_neg 30); lia).
  assert (faithful A (Prim2SF (x / MILLISECONDS_PER_DAY))) as Hfa.
  { unfold A. rewrite <- Vx, <- VD. apply div_faithful; auto. rewrite VD. lra. }
  destruct (nearest_error A (x / MILLISECONDS_PER_DAY) 24 Hfa) as [Fa Ea]; try lia.
  { unfold A. rewrite <- Vx, <- VD. apply div_nearest; auto. rewrite VD. lra. }
  { rewrite EA, E24. lra. }
  rewrite Em in Ea. apply Rabs_le_inv in Ea.
  assert (0 <= Rabs (B2R (x / MILLISECONDS_PER_DAY)) <= 16777216)%R as Ha.
  { apply (faithful_abs_bounds A); auto.
    - apply representable_0.
    - apply (representable_IZR 16777216). simpl. lia.
    - lra.
    - rewrite EA. pose proof (Rabs_pos (IZR t)). lra. }
  set (a := x / MILLISECONDS_PER_DAY) in *.
  destruct (julian_chain_small a Fa (proj2 Ha)) as [Fe Ee].
  set (e := a - 0.5 + J1970 + 0.5 - J1970) in *.
  apply Rabs_le_inv in Ee. destruct Ha as [_ Ha]. apply Rabs_le_inv in Ha.
  assert (bpow 51 = 2251799813685248)%R as E51 by (apply (bpow_IZR 51); lia).
  assert (bpow (51 - 54) = / 8)%R as Em3 by (apply (bpow_neg 3); lia).
  destruct (nearest_error (B2R e * B2R MILLISECONDS_PER_DAY) (e * MILLISECONDS_PER_DAY) 51)
    as [Ff Ef]; try lia.
  { apply mul_faithful; auto. }
  { apply mul_nearest; auto. }
  { rewrite VD, E51. apply Rabs_def1; lra. }
  rewrite VD, Em3 in Ef. apply Rabs_le_inv in Ef.
  split; [exact Ff|]. rewrite ET. apply Rabs_def1; lra.
Qed.

(** Timestamps of 2^24 to 2^26 days. *)
Lemma roundtrip_scaled_grid g t :
  (-28 <= g <= -27)%Z -> (Z.abs t <= 2 ^ 53)%Z ->
  (bpow (g + 52) * 86400000 <= Rabs (IZR t) < bpow (g + 53) * 86400000)%R ->
  is_finite (fromJulian_scaled (toJulian (F64.of_Z t))) = true /\
  (Rabs (B2R (fromJulian_scaled (toJulian (F64.of_Z t))) - IZR t) < 3 / 2)%R.
Proof.
  intros Hg Ht HT. unfold fromJulian_scaled, toJulian.
  destruct (of_Z_B2R t Ht) as [Fx Vx].
  destruct B2R_MS as [FD VD].
  set (x := F64.of_Z t) in *.
  pose proof (day_count_abs t) as EA.
  set (A := (IZR t / 86400000)%R) in *.
  assert (IZR t = A * 86400000)%R as ET by (unfold A; field).
  pose proof (bpow_pos g) as Pg.
  pose proof (bpow_scale g 52 ltac:(lia)) as E52.
  pose proof (bpow_scale g 53 ltac:(lia)) as E53.
  pose proof (bpow_scale g 26 ltac:(lia)) as E26.
  pose proof (bpow_scale g 80 ltac:(lia)) as E80.
  change (IZR (2 ^ 52)) with 4503599627370496%R in E52.
  change (IZR (2 ^ 53)) with 9007199254740992%R in E53.
  change (IZR (2 ^ 26)) with 67108864%R in E26.
  change (IZR (2 ^ 80)) with 1208925819614629174706176%R in E80.
  assert (bpow (g + 53 - 54) = bpow g / 2)%R as Eh.
  { replace (g + 53 - 54)%Z with (g + -1)%Z by lia. rewrite bpow_add, bpow_m1. lra. }
  assert (bpow g <= / 134217728)%R as Ug.
  { replace (/ 134217728)%R with (bpow (-27)) by (apply (bpow_neg 27); lia).
    apply bpow_le. lia. }
  assert (faithful A (Prim2SF (x / MILLISECONDS_PER_DAY))) as Hfa.
  { unfold A. rewrite <- Vx, <- VD. apply div_faithful; auto. rewrite VD. lra. }
  destruct (nearest_error A (x / MILLISECONDS_PER_DAY) (g + 53) Hfa) as [Fa Ea]; try lia.
  { unfold A. rewrite <- Vx, <- VD. apply div_nearest; auto. rewrite VD. lra. }
  { rewrite EA. lra. }
  rewrite Eh in Ea. apply Rabs_le_inv in Ea.
  assert (bpow (g + 52) <= Rabs (B2R (x / MILLISECONDS_PER_DAY)) <= bpow (g + 53))%R as Ha.
  { apply (faithful_abs_bounds A); auto.
    - apply representable_bpow. lia.
    - apply representable_bpow. lia.
    - apply Rlt_le, bpow_pos.
    - rewrite EA. lra. }
  set (a := x / MILLISECONDS_PER_DAY) in *.
  destruct (julian_chain_grid g a Hg Fa Ha) as [Fe Ee].
  set (e := a - 0.5 + J1970 + 0.5 - J1970) in *.
  apply Rabs_le_inv in Ee. destruct Ha as [_ Ha]. apply Rabs_le_inv in Ha.
  destruct (nearest_error (B2R e * B2R MILLISECONDS_PER_DAY) (e * MILLISECONDS_PER_DAY) (g + 80))
    as [Ff Ef]; try lia.
  { apply mul_faithful; auto. }
  { apply mul_nearest; auto. }
  { rewrite VD. apply Rabs_def1; lra. }
  replace (g + 80 - 54)%Z with (g + 26)%Z in Ef by lia.
  rewrite VD in Ef. apply Rabs_le_inv in Ef.
  split; [exact Ff|]. rewrite ET. apply Rabs_def1; lra.
Qed.

(** Timestamps of 2^26 days and more, up to 2^53 milliseconds: the scaled
    value is an integer already. *)
Lemma roundtrip_scaled_large t :
  (5798205849600000 <= Z.abs t <= 2 ^ 53)%Z ->
  is_finite (fromJulian_scaled (toJulian (F64.of_Z t))) = true /\
  (Rabs (B2R (fromJulian_scaled (toJulian (F64.of_Z t))) - IZR t) < 2)%R /\
  (bpow 52 <= Rabs (B2R (fromJulian_scaled (toJulian (F64.of_Z t)))))%R.
Proof.
  intros Ht. unfold fromJulian_scaled, toJulian.
  destruct (of_Z_B2R t (proj2 Ht)) as [Fx Vx].
  destruct B2R_MS as [FD VD].
  set (x := F64.of_Z t) in *.
  assert (5798205849600000 <= Rabs (IZR t) <= 9007199254740992)%R as HT.
  { rewrite <- abs_IZR. split; [apply IZR_le; lia|].
    apply (IZR_le _ (2 ^ 53)). lia. }
  pose proof (day_count_abs t) as EA.
  set (A := (IZR t / 86400000)%R) in *.
  assert (IZR t = A * 86400000)%R as ET by (unfold A; field).
  assert (bpow 27 = 134217728)%R as E27 by (apply (bpow_IZR 27); lia).
  assert (bpow (27 - 54) = / 134217728)%R as Em by (apply (bpow_neg 27); lia).
  assert (faithful A (Prim2SF (x / MILLISECONDS_PER_DAY))) as Hfa.
  { unfold A. rewrite <- Vx, <- VD. apply div_faithful; auto. rewrite VD. lra. }
  destruct (nearest_error A (x / MILLISECONDS_PER_DAY) 27 Hfa) as [Fa Ea]; try lia.
  { unfold A. rewrite <- Vx, <- VD. apply div_nearest; auto. rewrite VD. lra. }
  { rewrite EA, E27. lra. }
  rewrite Em in Ea. apply Rabs_le_inv in Ea.
  assert (67108864 <= Rabs (B2R (x / MILLISECONDS_PER_DAY)) <= 104249992)%R as Ha.
  { apply (faithful_abs_bounds A); auto.
    - apply (representable_IZR 67108864). simpl. lia.
    - apply (representable_IZR 104249992). simpl. lia.
    - lra.
    - rewrite EA. lra. }
  set (a := x / MILLISECONDS_PER_DAY) in *.
  destruct (julian_chain_exact a Fa Ha) as [Fe Ve].
  set (e := a - 0.5 + J1970 + 0.5 - J1970) in *.
  assert (bpow 52 = 4503599627370496)%R as E52 by (apply (bpow_IZR 52); lia).
  assert (bpow 54 = 18014398509481984)%R as E54 by (apply (bpow_IZR 54); lia).
  assert (Rabs (B2R e * B2R MILLISECONDS_PER_DAY) = Rabs (B2R a) * 86400000)%R as Eab.
  { rewrite Ve, VD, Rabs_mult, (Rabs_right 86400000) by lra. reflexivity. }
  assert (faithful (B2R e * B2R MILLISECONDS_PER_DAY) (Prim2SF (e * MILLISECONDS_PER_DAY))) as Hff
    by (apply mul_faithful; auto).
  destruct (nearest_error _ (e * MILLISECONDS_PER_DAY) 54 Hff) as [Ff Ef]; try lia.
  { apply mul_nearest; auto. }
  { rewrite Eab, E54. lra. }
  replace (54 - 54)%Z with 0%Z in Ef by lia. change (bpow 0) with 1%R in Ef.
  rewrite Ve, VD in Ef. apply Rabs_le_inv in Ef.
  split; [exact Ff|]. split.
  - rewrite ET. apply Rabs_def1; lra.
  - apply (faithful_abs_bounds _ _ (bpow 52) (bpow 54) Hff Ff).
    + apply representable_bpow. lia.
    + apply representable_bpow. lia.
    + lra.
    + rewrite Eab, E52, E54. lra.
Qed.

(** The signed count [fromJulian] computes, within one millisecond. *)
Lemma fromJulian_i64_roundtrip (t : Z) :
  (Z.abs t <= 2 ^ 53)%Z -> (Z.abs (fromJulian_i64 (toJulian (F64.of_Z t)) - t) <= 1)%Z.
Proof.
  intros Ht. unfold fromJulian_i64, fromJulian_f64.
  assert (2 ^ 53 + 2 < 2 ^ 63 - 1)%Z as Hbig by reflexivity.
  assert (forall n, (Rabs (IZR n - IZR t) < 2)%R ->
            (Z.abs (Z.max F64.i64_min (Z.min F64.i64_max n) - t) <= 1)%Z) as Hclose.
  { intros n Hn. rewrite <- minus_IZR, <- abs_IZR in Hn. apply lt_IZR in Hn.
    unfold F64.i64_min, F64.i64_max. lia. }
  assert (is_finite (fromJulian_scaled (toJulian (F64.of_Z t))) = true /\
          ((Rabs (B2R (fromJulian_scaled (toJulian (F64.of_Z t))) - IZR t) < 3 / 2)%R \/
           ((Rabs (B2R (fromJulian_scaled (toJulian (F64.of_Z t))) - IZR t) < 2)%R /\
            (bpow 52 <= Rabs (B2R (fromJulian_scaled (toJulian (F64.of_Z t)))))%R)))
    as [Ff Hf].
  { destruct (Z_lt_le_dec (Z.abs t) 1449551462400000) as [L1|G1].
    { destruct (roundtrip_scaled_small t L1) as [F E]. auto. }
    destruct (Z_lt_le_dec (Z.abs t) 2899102924800000) as [L2|G2].
    { destruct (roundtrip_scaled_grid (-28) t ltac:(lia) Ht) as [F E]; [|auto].
      replace (bpow (-28 + 52)) with 16777216%R by (symmetry; apply (bpow_IZR 24); lia).
      replace (bpow (-28 + 53)) with 33554432%R by (symmetry; apply (bpow_IZR 25); lia).
      rewrite <- abs_IZR. split.
      - apply IZR_le in G1. lra.
      - apply IZR_lt in L2. lra. }
    destruct (Z_lt_le_dec (Z.abs t) 5798205849600000) as [L3|G3].
    { destruct (roundtrip_scaled_grid (-27) t ltac:(lia) Ht) as [F E]; [|auto].
      replace (bpow (-27 + 52)) with 33554432%R by (symmetry; apply (bpow_IZR 25); lia).
      replace (bpow (-27 + 53)) with 67108864%R by (symmetry; apply (bpow_IZR 26); lia).
      rewrite <- abs_IZR. split.
      - apply IZR_le in G2. lra.
      - apply IZR_lt in L3. lra. }
    destruct (roundtrip_scaled_large t (conj G3 Ht)) as (F & E & L). auto. }
  set (f := fromJulian_scaled (toJulian (F64.of_Z t))) in *.
  destruct Hf as [E|[E L]].
  - destruct (round_nearest f Ff) as (n & Fr & Vr & Hn).
    rewrite (to_i64_int _ n Fr Vr). apply Hclose.
    apply Rabs_def2 in E. apply Rabs_def1; lra.
  - destruct (round_large f Ff L) as [Er [n Vn]].
    rewrite Er, (to_i64_int f n Ff Vn). apply Hclose. rewrite <- Vn. exact E.
Qed.

(** C3, as the code has it.  For every integer timestamp [t] that [f64]
    holds exactly, from -2^53 to 2^53 milliseconds around the epoch (more
    than 285000 years each way), the round trip [fromJulian (toJulian t)],
    read as the signed count it is, differs from [t] by at most 1
    millisecond; after the epoch the unsigned timestamp itself does. *)
Theorem fromJulian_toJulian_roundtrip (t : Z) :
  (Z.abs t <= 2 ^ 53)%Z ->
  (Z.abs (F64.as_signed (fromJulian (toJulian (F64.of_Z t))) - t) <= 1)%Z /\
  ((0 < t)%Z -> (Z.abs (fromJulian (toJulian (F64.of_Z t)) - t) <= 1)%Z).
Proof.
  intros Ht. pose proof (fromJulian_i64_roundtrip t Ht) as H. split.
  - rewrite fromJulian_signed. exact H.
  - intros Hpos. unfold fromJulian, F64.to_u64. rewrite Z.mod_small; [exact H|].
    assert (2 ^ 53 + 1 < 2 ^ 64)%Z by reflexivity. lia.
Qed.

(** The first millisecond of 2024. *)
Lemma fromJulian_toJulian_roundtrip_witness :
  (Z.abs (F64.as_signed (fromJulian (toJulian (F64.of_Z 1704067200000))) - 1704067200000) <= 1)%Z /\
  ((0 < 1704067200000)%Z ->
   (Z.abs (fromJulian (toJulian (F64.of_Z 1704067200000)) - 1704067200000) <= 1)%Z).
Proof.
  apply (fromJulian_toJulian_roundtrip 1704067200000). apply Z.leb_le. reflexivity.
Defined.

(** C3 as stated fails past that range: the timestamps 11385544937200004
    and 10^17 are exact in [f64] and fit 64 bits, and their round trips
    are 2 ms and 16 ms away. *)
Lemma roundtrip_far_timestamps :
  Prim2SF (F64.of_Z 11385544937200004) = Prim2SF 11385544937200004 /\
  fromJulian (toJulian (F64.of_Z 11385544937200004)) = 11385544937200002%Z /\
  Prim2SF (F64.of_Z 100000000000000000) = Prim2SF 1e17 /\
  fromJulian (toJulian (F64.of_Z 100000000000000000)) = 100000000000000016%Z.
Proof. repeat split; vm_compute; reflexivity. Qed.
